(** * emcc-dependency-info: a shallow embedding of the attribution generator

    The program under study is [src/puzzles/emcc-dependency-info.py].  It
    reads a list of source paths, extracts a licence notice for each of them
    (from a source comment or from a LICENSE-like file found in an ancestor
    directory), groups the results and prints them as JSON.

    Conventions of the embedding.

    - A Python [str] is a Rocq [string]; the character with code [n] stands
      for the code point [n], so the development covers the texts whose code
      points are below 256.  On that range [isspace] and [lower] below are
      the tables CPython uses for [str.strip], for [\s] and for
      [re.IGNORECASE].
    - A text file is the text [open()] decodes from it; [readline] cuts it
      after each line feed.  A file whose bytes do not decode is read line
      by line up to the place where decoding fails.
    - Loops that the source does not bound take a [fuel] argument and answer
      [OutOfFuel] when it is used up; exceptions are the [Raised] outcome.
    - The filesystem, the search path, the order of directory listings and
      the iteration order of sets are the fields of an environment [Env].
      Calls into the filesystem answer or raise [OSError].
    - [main] starts after the command line has been parsed: it takes the
      parsed arguments and returns the text written to the output file.
      Writing to an opened output file succeeds.  Diagnostics on the error
      stream are left out. *)

From Stdlib Require Import String Ascii List Bool Arith NArith Lia.
From Stdlib Require Import Permutation Sorted.
Import ListNotations.

Local Open Scope string_scope.
Local Open Scope list_scope.

(** ** Outcomes of a run *)

Inductive exn : Type :=
| TypeError
| AttributeError
| ValueError
| IndexError
| OSError
| UnicodeDecodeError
| SystemExit (code : nat).

Inductive outcome (A : Type) : Type :=
| Returned (a : A)
| Raised (e : exn)
| OutOfFuel.

Arguments Returned {A} a.
Arguments Raised {A} e.
Arguments OutOfFuel {A}.

Definition bind {A B : Type} (m : outcome A) (k : A -> outcome B) : outcome B :=
  match m with
  | Returned a => k a
  | Raised e => Raised e
  | OutOfFuel => OutOfFuel
  end.

Notation "x <- m ;; k" := (bind m (fun x => k))
  (at level 61, m at next level, right associativity).

(** [try: body finally: cleanup]: the cleanup runs once the body has ended,
    and an exception it raises replaces the outcome of the body. *)
Definition finally {A : Type} (body : outcome A) (cleanup : outcome unit)
  : outcome A :=
  match body with
  | OutOfFuel => OutOfFuel
  | _ =>
      match cleanup with
      | Returned _ => body
      | Raised e => Raised e
      | OutOfFuel => OutOfFuel
      end
  end.

Fixpoint mapM {A B : Type} (f : A -> outcome B) (l : list A) : outcome (list B) :=
  match l with
  | [] => Returned []
  | a :: l' => b <- f a ;; bs <- mapM f l' ;; Returned (b :: bs)
  end.

(** ** Python [str] operations *)

Module Str.

Definition code (c : ascii) : nat := nat_of_ascii c.

(** [str.isspace] on one character, which is also the class [\s] of a
    [str] pattern. *)
Definition isspace (c : ascii) : bool :=
  let n := code c in
  (((9 <=? n) && (n <=? 13)) || ((28 <=? n) && (n <=? 32))
  || (n =? 133) || (n =? 160))%nat.

(** Simple lower-casing, as [re.IGNORECASE] applies it to both sides. *)
Definition lower (c : ascii) : ascii :=
  let n := code c in
  if (((65 <=? n) && (n <=? 90))
      || ((192 <=? n) && (n <=? 222) && negb (n =? 215)))%nat
  then ascii_of_nat (n + 32) else c.

Definition eqb_ci (a b : ascii) : bool := Ascii.eqb (lower a) (lower b).

(** [s.startswith(p)] *)
Fixpoint startswith (s p : string) : bool :=
  match p, s with
  | EmptyString, _ => true
  | String b p', String a s' => Ascii.eqb a b && startswith s' p'
  | String _ _, EmptyString => false
  end.

(** The literal [p] matched at the head of [s] under [re.IGNORECASE]. *)
Fixpoint startswith_ci (s p : string) : bool :=
  match p, s with
  | EmptyString, _ => true
  | String b p', String a s' => eqb_ci a b && startswith_ci s' p'
  | String _ _, EmptyString => false
  end.

(** [s[n:]] *)
Fixpoint drop (n : nat) (s : string) : string :=
  match n, s with
  | O, _ => s
  | S n', String _ s' => drop n' s'
  | S _, EmptyString => EmptyString
  end.

(** [s[:n]] *)
Fixpoint take (n : nat) (s : string) : string :=
  match n, s with
  | O, _ => EmptyString
  | S n', String a s' => String a (take n' s')
  | S _, EmptyString => EmptyString
  end.

Fixpoint lstrip (s : string) : string :=
  match s with
  | String a s' => if isspace a then lstrip s' else s
  | EmptyString => EmptyString
  end.

Fixpoint rstrip (s : string) : string :=
  match s with
  | String a s' =>
      match rstrip s' with
      | EmptyString => if isspace a then EmptyString else String a EmptyString
      | r => String a r
      end
  | EmptyString => EmptyString
  end.

(** [s.strip()] *)
Definition strip (s : string) : string := rstrip (lstrip s).

(** [sub in s] *)
Fixpoint contains (sub s : string) : bool :=
  startswith s sub ||
  match s with
  | String _ s' => contains sub s'
  | EmptyString => false
  end.

(** [sep.join(l)] *)
Fixpoint join (sep : string) (l : list string) : string :=
  match l with
  | [] => ""
  | [x] => x
  | x :: l' => x ++ sep ++ join sep l'
  end.

(** The longest prefix of [s] without a line feed: what [.*] takes. *)
Fixpoint dotstar (s : string) : string * string :=
  match s with
  | String a s' =>
      if Ascii.eqb a "010" then (EmptyString, s)
      else let (m, r) := dotstar s' in (String a m, r)
  | EmptyString => (EmptyString, EmptyString)
  end.

(** Number of leading white-space characters. *)
Fixpoint spaces (s : string) : nat :=
  match s with
  | String a s' => if isspace a then S (spaces s') else 0
  | EmptyString => 0
  end.

(** Length of the leading run of the character [c], and what follows it. *)
Fixpoint run (c : ascii) (s : string) : nat * string :=
  match s with
  | String a s' =>
      if Ascii.eqb a c then let (n, r) := run c s' in (S n, r) else (0, s)
  | EmptyString => (0, EmptyString)
  end.

(** [text.splitlines(keepends=True)] restricted to line feeds, i.e. the
    successive results of [readline] on a text stream. *)
Fixpoint split_lines_aux (cur : string) (s : string) : list string :=
  match s with
  | EmptyString => if String.eqb cur "" then [] else [cur]
  | String a s' =>
      if Ascii.eqb a "010"
      then (cur ++ String a EmptyString)%string :: split_lines_aux "" s'
      else split_lines_aux (cur ++ String a EmptyString)%string s'
  end.

Definition split_lines (s : string) : list string := split_lines_aux "" s.

(** [re.sub(r"\s+", " ", s)]: every maximal run of white space becomes one
    space; [in_run] tells that the run's space has been written already. *)
Fixpoint collapse_ws_aux (in_run : bool) (s : string) : string :=
  match s with
  | String a s' =>
      if isspace a
      then if in_run then collapse_ws_aux true s'
           else String " " (collapse_ws_aux true s')
      else String a (collapse_ws_aux false s')
  | EmptyString => EmptyString
  end.

Definition collapse_ws (s : string) : string := collapse_ws_aux false s.

End Str.

Import Str.

Definition LF : string := String "010" "".
Definition CR : string := String "013" "".

(** ** Constants of the script *)

Definition LICENSE_TEXT_LLVM_EXCEPTION : string :=
  "Apache License v2.0 with LLVM Exceptions".
Definition SPDX_IDENTIFIER_LLVM_EXCEPTION : string :=
  "Apache-2.0 WITH LLVM-exception".
Definition EMSCRIPTEN_NOTICE : string :=
  "Emscripten is available under two separate licenses".

(** ** The regular expressions

    Each pattern is matched the way the backtracking engine of [re] does it:
    alternatives from left to right, greedy repetitions from the longest
    choice to the shortest. *)

(** [re_comment]: the literals //, /*, space-star and the empty one, in the
    order [re_any_literal] joins them. *)
Definition re_comment : list string := ["//"; "/*"; " *"; ""].

(** [re_copyright = re_any_literal(["Copyright", <U+00C2 U+00A9>, "(c)"])].
    The second literal of the source file is the two code points U+00C2
    U+00A9 (the bytes C3 82 C2 A9 of the script). *)
Definition re_copyright : list string :=
  ["Copyright"; String "194" (String "169" ""); "(c)"].

(** The copyright group (one literal of [re_copyright], then any characters
    but a line feed) and the final dollar, tried at [s]: the text of the
    group. *)
Definition match_marks (s : string) : option string :=
  if existsb (startswith_ci s) re_copyright then
    let (m, r) := dotstar s in
    if String.eqb r "" || String.eqb r LF then Some m else None
  else None.

(** The white space between comment and copyright, taking [j] characters,
    then fewer; then the copyright group. *)
Fixpoint match_ws_marks (j : nat) (s : string) : option string :=
  match match_marks (drop j s) with
  | Some c => Some c
  | None => match j with O => None | S j' => match_ws_marks j' s end
  end.

(** The comment group (the literals of [re_comment] in turn) and what
    follows it, tried at [s]. *)
Fixpoint match_comment (alts : list string) (s : string)
  : option (string * string) :=
  match alts with
  | [] => None
  | c :: alts' =>
      if startswith s c then
        let t := drop (String.length c) s in
        match match_ws_marks (spaces t) t with
        | Some cp => Some (c, cp)
        | None => match_comment alts' s
        end
      else match_comment alts' s
  end.

(** The leader group (white space) taking [k] characters, then fewer. *)
Fixpoint match_leader (k : nat) (line : string)
  : option (string * string * string) :=
  match match_comment re_comment (drop k line) with
  | Some (c, cp) => Some (take k line, c, cp)
  | None => match k with O => None | S k' => match_leader k' line end
  end.

(** The [re.match] of line 118, under [re.IGNORECASE]: leader (white
    space), comment (a literal of [re_comment]), white space, copyright (a
    literal of [re_copyright] and the rest of the line), end of line.  The
    result holds the groups leader, comment and copyright. *)
Definition match_copyright_line (line : string)
  : option (string * string * string) :=
  match_leader (spaces line) line.

Definition spdx_tag : string := "SPDX-License-Identifier:".

(** The [re.search] of line 111, under [re.IGNORECASE]: the tag, then the
    group [license] that takes the rest of the line.  The result is that
    group at the leftmost match. *)
Fixpoint search_spdx (line : string) : option string :=
  if startswith_ci line spdx_tag
  then Some (fst (dotstar (drop (String.length spdx_tag) line)))
  else match line with
       | String _ line' => search_spdx line'
       | EmptyString => None
       end.

(** The words and the suffix group of [re_licence_filename]. *)
Definition licence_words : list string :=
  ["copying"; "copyright"; "notice"; "license"; "licence"].

(** One [.] followed by the literal [lit]. *)
Definition dot_then (lit s : string) : bool :=
  match s with
  | String a s' => negb (Ascii.eqb a "010") && startswith_ci s' lit
  | EmptyString => false
  end.

(** [(?:.txt|.md|)]: the last alternative is empty. *)
Definition licence_suffix (s : string) : bool :=
  dot_then "txt" s || dot_then "md" s || true.

(** [re_licence_filename.match(name)] with
    [re_licence_filename = re.compile(r"(?:copying|copyright|notice|license|licence)(?:.txt|.md|)", re.IGNORECASE)];
    [match] anchors the pattern at the start of [name] only. *)
Definition re_licence_filename_match (name : string) : bool :=
  existsb (fun w => startswith_ci name w
                    && licence_suffix (drop (String.length w) name))
          licence_words.

(** [={10,}\s*$] or [-{10,}\s*$] *)
Definition hrule (c : ascii) (s : string) : bool :=
  let (n, r) := run c s in (10 <=? n)%nat && String.eqb (lstrip r) "".

(** [re_separator.match(content)] with
    [re_separator = re.compile(r"^\s*(?:={10,}|-{10,})\s*$")] *)
Definition re_separator_match (content : string) : bool :=
  let t := lstrip content in hrule "=" t || hrule "-" t.

(** ** Paths ([pathlib.Path] on POSIX) *)

Record Path : Type := mkPath {
  root : string;          (* empty, one slash or two slashes *)
  parts : list string     (* the components after the root *)
}.

Fixpoint split_on_aux (sep : ascii) (cur : string) (s : string) : list string :=
  match s with
  | EmptyString => [cur]
  | String a s' =>
      if Ascii.eqb a sep then cur :: split_on_aux sep "" s'
      else split_on_aux sep (cur ++ String a "")%string s'
  end.

(** [s.split(sep)] for a one-character separator *)
Definition split_on (sep : ascii) (s : string) : list string :=
  split_on_aux sep "" s.

(** The components [pathlib] and [commonpath] keep: neither empty nor ["."]. *)
Definition keep_part (c : string) : bool :=
  negb (String.eqb c "") && negb (String.eqb c ".").

(** [Path(s)] *)
Definition Path_of_string (s : string) : Path :=
  let r :=
    if negb (startswith s "/") then ""
    else if negb (startswith (drop 1 s) "/") || startswith (drop 2 s) "/"
         then "/" else "//" in
  mkPath r (filter keep_part (split_on "/" s)).

(** [str(p)] *)
Definition Path_str (p : Path) : string :=
  match root p, parts p with
  | "", [] => "."
  | r, ps => r ++ join "/" ps
  end.

(** [p.name] *)
Definition Path_name (p : Path) : string := last (parts p) "".

(** [p.parent]: a path without components is its own parent. *)
Definition Path_parent (p : Path) : Path :=
  mkPath (root p) (removelast (parts p)).

(** [p / name] for a directory entry [name] *)
Definition Path_child (p : Path) (name : string) : Path :=
  mkPath (root p) (parts p ++ [name]).

(** [bool(p)]: [pathlib] defines neither [__bool__] nor [__len__], so every
    path object is true. *)
Definition Path_truthy (p : Path) : bool := true.

Definition list_eqb {A : Type} (eqb : A -> A -> bool) : list A -> list A -> bool :=
  fix go (l1 l2 : list A) : bool :=
    match l1, l2 with
    | [], [] => true
    | a :: l1', b :: l2' => eqb a b && go l1' l2'
    | _, _ => false
    end.

(** [p == q] *)
Definition Path_eqb (p q : Path) : bool :=
  String.eqb (root p) (root q) && list_eqb String.eqb (parts p) (parts q).

(** ** The records of the script *)

Record LicenseInfo : Type := mkLicenseInfo {
  source_path : Path;
  license : option string;
  copyright : option string;
  notice : option string;
  license_path : option Path
}.

Record Dependency : Type := mkDependency {
  dep_name : string;
  dep_license : option string;
  dep_notice : string
}.

(** [x or None] for a string [x] *)
Definition or_None (s : string) : option string :=
  if String.eqb s "" then None else Some s.

(** ** In-source extraction *)

(** How the reading of an opened file ends once its lines are read: at the
    end of the file, or at bytes that do not decode. *)
Inductive ending : Type :=
| EndOfFile
| DecodeError.

(** [source_file.readline()] on the lines [f] still to be read, with the
    lines that are left *)
Definition readline (f : list string) (tail : ending)
  : outcome (string * list string) :=
  match f with
  | line :: f' => Returned (line, f')
  | [] =>
      match tail with
      | EndOfFile => Returned ("", [])
      | DecodeError => Raised UnicodeDecodeError
      end
  end.

(** The inner loop of [extract_license_from_source] (lines 134-144): the
    text accumulated in [notice] when the loop breaks. *)
Fixpoint notice_loop (fuel : nat) (leader comment prefix : string)
    (f : list string) (tail : ending) (notice : string) : outcome string :=
  match fuel with
  | O => OutOfFuel
  | S fuel' =>
      r <- readline f tail ;;
      let (line, f') := r in
      if negb (startswith line prefix) then Returned notice
      else if String.eqb comment "*" && startswith line (leader ++ "*/")%string
      then Returned notice
      else
        let content := drop (String.length prefix) line in
        if negb (String.eqb (strip notice) "") && re_separator_match content
        then Returned notice
        else notice_loop fuel' leader comment prefix f' tail
                         (notice ++ content)%string
  end.

(** The outer loop of [extract_license_from_source] over the lines of the
    opened file. *)
Fixpoint extract_lines (fuel : nat) (sp : Path) (f : list string)
    (tail : ending) : outcome (option LicenseInfo) :=
  match f with
  | [] =>
      match tail with
      | EndOfFile => Returned None
      | DecodeError => Raised UnicodeDecodeError
      end
  | line :: f' =>
      if String.eqb line "" then Returned None
      else
        let license :=
          match search_spdx line with
          | Some l => Some (strip l)
          | None => None
          end in
        if match license with
           | Some l => String.eqb l SPDX_IDENTIFIER_LLVM_EXCEPTION
           | None => false
           end
        then Returned (Some (mkLicenseInfo sp license None None None))
        else
          match match_copyright_line line with
          | Some (leader, comment0, copyright) =>
              let comment :=
                if String.eqb comment0 "/*" then " *" else comment0 in
              let prefix := (leader ++ comment)%string in
              n <- notice_loop fuel leader comment prefix f' tail "" ;;
              Returned (Some (mkLicenseInfo sp license (Some copyright)
                                            (or_None (strip n)) None))
          | None => extract_lines fuel sp f' tail
          end
  end.

(** ** The world outside the script *)

(** What an opened file holds: a text, or the text of the lines that are
    read before decoding fails. *)
Inductive contents : Type :=
| Text (text : string)
| Undecodable (head : string).

Record Env : Type := mkEnv {
  (** [p.is_file()]; [None] when the call raises [OSError] *)
  is_file : Path -> option bool;
  (** what [p.open()] / [p.read_text()] open; [None] when they raise
      [OSError] *)
  read_text : Path -> option contents;
  (** the entry names of [p.iterdir()] in the order of the listing; [None]
      when it raises [OSError] *)
  iterdir : Path -> option (list string);
  (** [shutil.which(cmd)] *)
  which : string -> option string;
  (** the order in which a [set] built from the list is iterated *)
  set_iter : list string -> list string
}.

(** [extract_license_from_source(source_path)] *)
Definition extract_license_from_source (fuel : nat) (env : Env) (sp : Path)
  : outcome (option LicenseInfo) :=
  match read_text env sp with
  | None => Raised OSError
  | Some (Text text) => extract_lines fuel sp (split_lines text) EndOfFile
  | Some (Undecodable head) =>
      extract_lines fuel sp (split_lines head) DecodeError
  end.

(** ** License-file discovery *)

(** The loop of [find_license_file], started at [directory].  More than one
    candidate makes line 171 join [Path] objects with a [str] separator,
    which raises [TypeError]. *)
Fixpoint find_license_loop (fuel : nat) (env : Env) (sp directory : Path)
  : outcome (option LicenseInfo) :=
  match fuel with
  | O => OutOfFuel
  | S fuel' =>
      if Path_truthy directory then
        match iterdir env directory with
        | None => Raised OSError
        | Some names =>
            let license_paths :=
              map (Path_child directory)
                  (filter re_licence_filename_match names) in
            if (1 <? List.length license_paths)%nat then Raised TypeError
            else
              match license_paths with
              | lp :: _ =>
                  Returned (Some (mkLicenseInfo sp None None None (Some lp)))
              | [] => find_license_loop fuel' env sp (Path_parent directory)
              end
        end
      else Returned None
  end.

(** [find_license_file(source_path)] *)
Definition find_license_file (fuel : nat) (env : Env) (sp : Path)
  : outcome (option LicenseInfo) :=
  find_license_loop fuel env sp (Path_parent sp).

(** [find_license_info(source_path)] *)
Definition find_license_info (fuel : nat) (env : Env) (sp : Path)
  : outcome (option LicenseInfo) :=
  match is_file env sp with
  | None => Raised OSError
  | Some found =>
      if negb found then Returned None
      else
        r <- extract_license_from_source fuel env sp ;;
        match r with
        | Some info => Returned (Some info)
        | None => find_license_file fuel env sp
        end
  end.

(** ** License files and license inference *)

(** [re.sub(rf"^{marker}.*\Z", "", text, flags=re.MULTILINE | re.DOTALL)]:
    the text is cut at the first line that starts with [marker]. *)
Fixpoint cut_at_line (marker : string) (at_bol : bool) (text : string) : string :=
  if at_bol && startswith text marker then ""
  else match text with
       | String a text' =>
           String a (cut_at_line marker (Ascii.eqb a "010") text')
       | EmptyString => ""
       end.

(** [read_license_file(license_path)] *)
Definition read_license_file (env : Env) (lp : Path) : outcome string :=
  match read_text env lp with
  | None => Raised OSError
  | Some (Undecodable _) => Raised UnicodeDecodeError
  | Some (Text license_text) =>
      let package_name := Path_name (Path_parent lp) in
      if String.eqb package_name "emscripten"
      then Returned (cut_at_line "This program uses portions of Node" true license_text)
      else if String.eqb package_name "musl"
      then Returned (cut_at_line "Authors/contributors include" true license_text)
      else Returned license_text
  end.

Definition TEXT_MIT_NCSA : string :=
  "the MIT license and the University of Illinois/NCSA Open Source License".
Definition TEXT_MIT : string := "MIT license".
Definition TEXT_SUNPRO : string :=
  "Permission to use, copy, modify, and distribute this software is freely granted, provided that this notice is preserved.".

(** The comparison text of [infer_license_identifier] (line 203) *)
Definition normalize (notice : string) : string := collapse_ws (strip notice).

(** [infer_license_identifier(notice)] *)
Definition infer_license_identifier (notice : string) : option string :=
  let notice := normalize notice in
  if contains LICENSE_TEXT_LLVM_EXCEPTION notice
  then Some SPDX_IDENTIFIER_LLVM_EXCEPTION
  else if contains TEXT_MIT_NCSA notice then Some "(MIT OR NCSA)"
  else if contains TEXT_MIT notice then Some "MIT"
  else if contains TEXT_SUNPRO notice then Some "SunPro"
  else None.

(** ** Grouping *)

(** The keys of [groups]: a [Path] never equals a [str]. *)
Inductive Key : Type :=
| KPath (p : Path)
| KStr (s : string).

Definition Key_eqb (a b : Key) : bool :=
  match a, b with
  | KPath p, KPath q => Path_eqb p q
  | KStr s, KStr t => String.eqb s t
  | _, _ => false
  end.

(** [license_info.license_path or license_info.notice or license_info.source_path] *)
Definition key_of (info : LicenseInfo) : Key :=
  match license_path info with
  | Some lp => KPath lp
  | None =>
      match notice info with
      | Some n => if String.eqb n "" then KPath (source_path info) else KStr n
      | None => KPath (source_path info)
      end
  end.

(** [groups[key].append(license_info)] on an insertion-ordered dictionary *)
Fixpoint dict_append (key : Key) (info : LicenseInfo)
    (groups : list (Key * list LicenseInfo)) : list (Key * list LicenseInfo) :=
  match groups with
  | [] => [(key, [info])]
  | (k, items) :: groups' =>
      if Key_eqb k key then (k, items ++ [info]) :: groups'
      else (k, items) :: dict_append key info groups'
  end.

(** Lines 221-225 of [group_dependencies] *)
Definition build_groups (license_infos : list (option LicenseInfo))
  : list (Key * list LicenseInfo) :=
  fold_left (fun groups oi =>
               match oi with
               | Some info => dict_append (key_of info) info groups
               | None => groups
               end)
            license_infos [].

Fixpoint insert_sorted (x : string) (l : list string) : list string :=
  match l with
  | [] => [x]
  | y :: l' => if String.leb x y then x :: l else y :: insert_sorted x l'
  end.

(** [sorted(l)] for strings, compared by code points *)
Definition sorted (l : list string) : list string :=
  fold_right insert_sorted [] l.

Fixpoint list_leb (l1 l2 : list string) : bool :=
  match l1, l2 with
  | [], _ => true
  | _ :: _, [] => false
  | a :: l1', b :: l2' =>
      if String.eqb a b then list_leb l1' l2' else String.leb a b
  end.

(** [min(ls)] and [max(ls)] for a non-empty list of lists, [d] its head *)
Definition list_min (d : list string) (ls : list (list string)) : list string :=
  fold_left (fun m l => if list_leb m l then m else l) ls d.
Definition list_max (d : list string) (ls : list (list string)) : list string :=
  fold_left (fun m l => if list_leb l m then m else l) ls d.

(** The loop of [commonpath] over [s1], reading [s2] by index *)
Fixpoint common_prefix (s1 s2 : list string) : outcome (list string) :=
  match s1 with
  | [] => Returned []
  | c :: s1' =>
      match s2 with
      | [] => Raised IndexError
      | c2 :: s2' =>
          if String.eqb c c2
          then r <- common_prefix s1' s2' ;; Returned (c :: r)
          else Returned []
      end
  end.

(** [os.path.commonpath(paths)] on POSIX *)
Definition commonpath (paths : list string) : outcome string :=
  match paths with
  | [] => Raised ValueError
  | p0 :: _ =>
      let isabs := startswith p0 "/" in
      if forallb (fun p => Bool.eqb (startswith p "/") isabs) paths then
        let split_paths :=
          map (fun p => filter keep_part (split_on "/" p)) paths in
        let s1 := list_min (hd [] split_paths) split_paths in
        let s2 := list_max (hd [] split_paths) split_paths in
        common <- common_prefix s1 s2 ;;
        Returned ((if isabs then "/" else "") ++ join "/" common)%string
      else Raised ValueError
  end.

(** The notice of the representative (lines 230-233) *)
Definition resolve_notice (env : Env) (item : LicenseInfo) : outcome string :=
  match notice item with
  | Some n => Returned n
  | None =>
      match license_path item with
      | Some lp => read_license_file env lp
      | None => Returned ""
      end
  end.

(** [item.license or infer_license_identifier(notice)] (line 234) *)
Definition resolve_license (item : LicenseInfo) (notice : string)
  : option string :=
  match license item with
  | Some l => if String.eqb l "" then infer_license_identifier notice else Some l
  | None => infer_license_identifier notice
  end.

(** The name of a group (lines 236-248) *)
Definition group_name (key : Key) (item : LicenseInfo)
    (items : list LicenseInfo) : outcome string :=
  if (List.length items =? 1)%nat then
    Returned (Path_name (source_path item))
  else
    match key with
    | KPath _ =>
        match license_path item with
        | Some lp => Returned (Path_name (Path_parent lp))
        | None => Raised AttributeError
        end
    | KStr _ =>
        common_parent <-
          commonpath (map (fun it => Path_str (source_path it)) items) ;;
        if negb (String.eqb common_parent "")
        then Returned (Path_name (Path_of_string common_parent))
        else Returned
               (join ", " (sorted (map (fun it => Path_name (source_path it))
                                       items)))
    end.

(** [item.copyright for item in items if item.copyright] *)
Definition member_copyrights (items : list LicenseInfo) : list string :=
  flat_map (fun it =>
              match copyright it with
              | Some c => if String.eqb c "" then [] else [c]
              | None => []
              end)
           items.

(** [sorted(set(item.copyright for item in items if item.copyright))] *)
Definition group_copyrights (env : Env) (items : list LicenseInfo)
  : list string :=
  sorted (set_iter env (member_copyrights items)).

(** One turn of the loop of lines 228-263: [None] when the group is skipped
    by [continue], the appended record otherwise. *)
Definition emit_group (env : Env) (key : Key) (items : list LicenseInfo)
  : outcome (option Dependency) :=
  match items with
  | [] => Raised IndexError
  | item :: _ =>
      notice <- resolve_notice env item ;;
      let license_id := resolve_license item notice in
      name <- group_name key item items ;;
      if match license_id with
         | Some l => String.eqb l SPDX_IDENTIFIER_LLVM_EXCEPTION
         | None => false
         end
      then Returned None
      else
        let copyrights := group_copyrights env items in
        let linebreak := CR in
        let notice :=
          match copyrights with
          | [] => notice
          | _ => (join linebreak copyrights ++ LF ++ LF ++ notice)%string
          end in
        Returned (Some (mkDependency name license_id notice))
  end.

(** The loop of lines 228-263 over the groups in dictionary order *)
Fixpoint emit_groups (env : Env) (groups : list (Key * list LicenseInfo))
  : outcome (list Dependency) :=
  match groups with
  | [] => Returned []
  | (key, items) :: groups' =>
      d <- emit_group env key items ;;
      ds <- emit_groups env groups' ;;
      Returned (match d with Some dep => dep :: ds | None => ds end)
  end.

(** [group_dependencies(license_infos)] *)
Definition group_dependencies (env : Env)
    (license_infos : list (option LicenseInfo)) : outcome (list Dependency) :=
  emit_groups env (build_groups license_infos).

(** ** Serialisation: [json.dump(..., indent=2)] *)

Definition QUOTE : string := String "034" "".

Definition hex_digit (n : nat) : ascii :=
  if (n <? 10)%nat then ascii_of_nat (48 + n) else ascii_of_nat (87 + n).

(** The escape of one character under [ensure_ascii=True] *)
Definition json_escape_char (c : ascii) : string :=
  let n := code c in
  if (n =? 34)%nat then "\" ++ QUOTE
  else if (n =? 92)%nat then "\\"
  else if (n =? 10)%nat then "\n"
  else if (n =? 13)%nat then "\r"
  else if (n =? 9)%nat then "\t"
  else if (n =? 8)%nat then "\b"
  else if (n =? 12)%nat then "\f"
  else if ((32 <=? n) && (n <=? 126))%nat then String c ""
  else "\u00" ++ String (hex_digit (n / 16)) (String (hex_digit (n mod 16)) "").

Fixpoint json_escape (s : string) : string :=
  match s with
  | String c s' => json_escape_char c ++ json_escape s'
  | EmptyString => ""
  end.

Definition json_string (s : string) : string :=
  QUOTE ++ json_escape s ++ QUOTE.

Definition json_key (k : string) : string := QUOTE ++ k ++ QUOTE ++ ": ".

(** One [Dependency] at nesting level two *)
Definition json_dependency (d : Dependency) : string :=
  "    {" ++ LF
  ++ "      " ++ json_key "name" ++ json_string (dep_name d) ++ "," ++ LF
  ++ "      " ++ json_key "license"
  ++ match dep_license d with
     | Some l => json_string l
     | None => "null"
     end ++ "," ++ LF
  ++ "      " ++ json_key "notice" ++ json_string (dep_notice d) ++ LF
  ++ "    }".

(** [json.dumps({"dependencies": deps}, indent=2)] *)
Definition json_dump (deps : list Dependency) : string :=
  "{" ++ LF ++ "  " ++ json_key "dependencies"
  ++ match deps with
     | [] => "[]"
     | _ => "[" ++ LF ++ join ("," ++ LF) (map json_dependency deps)
            ++ LF ++ "  ]"
     end
  ++ LF ++ "}".

(** ** The driver *)

(** The body of the loop of lines 309-315 on one element *)
Definition substitute_emscripten (emscripten_license_path : Path)
    (oi : option LicenseInfo) : option LicenseInfo :=
  match oi with
  | None => None
  | Some info =>
      match notice info with
      | None => Some info
      | Some n =>
          if startswith (strip n) EMSCRIPTEN_NOTICE
          then Some (mkLicenseInfo (source_path info) (license info)
                                   (copyright info) None
                                   (Some emscripten_license_path))
          else Some info
      end
  end.

(** Lines 301-317: the dependencies for the lines of the source list *)
Definition collect_dependencies (fuel : nat) (env : Env)
    (emscripten_license_path : Path) (sources : string)
  : outcome (list Dependency) :=
  let source_paths :=
    map (fun source => Path_of_string (strip source)) (split_lines sources) in
  license_infos <- mapM (find_license_info fuel env) source_paths ;;
  let license_infos :=
    map (substitute_emscripten emscripten_license_path) license_infos in
  group_dependencies env license_infos.

(** The parsed command line [args]: the opened source list and whether an
    output file was opened ([None] and [false] when the flag is absent), and
    the directory given with [--emscripten-dir]. *)
Record Namespace : Type := mkNamespace {
  sources : option contents;
  output : bool;
  emscripten_dir : option Path
}.

(** [args.sources.readlines()], as one text *)
Definition readlines (sources : option contents) : outcome string :=
  match sources with
  | None => Raised AttributeError
  | Some (Text text) => Returned text
  | Some (Undecodable _) => Raised UnicodeDecodeError
  end.

(** [json.dump(..., args.output, indent=2)] and [args.output.write]: the
    text that is written *)
Definition write (output : bool) (text : string) : outcome string :=
  if output then Returned text else Raised AttributeError.

(** [args.sources.close()] and [args.output.close()] *)
Definition close (opened : bool) : outcome unit :=
  if opened then Returned tt else Raised AttributeError.

Definition is_Some {A : Type} (o : option A) : bool :=
  match o with Some _ => true | None => false end.

(** Lines 288-293: the directory given on the command line, or else the
    directory of [emcc] on the search path *)
Definition find_emscripten_dir (env : Env) (args : Namespace) : option Path :=
  let from_path :=
    match which env "emcc" with
    | Some emcc_path =>
        if String.eqb emcc_path "" then None
        else Some (Path_parent (Path_of_string emcc_path))
    | None => None
    end in
  match emscripten_dir args with
  | Some dir => if Path_truthy dir then Some dir else from_path
  | None => from_path
  end.

(** [main()]: what is written to the output file.  Without a directory,
    line 295 divides [None] by a string, which raises [TypeError]. *)
Definition main (fuel : nat) (env : Env) (args : Namespace) : outcome string :=
  match find_emscripten_dir env args with
  | None => Raised TypeError
  | Some emscripten_dir =>
      let emscripten_license_path := Path_child emscripten_dir "LICENSE" in
      match is_file env emscripten_license_path with
      | None => Raised OSError
      | Some found =>
          if negb found then Raised (SystemExit 1)
          else
            finally
              (text <- readlines (sources args) ;;
               dependencies <-
                 collect_dependencies fuel env emscripten_license_path text ;;
               write (output args) (json_dump dependencies ++ LF)%string)
              (_ <- close (is_Some (sources args)) ;; close (output args))
      end
  end.

(** The arguments of a run with all three flags *)
Definition arguments (emscripten_dir : Path) (sources : string) : Namespace :=
  mkNamespace (Some (Text sources)) true (Some emscripten_dir).

(** * Specification-level notions

    The definitions below follow the words of the specification; the
    properties relate them to the embedding above. *)

(** ** License inference

    An ordered list of pairs (phrase, identifier), tried in sequence on the
    comparison text; the first phrase found decides. *)

Definition license_patterns : list (string * string) :=
  [(LICENSE_TEXT_LLVM_EXCEPTION, SPDX_IDENTIFIER_LLVM_EXCEPTION);
   (TEXT_MIT_NCSA, "(MIT OR NCSA)");
   (TEXT_MIT, "MIT");
   (TEXT_SUNPRO, "SunPro")].

Fixpoint first_match (table : list (string * string)) (text : string)
  : option string :=
  match table with
  | [] => None
  | (phrase, id) :: table' =>
      if contains phrase text then Some id else first_match table' text
  end.

(** The characters of [s] that are not white space, in order *)
Fixpoint nonspace (s : string) : string :=
  match s with
  | String a s' => if isspace a then nonspace s' else String a (nonspace s')
  | EmptyString => EmptyString
  end.

(** Every white-space character of [s] is one space that stands between two
    characters that are not white space; [after_space] tells that the
    character before [s] is such a space, [at_start] that [s] is at the
    start of the text. *)
Fixpoint single_spaced_aux (at_start after_space : bool) (s : string) : bool :=
  match s with
  | String a s' =>
      if isspace a
      then Ascii.eqb a " " && negb at_start && negb after_space
           && single_spaced_aux false true s'
      else single_spaced_aux false false s'
  | EmptyString => negb after_space
  end.

Definition single_spaced (s : string) : bool := single_spaced_aux true false s.

(** ** Grouping

    The records that were found, the members of a key among them in input
    order, and the keys in the order of their first occurrence. *)

Definition Path_eq_dec (p q : Path) : {p = q} + {p <> q}.
Proof.
  decide equality; [apply (list_eq_dec string_dec) | apply string_dec].
Defined.

Definition Key_eq_dec (a b : Key) : {a = b} + {a <> b}.
Proof.
  decide equality; [apply Path_eq_dec | apply string_dec].
Defined.

(** [key in keys] *)
Definition key_mem (k : Key) (keys : list Key) : bool :=
  existsb (Key_eqb k) keys.

Definition present (license_infos : list (option LicenseInfo))
  : list LicenseInfo :=
  flat_map (fun oi => match oi with Some info => [info] | None => [] end)
           license_infos.

Definition members (key : Key) (license_infos : list (option LicenseInfo))
  : list LicenseInfo :=
  filter (fun info => Key_eqb key (key_of info)) (present license_infos).

Fixpoint first_occurrences (keys : list Key) : list Key :=
  match keys with
  | [] => []
  | k :: keys' =>
      k :: filter (fun k' => negb (Key_eqb k' k)) (first_occurrences keys')
  end.

Definition group_keys (license_infos : list (option LicenseInfo)) : list Key :=
  first_occurrences (map key_of (present license_infos)).

Definition groups_in_order (license_infos : list (option LicenseInfo))
  : list (Key * list LicenseInfo) :=
  map (fun k => (k, members k license_infos)) (group_keys license_infos).

(** What one group adds to the output *)
Definition emitted (env : Env) (g : Key * list LicenseInfo) : list Dependency :=
  match emit_group env (fst g) (snd g) with
  | Returned (Some d) => [d]
  | _ => []
  end.

(** The license identifier a record resolves to when it stands for its
    group (lines 230-234) *)
Definition resolved_license_id (env : Env) (item : LicenseInfo)
  : outcome (option string) :=
  notice <- resolve_notice env item ;;
  Returned (resolve_license item notice).

(** ** Copyright lines *)

Definition le_str (a b : string) : Prop := String.leb a b = true.

(** The distinct strings of [l] in sorted order *)
Definition sorted_distinct (l : list string) : list string :=
  sorted (nodup string_dec l).

(** A [set] iterates over its distinct elements, in some order. *)
Definition set_order_ok (env : Env) : Prop :=
  forall l, Permutation (set_iter env l) (nodup string_dec l).

(** The notice of a group with its copyright strings in front, [sep]
    between them *)
Definition notice_with_copyrights (sep : string) (items : list LicenseInfo)
    (body : string) : string :=
  join sep (sorted_distinct (member_copyrights items)) ++ LF ++ LF ++ body.

(** ** Two runs on the same inputs

    Two runs see the same files and the same directories; a directory may be
    listed in another order, and a set may be iterated in another order. *)

Definition same_listing (l1 l2 : option (list string)) : Prop :=
  match l1, l2 with
  | Some n1, Some n2 => Permutation n1 n2
  | None, None => True
  | _, _ => False
  end.

Definition same_world (e1 e2 : Env) : Prop :=
  (forall p, is_file e1 p = is_file e2 p)
  /\ (forall p, read_text e1 p = read_text e2 p)
  /\ (forall p, same_listing (iterdir e1 p) (iterdir e2 p))
  /\ (forall cmd, which e1 cmd = which e2 cmd).

(** At most one license-file candidate in every directory *)
Definition one_candidate (env : Env) : Prop :=
  forall p names,
    iterdir env p = Some names ->
    List.length (filter re_licence_filename_match names) <= 1.

(** * Concrete worlds for the examples *)

Fixpoint lookup {A : Type} (p : Path) (l : list (Path * A)) : option A :=
  match l with
  | [] => None
  | (q, a) :: l' => if Path_eqb q p then Some a else lookup p l'
  end.

(** A world made of the regular [files] with their texts and of the
    directories [dirs] with their listings; every call answers, no command
    is on the search path, and sets iterate in insertion order. *)
Definition world (files : list (string * string))
    (dirs : list (string * list string)) : Env :=
  let fs := map (fun '(p, t) => (Path_of_string p, t)) files in
  let ds := map (fun '(p, ns) => (Path_of_string p, ns)) dirs in
  mkEnv (fun p => match lookup p fs with
                  | Some _ => Some true
                  | None => Some false
                  end)
        (fun p => match lookup p fs with
                  | Some t => Some (Text t)
                  | None => None
                  end)
        (fun p => lookup p ds)
        (fun _ => None)
        (nodup string_dec).

(** The world [env] where opening [p] gives [c] *)
Definition with_contents (env : Env) (p : Path) (c : option contents) : Env :=
  mkEnv (is_file env)
        (fun q => if Path_eqb q p then c else read_text env q)
        (iterdir env) (which env) (set_iter env).

(** The world [env] where [emcc] is found at [p] on the search path *)
Definition with_emcc (env : Env) (p : string) : Env :=
  mkEnv (is_file env) (read_text env) (iterdir env)
        (fun cmd => if String.eqb cmd "emcc" then Some p else which env cmd)
        (set_iter env).

(** The same world with every directory listed backwards and every set
    iterated backwards *)
Definition backwards (env : Env) : Env :=
  mkEnv (is_file env) (read_text env)
        (fun p => match iterdir env p with
                  | Some names => Some (rev names)
                  | None => None
                  end)
        (which env)
        (fun l => rev (set_iter env l)).

(** One line of text with its line feed *)
Definition ln (s : string) : string := (s ++ LF)%string.

(** The text made of the given lines *)
Definition text (lines : list string) : string :=
  fold_right (fun l acc => (ln l ++ acc)%string) "" lines.

(** The copyright sign U+00A9 as a one-character text *)
Definition COPYRIGHT_SIGN : string := String "169" "".

Definition b_c : Path := Path_of_string "/a/b.c".
Definition x_a : Path := Path_of_string "/x/a.c".
Definition x_b : Path := Path_of_string "/x/b.c".
Definition y_c : Path := Path_of_string "/y/c.c".
Definition p_q_m : Path := Path_of_string "/p/q/m.c".
Definition p_LICENSE : Path := Path_of_string "/p/LICENSE".
Definition e_dir : Path := Path_of_string "/e".
Definition e_LICENSE : Path := Path_of_string "/e/LICENSE".

(** A world without any license file: [/a/b.c] under [/a] under the root. *)
Definition bare_world : Env :=
  world [("/a/b.c", text ["int x;"])] [("/a", ["b.c"]); ("/", ["a"])].

(** Two sources in two directories, each with a notice of its own, and the
    Emscripten directory [/e]. *)
Definition two_notices : Env :=
  world
    [("/x/a.c", text ["// Copyright 2020 Foo"; "// Notice A"; "int a;"]);
     ("/y/b.c", text ["// Copyright 2021 Bar"; "// Notice B"; "int b;"]);
     ("/e/LICENSE", text ["Emscripten license text"])]
    [("/x", ["a.c"]); ("/y", ["b.c"]); ("/e", ["LICENSE"]);
     ("/", ["x"; "y"; "e"])].

Definition dep_a : Dependency :=
  mkDependency "a.c" None ("Copyright 2020 Foo" ++ LF ++ LF ++ "Notice A").
Definition dep_b : Dependency :=
  mkDependency "b.c" None ("Copyright 2021 Bar" ++ LF ++ LF ++ "Notice B").

(** Two sources of one directory that share their notice text and differ in
    their copyright lines. *)
Definition shared_notice : Env :=
  world
    [("/x/a.c", text ["// Copyright 2021 Bar"; "// Shared notice"; "int a;"]);
     ("/x/b.c", text ["// Copyright 2020 Foo"; "// Shared notice"; "int b;"]);
     ("/e/LICENSE", text ["Emscripten license text"])]
    [("/x", ["a.c"; "b.c"]); ("/e", ["LICENSE"]); ("/", ["x"; "e"])].

Definition shared_a : LicenseInfo :=
  mkLicenseInfo x_a None (Some "Copyright 2021 Bar") (Some "Shared notice") None.
Definition shared_b : LicenseInfo :=
  mkLicenseInfo x_b None (Some "Copyright 2020 Foo") (Some "Shared notice") None.

Definition dep_shared : Dependency :=
  mkDependency "x" None
    ("Copyright 2020 Foo" ++ CR ++ "Copyright 2021 Bar" ++ LF ++ LF
     ++ "Shared notice").

Definition LLVM_NOTICE : string :=
  "Part of the LLVM Project, under the Apache License v2.0 with LLVM Exceptions.".

(** Two sources with the same LLVM notice, the first of which carries an
    explicit MIT identifier on its copyright line, and a third source with a
    notice of its own. *)
Definition llvm_world : Env :=
  world
    [("/x/a.c", text ["// Copyright 2020 Foo SPDX-License-Identifier: MIT";
                      ("// " ++ LLVM_NOTICE)%string; "int a;"]);
     ("/x/b.c", text ["// Copyright 2021 Bar";
                      ("// " ++ LLVM_NOTICE)%string; "int b;"]);
     ("/y/c.c", text ["// Copyright 2019 Baz"; "// Notice C"; "int c;"]);
     ("/e/LICENSE", text ["Emscripten license text"])]
    [("/x", ["a.c"; "b.c"]); ("/y", ["c.c"]); ("/e", ["LICENSE"]);
     ("/", ["x"; "y"; "e"])].

Definition llvm_a : LicenseInfo :=
  mkLicenseInfo x_a (Some "MIT")
    (Some "Copyright 2020 Foo SPDX-License-Identifier: MIT")
    (Some LLVM_NOTICE) None.
Definition llvm_b : LicenseInfo :=
  mkLicenseInfo x_b None (Some "Copyright 2021 Bar") (Some LLVM_NOTICE) None.
Definition info_c : LicenseInfo :=
  mkLicenseInfo y_c None (Some "Copyright 2019 Baz") (Some "Notice C") None.

Definition dep_x : Dependency :=
  mkDependency "x" (Some "MIT")
    ("Copyright 2020 Foo SPDX-License-Identifier: MIT" ++ CR
     ++ "Copyright 2021 Bar" ++ LF ++ LF ++ LLVM_NOTICE).
Definition dep_c : Dependency :=
  mkDependency "c.c" None ("Copyright 2019 Baz" ++ LF ++ LF ++ "Notice C").

(** A source without a notice of its own two levels below a LICENSE file,
    among other directory entries, and two sources that share a notice. *)
Definition licensed_world : Env :=
  world
    [("/p/q/m.c", text ["int m;"]);
     ("/p/LICENSE", text ["Released under the MIT license."]);
     ("/x/a.c", text ["// Copyright 2021 Bar"; "// Shared notice"; "int a;"]);
     ("/x/b.c", text ["// Copyright 2020 Foo"; "// Shared notice"; "int b;"]);
     ("/e/LICENSE", text ["Emscripten license text"])]
    [("/p/q", ["m.c"; "n.c"; "o.h"]); ("/p", ["q"; "README"; "LICENSE"; "src"]);
     ("/x", ["a.c"; "b.c"]); ("/e", ["LICENSE"; "emcc"]);
     ("/", ["p"; "x"; "e"])].

Definition dep_m : Dependency :=
  mkDependency "m.c" (Some "MIT") (ln "Released under the MIT license.").

(** ** Shapes of texts *)

(** Only white space *)
Fixpoint all_space (s : string) : bool :=
  match s with
  | String a s' => isspace a && all_space s'
  | EmptyString => true
  end.

(** No line feed *)
Fixpoint no_lf (s : string) : bool :=
  match s with
  | String a s' => negb (Ascii.eqb a "010") && no_lf s'
  | EmptyString => true
  end.

(** ** Words and the white space between them *)

(** No white space *)
Fixpoint no_space (s : string) : bool :=
  match s with
  | String a s' => negb (isspace a) && no_space s'
  | EmptyString => true
  end.

(** A word: a text that is not empty and holds no white space *)
Definition word (w : string) : Prop := w <> "" /\ no_space w = true.

(** A gap: a run of white space that is not empty *)
Definition gap (g : string) : Prop := g <> "" /\ all_space g = true.

(** The text made of the word [w] and of the following words, each after
    its gap *)
Fixpoint spaced (w : string) (rest : list (string * string)) : string :=
  match rest with
  | [] => w
  | (g, w') :: rest' => (w ++ g ++ spaced w' rest')%string
  end.

(** The phrase stands somewhere in the text. *)
Definition occurs_in (phrase text : string) : Prop :=
  exists pre post, text = (pre ++ phrase ++ post)%string.

(** A line the outer loop of the extraction passes over: it is no marker
    line and carries no LLVM-exception identifier. *)
Definition passed_over (line : string) : Prop :=
  line <> ""
  /\ match_copyright_line line = None
  /\ (forall l, search_spdx line = Some l ->
                strip l <> SPDX_IDENTIFIER_LLVM_EXCEPTION).

(** The record of a file that holds the LLVM-exception identifier *)
Definition llvm_only (sp : Path) : LicenseInfo :=
  mkLicenseInfo sp (Some SPDX_IDENTIFIER_LLVM_EXCEPTION) None None None.

(** The last character is a line feed *)
Fixpoint ends_lf (s : string) : bool :=
  match s with
  | EmptyString => false
  | String a EmptyString => Ascii.eqb a "010"
  | String _ s' => ends_lf s'
  end.

(** The line at which the license file of a package is cut, by the name of
    the directory that holds it *)
Definition cut_marker (lp : Path) : option string :=
  let package_name := Path_name (Path_parent lp) in
  if String.eqb package_name "emscripten"
  then Some "This program uses portions of Node"
  else if String.eqb package_name "musl"
  then Some "Authors/contributors include"
  else None.

(** Some line of [text] begins with [marker]. *)
Definition begins_line (marker text : string) : Prop :=
  exists pre rest,
    text = (pre ++ marker ++ rest)%string /\ (pre = "" \/ ends_lf pre = true).

Definition emscripten_LICENSE : Path :=
  Path_of_string "/emsdk/upstream/emscripten/LICENSE".

(** The license file of Emscripten with its appendix on Node, and a source
    of Emscripten without a notice of its own. *)
Definition node_world : Env :=
  world
    [("/emsdk/upstream/emscripten/LICENSE",
      text ["MIT license text"; "";
            "This program uses portions of Node modules."; "Node license"]);
     ("/emsdk/upstream/emscripten/system/lib/a.c", text ["int a;"])]
    [("/emsdk/upstream/emscripten/system/lib", ["a.c"]);
     ("/emsdk/upstream/emscripten/system", ["lib"]);
     ("/emsdk/upstream/emscripten", ["system"; "LICENSE"; "emcc"])].

(** Lines 304-317 of [main] on the parsed source paths *)
Definition dependencies_of_paths (fuel : nat) (env : Env)
    (emscripten_license_path : Path) (source_paths : list Path)
  : outcome (list Dependency) :=
  license_infos <- mapM (find_license_info fuel env) source_paths ;;
  group_dependencies env
    (map (substitute_emscripten emscripten_license_path) license_infos).

(** The notice of the record begins, after stripping, with the preamble of
    Emscripten's own notice (line 311). *)
Definition has_emscripten_notice (info : LicenseInfo) : bool :=
  match notice info with
  | Some n => startswith (strip n) EMSCRIPTEN_NOTICE
  | None => false
  end.

(** [os.path.isabs] of the source path of a record *)
Definition is_absolute (info : LicenseInfo) : bool :=
  startswith (Path_str (source_path info)) "/".

(** The source paths of the records are all absolute or all relative. *)
Definition same_kind_of_paths (items : list LicenseInfo) : bool :=
  match items with
  | [] => false
  | item :: _ =>
      forallb (fun it => Bool.eqb (is_absolute it) (is_absolute item)) items
  end.

(** The exceptions that come out of the loop over the sources and of the
    grouping *)
Definition raised_while_collecting (e : exn) : Prop :=
  e = OSError \/ e = UnicodeDecodeError \/ e = TypeError
  \/ e = AttributeError \/ e = ValueError.

(** Printable ASCII, or a line feed: what a JSON text written with
    [ensure_ascii] and [indent] is made of *)
Definition plain_char (c : ascii) : bool :=
  let n := code c in (((32 <=? n) && (n <=? 126)) || (n =? 10))%nat.

Fixpoint plain (s : string) : bool :=
  match s with
  | String a s' => plain_char a && plain s'
  | EmptyString => true
  end.

(** * Properties *)

(** ** The embedding on small inputs *)

Lemma path_examples :
  Path_str (Path_of_string "//a/./b//c/") = "//a/b/c"
  /\ Path_str (Path_of_string "///a") = "/a"
  /\ Path_str (Path_of_string "") = "."
  /\ Path_name (Path_of_string "/x/a.c") = "a.c"
  /\ Path_name (Path_of_string "/") = ""
  /\ Path_parent (Path_of_string "/x/a.c") = Path_of_string "/x"
  /\ Path_parent (Path_of_string "a.c") = Path_of_string "."
  /\ Path_parent (Path_of_string "/") = Path_of_string "/"
  /\ Path_parent (Path_of_string ".") = Path_of_string "."
  /\ Path_child (Path_of_string "/e") "LICENSE" = e_LICENSE.
Proof. repeat split; reflexivity. Qed.

Lemma commonpath_examples :
  commonpath ["/a/b/c.c"; "/a/d/e.c"] = Returned "/a"
  /\ commonpath ["/a"; "/b"] = Returned "/"
  /\ commonpath ["a/b"; "c/d"] = Returned ""
  /\ commonpath ["a/b.c"; "a/b.c"] = Returned "a/b.c"
  /\ commonpath ["/a"; "b"] = Raised ValueError.
Proof. repeat split; reflexivity. Qed.

Lemma separator_examples :
  re_separator_match (ln "  ===========  ") = true
  /\ re_separator_match "----------" = true
  /\ re_separator_match (ln " =========") = false
  /\ re_separator_match (ln "---------- x") = false
  /\ re_separator_match "" = false.
Proof. repeat split; reflexivity. Qed.

Lemma json_dump_examples :
  (json_dump [] ++ LF
   = "{" ++ LF
     ++ "  " ++ QUOTE ++ "dependencies" ++ QUOTE ++ ": []" ++ LF
     ++ "}" ++ LF)%string
  /\ (json_dump [dep_m]
      = "{" ++ LF
        ++ "  " ++ QUOTE ++ "dependencies" ++ QUOTE ++ ": [" ++ LF
        ++ "    {" ++ LF
        ++ "      " ++ QUOTE ++ "name" ++ QUOTE ++ ": "
        ++ QUOTE ++ "m.c" ++ QUOTE ++ "," ++ LF
        ++ "      " ++ QUOTE ++ "license" ++ QUOTE ++ ": "
        ++ QUOTE ++ "MIT" ++ QUOTE ++ "," ++ LF
        ++ "      " ++ QUOTE ++ "notice" ++ QUOTE ++ ": "
        ++ QUOTE ++ "Released under the MIT license.\n" ++ QUOTE ++ LF
        ++ "    }" ++ LF
        ++ "  ]" ++ LF
        ++ "}")%string
  /\ json_string (QUOTE ++ "\" ++ CR ++ String "001" COPYRIGHT_SIGN)
     = (QUOTE ++ "\" ++ QUOTE ++ "\\\r\u0001\u00a9" ++ QUOTE)%string.
Proof. repeat split; reflexivity. Qed.

(** A notice in line comments ends at the first line without the prefix; a
    horizontal rule ends it once some text has been read; a marker line
    without any comment prefix is followed to the end of the file and
    beyond. *)
Lemma notice_examples :
  extract_lines 10 b_c
    [ln "#include <x.h>"; ln "  // (C) 2020 Foo"; ln "  // line one";
     ln "  //"; ln "  // line two"; ln "int x;"] EndOfFile
  = Returned (Some (mkLicenseInfo b_c None (Some "(C) 2020 Foo")
                      (Some ("line one" ++ LF ++ LF ++ " line two")%string)
                      None))
  /\ extract_lines 10 b_c
       [ln "// Copyright 2020 Foo"; ln "// ----------"; ln "// text";
        ln "// =========="; ln "// more"] EndOfFile
     = Returned (Some (mkLicenseInfo b_c None (Some "Copyright 2020 Foo")
                         (Some ("----------" ++ LF ++ " text")%string) None))
  /\ extract_lines 10 b_c [ln "int x;"; ln "/* no marker */"] EndOfFile
     = Returned None
  /\ (forall fuel,
         extract_lines fuel b_c [ln "Copyright 2020 Foo"; ln "Some text"]
                       EndOfFile
         = OutOfFuel).
Proof.
  repeat split; try reflexivity.
  intro fuel.
  change (extract_lines fuel b_c [ln "Copyright 2020 Foo"; ln "Some text"]
                        EndOfFile)
    with (n <- notice_loop fuel "" "" "" [ln "Some text"] EndOfFile "" ;;
          Returned (Some (mkLicenseInfo b_c None (Some "Copyright 2020 Foo")
                            (or_None (strip n)) None))).
  assert (E : forall n notice,
             re_separator_match "" = false ->
             notice_loop n "" "" "" [] EndOfFile notice = OutOfFuel).
  { induction n as [| n IH]; intros notice Hs; [reflexivity |].
    cbn [notice_loop readline bind startswith negb String.eqb andb].
    change (drop (String.length "") "") with "". rewrite Hs, andb_false_r.
    now apply IH. }
  destruct fuel as [| fuel]; [reflexivity |].
  change (notice_loop (S fuel) "" "" "" [ln "Some text"] EndOfFile "")
    with (notice_loop fuel "" "" "" [] EndOfFile ("" ++ ln "Some text")).
  now rewrite E.
Qed.

(** The name of a group: the file name for a single record, the directory
    of the license file for records that share one, the common directory
    for records that share a notice, and the sorted file names when there is
    no common directory. *)
Lemma group_name_examples :
  group_name (KStr "Notice C") info_c [info_c] = Returned "c.c"
  /\ group_name (KPath p_LICENSE)
       (mkLicenseInfo p_q_m None None None (Some p_LICENSE))
       [mkLicenseInfo p_q_m None None None (Some p_LICENSE);
        mkLicenseInfo x_a None None None (Some p_LICENSE)]
     = Returned "p"
  /\ group_name (KStr "Shared notice") shared_a [shared_a; shared_b]
     = Returned "x"
  /\ group_name (KStr "N")
       (mkLicenseInfo (Path_of_string "u/b.c") None None (Some "N") None)
       [mkLicenseInfo (Path_of_string "u/b.c") None None (Some "N") None;
        mkLicenseInfo (Path_of_string "v/a.c") None None (Some "N") None]
     = Returned "a.c, b.c".
Proof. repeat split; reflexivity. Qed.

(** Two records keyed by the same source path make a group of two without a
    license file: the name cannot be computed and the run stops, before the
    identifier of the group is looked at. *)
Lemma duplicate_path_group_raises :
  let info := mkLicenseInfo b_c (Some SPDX_IDENTIFIER_LLVM_EXCEPTION)
                None None None in
  build_groups [Some info; Some info] = [(KPath b_c, [info; info])]
  /\ group_dependencies bare_world [Some info; Some info]
     = Raised AttributeError.
Proof. split; reflexivity. Qed.

(** ** License-file candidates *)

Lemma licence_suffix_always (s : string) : licence_suffix s = true.
Proof. unfold licence_suffix. apply orb_true_r. Qed.

(** C5 (the code departs from the claim): the pattern is anchored at the
    start of the name only and its suffix group has an empty alternative, so
    a directory entry is a candidate exactly when its name begins, without
    regard to case, with one of the five words; [license_template.h] is a
    candidate, as are [notice.c] and [Licences], and the exact names too. *)
Theorem licence_candidate_is_prefix_match :
  (forall name,
      re_licence_filename_match name
      = existsb (startswith_ci name) licence_words)
  /\ re_licence_filename_match "license_template.h" = true
  /\ re_licence_filename_match "notice.c" = true
  /\ re_licence_filename_match "Licences" = true
  /\ re_licence_filename_match "LICENSE" = true
  /\ re_licence_filename_match "COPYING.txt" = true
  /\ re_licence_filename_match "README" = false.
Proof.
  split; [| repeat split; reflexivity].
  intro name. unfold re_licence_filename_match.
  induction licence_words as [| w ws IH]; simpl; [reflexivity |].
  rewrite licence_suffix_always, andb_true_r, IH. reflexivity.
Qed.

(** ** License-file discovery *)

Lemma find_license_loop_outcomes (fuel : nat) (env : Env) (sp directory : Path) :
  find_license_loop fuel env sp directory = OutOfFuel
  \/ (exists e, find_license_loop fuel env sp directory = Raised e)
  \/ (exists lp, find_license_loop fuel env sp directory
                 = Returned (Some (mkLicenseInfo sp None None None (Some lp)))).
Proof.
  revert directory. induction fuel as [| fuel IH]; intro directory; simpl.
  - now left.
  - destruct (iterdir env directory) as [names |].
    + destruct (1 <? _)%nat.
      * right; left; eauto.
      * destruct (map _ _) as [| lp ?].
        -- apply IH.
        -- right; right; eauto.
    + right; left; eauto.
Qed.

(** Two candidates in one directory end the walk with a [TypeError]: the
    diagnostic of line 171 joins [Path] objects. *)
Lemma several_candidates_raise (fuel : nat) (env : Env) (sp directory : Path)
    (names : list string) :
  iterdir env directory = Some names ->
  1 < List.length (filter re_licence_filename_match names) ->
  find_license_loop (S fuel) env sp directory = Raised TypeError.
Proof.
  intros Hd Hl. cbn [find_license_loop Path_truthy]. rewrite Hd.
  rewrite length_map. apply Nat.ltb_lt in Hl. now rewrite Hl.
Qed.

(** With a LICENSE file two levels up, the walk ends at its second turn. *)
Lemma license_file_found_in_ancestor :
  find_license_file 1 licensed_world p_q_m = OutOfFuel
  /\ find_license_file 2 licensed_world p_q_m
     = Returned (Some (mkLicenseInfo p_q_m None None None (Some p_LICENSE))).
Proof. split; reflexivity. Qed.

(** When neither [directory] nor any of its ancestors lists a candidate, the
    walk uses up any amount of fuel. *)
Lemma walk_without_candidate (env : Env) (sp : Path) (fuel : nat)
    (directory : Path) :
  (forall n, exists names,
      iterdir env (Nat.iter n Path_parent directory) = Some names
      /\ filter re_licence_filename_match names = []) ->
  find_license_loop fuel env sp directory = OutOfFuel.
Proof.
  revert directory. induction fuel as [| fuel IH]; intros directory H;
    [reflexivity |].
  cbn [find_license_loop Path_truthy].
  destruct (H 0) as [names [Hd Hf]]. cbn [Nat.iter nat_rect] in Hd.
  rewrite Hd, Hf. cbn [map List.length Nat.ltb Nat.leb].
  apply IH. intro n. specialize (H (S n)).
  now rewrite Nat.iter_succ_r in H.
Qed.

Lemma bare_world_ancestors (n : nat) :
  exists names,
    iterdir bare_world (Nat.iter n Path_parent (Path_parent b_c)) = Some names
    /\ filter re_licence_filename_match names = [].
Proof.
  destruct n as [| n]; [exists ["b.c"]; split; reflexivity |].
  exists ["a"]. split; [| reflexivity].
  replace (Nat.iter (S n) Path_parent (Path_parent b_c))
    with (Path_of_string "/"); [reflexivity |].
  induction n as [| n IH]; [reflexivity |].
  rewrite Nat.iter_succ, <- IH. reflexivity.
Qed.

(** C4 (the code departs from the claim): a [Path] object is always true, and
    the parent of the root is the root, so the walk up the ancestors has no
    way to end without a candidate.  Whatever the world, the path and the
    fuel, [find_license_file] never returns [None]: it runs on, raises or
    returns a license file.  For every source path whose containing
    directory and all ancestor directories list no candidate, it runs on for
    every amount of fuel, and [find_license_info] with it; [/a/b.c] in a
    world without license files is such a path. *)
Theorem find_license_file_never_returns_None :
  (forall fuel env sp,
      find_license_file fuel env sp = OutOfFuel
      \/ (exists e, find_license_file fuel env sp = Raised e)
      \/ (exists lp, find_license_file fuel env sp
                     = Returned (Some (mkLicenseInfo sp None None None (Some lp)))))
  /\ (forall env sp,
         (forall n, exists names,
             iterdir env (Nat.iter n Path_parent (Path_parent sp)) = Some names
             /\ filter re_licence_filename_match names = []) ->
         forall fuel, find_license_file fuel env sp = OutOfFuel)
  /\ (forall fuel, find_license_file fuel bare_world b_c = OutOfFuel)
  /\ (forall fuel, find_license_info fuel bare_world b_c = OutOfFuel).
Proof.
  split; [| split; [| split]].
  - intros. apply find_license_loop_outcomes.
  - intros env sp H fuel. now apply walk_without_candidate.
  - intro fuel. apply walk_without_candidate, bare_world_ancestors.
  - intro fuel. unfold find_license_info.
    change (is_file bare_world b_c) with (Some true). cbn [negb].
    change (extract_license_from_source fuel bare_world b_c)
      with (@Returned (option LicenseInfo) None).
    cbn [bind]. apply walk_without_candidate, bare_world_ancestors.
Qed.

(** ** Copyright marker lines *)

Lemma match_comment_in (alts : list string) (s c cp : string) :
  match_comment alts s = Some (c, cp) -> In c alts.
Proof.
  induction alts as [| a alts IH]; simpl; [discriminate |].
  destruct (startswith s a).
  - destruct (match_ws_marks _ _).
    + intros [= <- _]. now left.
    + intro H. right. now apply IH.
  - intro H. right. now apply IH.
Qed.

Lemma match_leader_in (k : nat) (line leader c cp : string) :
  match_leader k line = Some (leader, c, cp) -> In c re_comment.
Proof.
  induction k as [| k IH]; cbn [match_leader].
  - destruct (match_comment re_comment (drop 0 line)) as [[c' cp'] |] eqn:E;
      [| discriminate].
    intros [= _ <- _]. eapply match_comment_in, E.
  - destruct (match_comment re_comment (drop (S k) line)) as [[c' cp'] |] eqn:E.
    + intros [= _ <- _]. eapply match_comment_in, E.
    + apply IH.
Qed.

(** The comment group is one of the four literals. *)
Lemma match_copyright_line_comment (line leader c cp : string) :
  match_copyright_line line = Some (leader, c, cp) -> In c re_comment.
Proof. apply match_leader_in. Qed.

(** C8 (the code departs from the claim): the second literal of
    [re_copyright] is the two characters U+00C2 U+00A9, not the copyright
    sign U+00A9.  A line whose comment text begins with the copyright sign
    is not a marker line under any of the four comment styles, whatever
    follows the sign; the same lines with the word Copyright or with (c) are
    marker lines, and so is a line that carries the two-character literal. *)
Theorem copyright_sign_is_not_a_marker :
  (forall rest,
      match_copyright_line ("// " ++ COPYRIGHT_SIGN ++ rest) = None
      /\ match_copyright_line ("/* " ++ COPYRIGHT_SIGN ++ rest) = None
      /\ match_copyright_line (" * " ++ COPYRIGHT_SIGN ++ rest) = None
      /\ match_copyright_line (COPYRIGHT_SIGN ++ rest) = None)
  /\ match_copyright_line (ln "// Copyright 2020 Foo")
     = Some ("", "//", "Copyright 2020 Foo")
  /\ match_copyright_line (ln "/* Copyright 2020 Foo")
     = Some ("", "/*", "Copyright 2020 Foo")
  /\ match_copyright_line (ln " * Copyright 2020 Foo")
     = Some ("", " *", "Copyright 2020 Foo")
  /\ match_copyright_line (ln "Copyright 2020 Foo")
     = Some ("", "", "Copyright 2020 Foo")
  /\ match_copyright_line (ln "// (c) 2020 Foo")
     = Some ("", "//", "(c) 2020 Foo")
  /\ match_copyright_line (ln "/* (c) 2020 Foo")
     = Some ("", "/*", "(c) 2020 Foo")
  /\ match_copyright_line (ln " * (c) 2020 Foo")
     = Some ("", " *", "(c) 2020 Foo")
  /\ match_copyright_line (ln "(c) 2020 Foo")
     = Some ("", "", "(c) 2020 Foo")
  /\ match_copyright_line
       (ln ("// " ++ String "194" COPYRIGHT_SIGN ++ " 2020 Foo"))
     = Some ("", "//", String "194" COPYRIGHT_SIGN ++ " 2020 Foo")%string.
Proof.
  split; [intro rest; repeat split; reflexivity |].
  repeat split; reflexivity.
Qed.

(** ** Notice extraction *)

(** After the opener has been replaced, the comment text is never a lone
    star: the test for the closer in the inner loop is never reached. *)
Lemma closer_test_is_dead (line leader c cp : string) :
  match_copyright_line line = Some (leader, c, cp) ->
  String.eqb (if String.eqb c "/*" then " *" else c) "*" = false.
Proof.
  intro H. apply match_copyright_line_comment in H.
  simpl in H. destruct H as [<- | [<- | [<- | [<- | []]]]]; reflexivity.
Qed.

(** C2 (the code departs from the claim): the loop compares the comment text
    with a lone star, which it never is, so the closer does not stop the
    extraction.  For a block comment of three lines followed by code, the
    closer line passes the prefix test and its content, a slash, ends up in
    the captured notice; in general the loop for a block comment runs as the
    loop for a line comment with the same prefix, the closer playing no
    part. *)
Theorem block_comment_closer_is_captured :
  extract_lines 10 b_c
    [ln "/* Copyright 2020 Foo"; ln " * Permission granted."; ln " */";
     ln "int x;"] EndOfFile
  = Returned (Some (mkLicenseInfo b_c None (Some "Copyright 2020 Foo")
                      (Some ("Permission granted." ++ LF ++ "/")%string) None))
  /\ (forall fuel leader prefix f tail notice,
         notice_loop fuel leader " *" prefix f tail notice
         = notice_loop fuel leader "//" prefix f tail notice).
Proof.
  split; [reflexivity |].
  induction fuel as [| fuel IH]; intros; simpl; [reflexivity |].
  destruct (readline f tail) as [[line f'] | e |]; cbn [bind];
    [| reflexivity | reflexivity].
  destruct (startswith line prefix); simpl; [| reflexivity].
  destruct (_ && _); [reflexivity | apply IH].
Qed.

(** A line that is no marker line and carries no LLVM-exception identifier
    leaves no trace: the outer loop starts afresh on the next line. *)
Lemma extract_lines_skip (fuel : nat) (sp : Path) (line : string)
    (f : list string) (tail : ending) :
  line <> "" ->
  match_copyright_line line = None ->
  (forall l, search_spdx line = Some l ->
             strip l <> SPDX_IDENTIFIER_LLVM_EXCEPTION) ->
  extract_lines fuel sp (line :: f) tail = extract_lines fuel sp f tail.
Proof.
  intros Hne Hm Hs. simpl.
  destruct (String.eqb_spec line ""); [contradiction |].
  rewrite Hm.
  destruct (search_spdx line) as [l |]; [| reflexivity].
  destruct (String.eqb_spec (strip l) SPDX_IDENTIFIER_LLVM_EXCEPTION) as [E |];
    [| reflexivity].
  exfalso. now apply (Hs l).
Qed.

(** C6 (the code departs from the claim): [license] is reset at every turn
    of the outer loop, so an identifier read on one line is forgotten when
    the copyright line comes later.  For a file whose first line carries the
    identifier MIT and whose second line is the copyright line, the returned
    record has no license; the identifier is kept only when it stands on the
    copyright line itself. *)
Theorem spdx_before_copyright_is_lost :
  extract_lines 10 b_c
    [ln "// SPDX-License-Identifier: MIT"; ln "// Copyright 2020 Foo";
     ln "// All rights reserved."; ln "int x;"] EndOfFile
  = Returned (Some (mkLicenseInfo b_c None (Some "Copyright 2020 Foo")
                      (Some "All rights reserved.") None))
  /\ extract_lines 10 b_c
       [ln "// Copyright 2020 Foo SPDX-License-Identifier: MIT";
        ln "// All rights reserved."; ln "int x;"] EndOfFile
     = Returned (Some (mkLicenseInfo b_c (Some "MIT")
                         (Some "Copyright 2020 Foo SPDX-License-Identifier: MIT")
                         (Some "All rights reserved.") None)).
Proof. split; reflexivity. Qed.

(** ** Texts *)

Lemma append_assoc (a b c : string) : ((a ++ b) ++ c = a ++ (b ++ c))%string.
Proof. induction a as [| x a IH]; simpl; [reflexivity | now rewrite IH]. Qed.

Lemma append_nil_r (a : string) : (a ++ "")%string = a.
Proof. induction a as [| x a IH]; simpl; [reflexivity | now rewrite IH]. Qed.

Lemma append_nil_inv (a b : string) : (a ++ b)%string = "" -> a = "" /\ b = "".
Proof. destruct a; simpl; [auto | discriminate]. Qed.

Lemma startswith_split (s p : string) :
  startswith s p = true -> s = (p ++ drop (String.length p) s)%string.
Proof.
  revert s. induction p as [| b p IH]; intros [| a s]; simpl;
    try reflexivity; try discriminate.
  intro H. apply andb_true_iff in H. destruct H as [E H].
  apply Ascii.eqb_eq in E. subst. f_equal. now apply IH.
Qed.

Lemma startswith_append (p r : string) : startswith (p ++ r) p = true.
Proof.
  induction p as [| a p IH]; simpl.
  - now destruct r.
  - now rewrite Ascii.eqb_refl.
Qed.

(** ** License inference *)

Lemma nonspace_lstrip (s : string) : nonspace (lstrip s) = nonspace s.
Proof.
  induction s as [| a s IH]; simpl; [reflexivity |].
  destruct (isspace a) eqn:E; simpl; [exact IH | now rewrite E].
Qed.

Lemma nonspace_rstrip (s : string) : nonspace (rstrip s) = nonspace s.
Proof.
  induction s as [| a s IH]; simpl; [reflexivity |].
  destruct (rstrip s) as [| b r] eqn:R.
  - simpl in IH. destruct (isspace a) eqn:E; simpl; [exact IH |].
    now rewrite E, <- IH.
  - simpl. destruct (isspace a); rewrite <- IH; reflexivity.
Qed.

Lemma nonspace_collapse (b : bool) (s : string) :
  nonspace (collapse_ws_aux b s) = nonspace s.
Proof.
  revert b. induction s as [| a s IH]; intro b; simpl; [reflexivity |].
  destruct (isspace a) eqn:E.
  - destruct b; simpl; rewrite ?IH; reflexivity.
  - simpl. now rewrite E, IH.
Qed.

(** The comparison text keeps every character that is not white space. *)
Lemma nonspace_normalize (s : string) : nonspace (normalize s) = nonspace s.
Proof.
  unfold normalize, collapse_ws, strip.
  now rewrite nonspace_collapse, nonspace_rstrip, nonspace_lstrip.
Qed.

Lemma rstrip_idem (s : string) : rstrip (rstrip s) = rstrip s.
Proof.
  induction s as [| a s IH]; simpl; [reflexivity |].
  destruct (rstrip s) as [| b r] eqn:R.
  - destruct (isspace a) eqn:E; simpl; [reflexivity | now rewrite E].
  - simpl in *. now rewrite IH.
Qed.

Lemma rstrip_fixed_tail (a : ascii) (t : string) :
  rstrip (String a t) = String a t ->
  rstrip t = t /\ (isspace a = true -> t <> "").
Proof.
  simpl. destruct (rstrip t) as [| b r] eqn:R.
  - destruct (isspace a); [discriminate |].
    intros [= <-]. split; [reflexivity | discriminate].
  - intros [= <-]. split; [reflexivity | discriminate].
Qed.

Lemma single_spaced_collapse (t : string) :
  rstrip t = t ->
  (t <> "" -> single_spaced_aux false true (collapse_ws_aux true t) = true)
  /\ single_spaced_aux false false (collapse_ws_aux false t) = true.
Proof.
  induction t as [| a t IH]; intro H.
  - split; [congruence | reflexivity].
  - apply rstrip_fixed_tail in H. destruct H as [Ht Hne].
    specialize (IH Ht). destruct IH as [IH1 IH2].
    simpl. destruct (isspace a) eqn:E; simpl.
    + specialize (IH1 (Hne eq_refl)). split; [intros _; exact IH1 |].
      exact IH1.
    + rewrite E. split; [intros _; exact IH2 | exact IH2].
Qed.

Lemma lstrip_head (s : string) :
  match lstrip s with
  | String a _ => isspace a = false
  | EmptyString => True
  end.
Proof.
  induction s as [| a s IH]; simpl; [exact I |].
  destruct (isspace a) eqn:E; [exact IH | exact E].
Qed.

Lemma rstrip_head (a : ascii) (s : string) :
  isspace a = false -> exists r, rstrip (String a s) = String a r.
Proof.
  intro E. simpl. destruct (rstrip s); [rewrite E |]; eauto.
Qed.

(** In the comparison text every white-space character is a single space
    between two other characters. *)
Lemma single_spaced_normalize (s : string) : single_spaced (normalize s) = true.
Proof.
  unfold single_spaced, normalize, collapse_ws, strip.
  pose proof (lstrip_head s) as Hh.
  pose proof (rstrip_idem (lstrip s)) as Hi.
  destruct (lstrip s) as [| a u]; [reflexivity |].
  destruct (rstrip_head a u Hh) as [r Hr]. rewrite Hr in *.
  apply rstrip_fixed_tail in Hi. destruct Hi as [Hi _].
  simpl. rewrite Hh. simpl. rewrite Hh.
  now apply single_spaced_collapse.
Qed.

Lemma contains_occurs (sub s : string) :
  contains sub s = true <-> occurs_in sub s.
Proof.
  split.
  - induction s as [| a s IH]; cbn [contains]; intro H;
      apply orb_true_iff in H; destruct H as [H | H]; try discriminate.
    + apply startswith_split in H. exists "", (drop (String.length sub) "").
      exact H.
    + apply startswith_split in H.
      exists "", (drop (String.length sub) (String a s)). exact H.
    + destruct (IH H) as [pre [post ->]]. now exists (String a pre), post.
  - intros [pre [post ->]]. induction pre as [| a pre IH]; cbn [append].
    + destruct (sub ++ post)%string eqn:E; cbn [contains];
        rewrite <- E, startswith_append; reflexivity.
    + cbn [contains]. rewrite IH. apply orb_true_r.
Qed.

Lemma contains_absent (sub s : string) :
  contains sub s = false <-> ~ occurs_in sub s.
Proof.
  rewrite <- contains_occurs. destruct (contains sub s); split; congruence.
Qed.

Lemma lstrip_all_space (g s : string) :
  all_space g = true -> lstrip (g ++ s) = lstrip s.
Proof.
  induction g as [| a g IH]; simpl; [reflexivity |].
  intro H. apply andb_true_iff in H. destruct H as [E H].
  rewrite E. now apply IH.
Qed.

Lemma lstrip_word (w s : string) : word w -> lstrip (w ++ s) = (w ++ s)%string.
Proof.
  intros [Hne Hw]. destruct w as [| a w]; [congruence |].
  simpl in *. apply andb_true_iff in Hw. destruct Hw as [E _].
  apply negb_true_iff in E. now rewrite E.
Qed.

Lemma rstrip_all_space (s t : string) :
  all_space t = true -> rstrip (s ++ t) = rstrip s.
Proof.
  intro H. induction s as [| a s IH].
  - cbn [append]. induction t as [| b t IHt]; [reflexivity |].
    simpl in *. apply andb_true_iff in H. destruct H as [E H].
    now rewrite (IHt H), E.
  - cbn [append rstrip]. now rewrite IH.
Qed.

Lemma rstrip_no_space (w : string) : no_space w = true -> rstrip w = w.
Proof.
  induction w as [| a w IH]; simpl; [reflexivity |].
  intro H. apply andb_true_iff in H. destruct H as [E H].
  apply negb_true_iff in E. rewrite (IH H), E. now destruct w.
Qed.

Lemma rstrip_app_keep (x y : string) :
  y <> "" -> rstrip y = y -> rstrip (x ++ y) = (x ++ y)%string.
Proof.
  intros Hne Hy. induction x as [| a x IH]; [exact Hy |].
  cbn [append rstrip]. rewrite IH.
  destruct (x ++ y)%string eqn:E; [| reflexivity].
  apply append_nil_inv in E. now destruct E.
Qed.

Lemma spaced_head (w : string) (rest : list (string * string)) :
  exists tail, spaced w rest = (w ++ tail)%string.
Proof.
  destruct rest as [| [g w'] rest]; cbn [spaced]; [| eauto].
  exists "". now rewrite append_nil_r.
Qed.

Lemma spaced_rstrip (w : string) (rest : list (string * string)) :
  word w -> Forall (fun gw => gap (fst gw) /\ word (snd gw)) rest ->
  spaced w rest <> "" /\ rstrip (spaced w rest) = spaced w rest.
Proof.
  intros Hw Hr. revert w Hw.
  induction Hr as [| [g w'] rest [_ Hw'] _ IH]; intros w Hw; cbn [spaced].
  - destruct Hw as [Hne Hs]. split; [exact Hne | now apply rstrip_no_space].
  - cbn [snd] in Hw'. destruct (IH w' Hw') as [H1 H2]. split.
    + intro E. apply append_nil_inv in E. destruct Hw as [Hne _].
      now destruct E.
    + rewrite <- append_assoc. now apply rstrip_app_keep.
Qed.

Lemma collapse_no_space (w s : string) :
  no_space w = true ->
  collapse_ws_aux false (w ++ s) = (w ++ collapse_ws_aux false s)%string.
Proof.
  induction w as [| a w IH]; simpl; [reflexivity |].
  intro H. apply andb_true_iff in H. destruct H as [E H].
  apply negb_true_iff in E. rewrite E. f_equal. now apply IH.
Qed.

Lemma collapse_word (b : bool) (w s : string) :
  word w ->
  collapse_ws_aux b (w ++ s) = (w ++ collapse_ws_aux false s)%string.
Proof.
  intros [Hne Hw]. destruct w as [| a w]; [congruence |].
  simpl in *. apply andb_true_iff in Hw. destruct Hw as [E Hw].
  apply negb_true_iff in E. rewrite E. f_equal. now apply collapse_no_space.
Qed.

Lemma collapse_all_space (g s : string) :
  all_space g = true -> collapse_ws_aux true (g ++ s) = collapse_ws_aux true s.
Proof.
  induction g as [| a g IH]; simpl; [reflexivity |].
  intro H. apply andb_true_iff in H. destruct H as [E H].
  rewrite E. now apply IH.
Qed.

Lemma collapse_gap (g s : string) :
  gap g ->
  collapse_ws_aux false (g ++ s) = String " " (collapse_ws_aux true s).
Proof.
  intros [Hne Hg]. destruct g as [| a g]; [congruence |].
  simpl in *. apply andb_true_iff in Hg. destruct Hg as [E Hg].
  rewrite E. f_equal. now apply collapse_all_space.
Qed.

Lemma collapse_spaced (b : bool) (w : string) (rest : list (string * string)) :
  word w -> Forall (fun gw => gap (fst gw) /\ word (snd gw)) rest ->
  collapse_ws_aux b (spaced w rest) = join " " (w :: map snd rest).
Proof.
  intros Hw Hr. revert b w Hw.
  induction Hr as [| [g w'] rest [Hg Hw'] _ IH]; intros b w Hw.
  - cbn [spaced map join]. rewrite <- (append_nil_r w) at 1.
    rewrite collapse_word by assumption. apply append_nil_r.
  - cbn [spaced fst snd] in *. rewrite collapse_word by assumption.
    rewrite collapse_gap by assumption. rewrite IH by assumption.
    reflexivity.
Qed.

(** The comparison text of words with white space between and around them:
    the words with one space between them. *)
Lemma normalize_spaced (lead trail w : string) (rest : list (string * string)) :
  all_space lead = true -> all_space trail = true ->
  word w -> Forall (fun gw => gap (fst gw) /\ word (snd gw)) rest ->
  normalize (lead ++ spaced w rest ++ trail) = join " " (w :: map snd rest).
Proof.
  intros Hl Ht Hw Hr. unfold normalize, strip, collapse_ws.
  rewrite lstrip_all_space by assumption.
  destruct (spaced_head w rest) as [tail Et].
  rewrite Et, append_assoc, lstrip_word by assumption.
  rewrite <- append_assoc, <- Et.
  rewrite rstrip_all_space by assumption.
  rewrite (proj2 (spaced_rstrip w rest Hw Hr)).
  now apply collapse_spaced.
Qed.

Lemma normalize_all_space (s : string) : all_space s = true -> normalize s = "".
Proof.
  intro H. unfold normalize, strip.
  rewrite <- (append_nil_r s), lstrip_all_space by assumption. reflexivity.
Qed.

(** C7: for every notice text, [infer_license_identifier] evaluates the
    ordered table of (phrase, identifier) pairs -- LLVM exception, then dual
    MIT/NCSA, then MIT, then SunPro -- on the comparison text and returns the
    identifier of the first phrase found, [None] when none is found.  The
    comparison text is the notice with its white-space runs collapsed: it
    keeps all other characters in order and its only white space is single
    spaces between them.  It is used for the comparison only: the emitted
    notice ends with the resolved notice text as it was stored.  In full: a
    notice made of words with runs of white space between and around them
    is compared as the words with one space between them; and a phrase
    that stands somewhere in the comparison text yields its identifier
    unless a phrase earlier in the order stands there too. *)
Theorem infer_license_priority_order :
  (forall notice,
      infer_license_identifier notice
      = first_match license_patterns (normalize notice))
  /\ (forall notice,
         nonspace (normalize notice) = nonspace notice
         /\ single_spaced (normalize notice) = true)
  /\ (forall env key item rest d body,
         resolve_notice env item = Returned body ->
         emit_group env key (item :: rest) = Returned (Some d) ->
         dep_license d = resolve_license item body
         /\ exists pre, dep_notice d = (pre ++ body)%string)
  /\ (forall lead trail w rest,
         all_space lead = true -> all_space trail = true ->
         word w -> Forall (fun gw => gap (fst gw) /\ word (snd gw)) rest ->
         normalize (lead ++ spaced w rest ++ trail)
         = join " " (w :: map snd rest))
  /\ (forall notice,
         all_space notice = true -> infer_license_identifier notice = None)
  /\ (forall notice,
         let found phrase := occurs_in phrase (normalize notice) in
         (found LICENSE_TEXT_LLVM_EXCEPTION ->
          infer_license_identifier notice
          = Some SPDX_IDENTIFIER_LLVM_EXCEPTION)
         /\ (~ found LICENSE_TEXT_LLVM_EXCEPTION ->
             found TEXT_MIT_NCSA ->
             infer_license_identifier notice = Some "(MIT OR NCSA)")
         /\ (~ found LICENSE_TEXT_LLVM_EXCEPTION ->
             ~ found TEXT_MIT_NCSA ->
             found TEXT_MIT ->
             infer_license_identifier notice = Some "MIT")
         /\ (~ found LICENSE_TEXT_LLVM_EXCEPTION ->
             ~ found TEXT_MIT_NCSA ->
             ~ found TEXT_MIT ->
             found TEXT_SUNPRO ->
             infer_license_identifier notice = Some "SunPro")
         /\ (~ found LICENSE_TEXT_LLVM_EXCEPTION ->
             ~ found TEXT_MIT_NCSA ->
             ~ found TEXT_MIT ->
             ~ found TEXT_SUNPRO ->
             infer_license_identifier notice = None)).
Proof.
  split; [| split; [| split; [| split; [| split]]]].
  - intro notice. unfold infer_license_identifier, license_patterns.
    cbn [first_match]. reflexivity.
  - intro notice. split;
      [apply nonspace_normalize | apply single_spaced_normalize].
  - intros env key item rest d body Hn. unfold emit_group. rewrite Hn.
    cbn [bind].
    destruct (group_name key item (item :: rest)) as [name | e |];
      cbn [bind]; try discriminate.
    destruct (match resolve_license item body with
              | Some l => String.eqb l SPDX_IDENTIFIER_LLVM_EXCEPTION
              | None => false
              end); [discriminate |].
    intros [= <-]. cbn [dep_license dep_notice]. split; [reflexivity |].
    destruct (group_copyrights env (item :: rest)) as [| c cs].
    + now exists "".
    + exists (join CR (c :: cs) ++ LF ++ LF)%string.
      now rewrite !append_assoc.
  - intros. now apply normalize_spaced.
  - intros notice H. unfold infer_license_identifier.
    now rewrite normalize_all_space.
  - intro notice. cbn zeta. unfold infer_license_identifier.
    repeat split; intros;
      repeat match goal with
             | H : occurs_in _ _ |- _ => apply contains_occurs in H; rewrite H
             | H : ~ occurs_in _ _ |- _ =>
                 apply contains_absent in H; rewrite H
             end; reflexivity.
Qed.

Lemma infer_license_priority_order_witness :
  infer_license_identifier (ln "Released under the MIT" ++ "   license.")
  = first_match license_patterns
      (normalize (ln "Released under the MIT" ++ "   license."))
  /\ dep_license dep_x = resolve_license llvm_a LLVM_NOTICE
  /\ (exists pre, dep_notice dep_x = (pre ++ LLVM_NOTICE)%string)
  /\ normalize (ln "  Released under the MIT" ++ "   license. ")
     = "Released under the MIT license."
  /\ infer_license_identifier (ln "Released under the MIT" ++ "   license.")
     = Some "MIT".
Proof.
  split; [| split; [| split; [| split]]].
  - apply (proj1 infer_license_priority_order).
  - apply (proj1 (proj2 (proj2 infer_license_priority_order)) llvm_world
             (KStr LLVM_NOTICE) llvm_a [llvm_b] dep_x LLVM_NOTICE);
      vm_compute; reflexivity.
  - apply (proj1 (proj2 (proj2 infer_license_priority_order)) llvm_world
             (KStr LLVM_NOTICE) llvm_a [llvm_b] dep_x LLVM_NOTICE);
      vm_compute; reflexivity.
  - apply (proj1 (proj2 (proj2 (proj2 infer_license_priority_order)))
             "  " " " "Released"
             [(" ", "under"); (" ", "the"); (" ", "MIT");
              (LF ++ "   ", "license.")%string]);
      try reflexivity.
    + split; [discriminate | reflexivity].
    + repeat constructor; discriminate.
  - apply (proj2 (proj2 (proj2 (proj2 (proj2 infer_license_priority_order))))
             (ln "Released under the MIT" ++ "   license.")%string).
    + apply contains_absent. vm_compute. reflexivity.
    + apply contains_absent. vm_compute. reflexivity.
    + apply contains_occurs. vm_compute. reflexivity.
Defined.

(** The order of the table decides: the dual phrase holds the phrase of the
    MIT entry, and a text may hold several phrases; a phrase is found across
    a line break. *)
Lemma infer_license_examples :
  infer_license_identifier
    (text ["Emscripten is available under 2 licenses, the MIT license and the";
           "University of Illinois/NCSA Open Source License."])
  = Some "(MIT OR NCSA)"
  /\ infer_license_identifier
       (text ["Under the Apache License v2.0 with LLVM Exceptions.";
              "Parts were under the MIT license."])
     = Some SPDX_IDENTIFIER_LLVM_EXCEPTION
  /\ infer_license_identifier (ln "Released under the MIT" ++ "   license.")
     = Some "MIT"
  /\ infer_license_identifier (text ["Developed at SunPro."; TEXT_SUNPRO])
     = Some "SunPro"
  /\ infer_license_identifier "All rights reserved." = None.
Proof. repeat split; vm_compute; reflexivity. Qed.

(** ** Keys *)

Lemma list_eqb_eq (l1 l2 : list string) :
  list_eqb String.eqb l1 l2 = true <-> l1 = l2.
Proof.
  revert l2. induction l1 as [| a l1 IH]; intros [| b l2]; simpl;
    try (split; [discriminate | discriminate]); [now split |].
  rewrite andb_true_iff, String.eqb_eq, IH.
  split; [intros [-> ->]; reflexivity | intros [= -> ->]; now split].
Qed.

Lemma Path_eqb_eq (p q : Path) : Path_eqb p q = true <-> p = q.
Proof.
  destruct p as [r1 ps1], q as [r2 ps2]. unfold Path_eqb; simpl.
  rewrite andb_true_iff, String.eqb_eq, list_eqb_eq.
  split; [intros [-> ->]; reflexivity | intros [= -> ->]; now split].
Qed.

Lemma Key_eqb_eq (a b : Key) : Key_eqb a b = true <-> a = b.
Proof.
  destruct a as [p | s], b as [q | t]; simpl;
    try (split; [discriminate | discriminate]).
  - rewrite Path_eqb_eq. split; [now intros -> | now intros [= ->]].
  - rewrite String.eqb_eq. split; [now intros -> | now intros [= ->]].
Qed.

Lemma Key_eqb_refl (a : Key) : Key_eqb a a = true.
Proof. now apply Key_eqb_eq. Qed.

Lemma Key_eqb_neq (a b : Key) : Key_eqb a b = false <-> a <> b.
Proof.
  rewrite <- Key_eqb_eq. destruct (Key_eqb a b); split; congruence.
Qed.

Lemma Key_eqb_sym (a b : Key) : Key_eqb a b = Key_eqb b a.
Proof.
  destruct (Key_eqb a b) eqn:E.
  - apply Key_eqb_eq in E. subst. now rewrite Key_eqb_refl.
  - symmetry. apply Key_eqb_neq. apply Key_eqb_neq in E. congruence.
Qed.

(** ** The dictionary of groups *)

Lemma dict_append_new (k : Key) (i : LicenseInfo)
    (d : list (Key * list LicenseInfo)) :
  ~ In k (map fst d) -> dict_append k i d = d ++ [(k, [i])].
Proof.
  induction d as [| [k' items] d IH]; simpl; intro H; [reflexivity |].
  destruct (Key_eqb k' k) eqn:E.
  - apply Key_eqb_eq in E. exfalso. apply H. now left.
  - rewrite IH; [reflexivity |]. intro. apply H. now right.
Qed.

Lemma dict_append_old (k : Key) (i : LicenseInfo)
    (d : list (Key * list LicenseInfo)) :
  NoDup (map fst d) -> In k (map fst d) ->
  dict_append k i d
  = map (fun g => (fst g, if Key_eqb (fst g) k then snd g ++ [i] else snd g)) d.
Proof.
  induction d as [| [k' items] d IH]; simpl; intros Hnd Hin; [contradiction |].
  inversion Hnd as [| ? ? Hk' Hnd']; subst.
  destruct (Key_eqb k' k) eqn:E.
  - apply Key_eqb_eq in E. subst k'. f_equal.
    rewrite <- (map_id d) at 1. apply map_ext_in.
    intros [k2 items2] H2. simpl.
    destruct (Key_eqb k2 k) eqn:E2; [| reflexivity].
    apply Key_eqb_eq in E2. subst. exfalso. apply Hk'.
    apply in_map_iff. now exists (k, items2).
  - f_equal. apply IH; [assumption |].
    destruct Hin as [-> |]; [| assumption].
    now rewrite Key_eqb_refl in E.
Qed.

Lemma dict_append_keys_nodup (k : Key) (i : LicenseInfo)
    (d : list (Key * list LicenseInfo)) :
  NoDup (map fst d) -> NoDup (map fst (dict_append k i d)).
Proof.
  intro Hnd. destruct (in_dec Key_eq_dec k (map fst d)) as [Hin | Hout].
  - rewrite dict_append_old by assumption.
    rewrite map_map. simpl. exact Hnd.
  - rewrite dict_append_new by assumption.
    rewrite map_app. simpl.
    apply NoDup_app; [assumption | repeat constructor; now intros [] | ].
    intros a Ha [<- | []]. contradiction.
Qed.

Lemma key_mem_In (k : Key) (keys : list Key) :
  key_mem k keys = true <-> In k keys.
Proof.
  unfold key_mem. rewrite existsb_exists. split.
  - intros [x [Hx E]]. apply Key_eqb_eq in E. now subst.
  - intro H. exists k. split; [assumption | apply Key_eqb_refl].
Qed.

Lemma key_mem_not_In (k : Key) (keys : list Key) :
  key_mem k keys = false <-> ~ In k keys.
Proof.
  rewrite <- key_mem_In. destruct (key_mem k keys); split; congruence.
Qed.

Lemma filter_twice {A : Type} (f g : A -> bool) (l : list A) :
  filter f (filter g l) = filter (fun x => g x && f x) l.
Proof.
  induction l as [| a l IH]; simpl; [reflexivity |].
  destruct (g a); simpl; [destruct (f a) |]; now rewrite IH.
Qed.

Lemma members_cons_Some (k : Key) (i : LicenseInfo)
    (infos : list (option LicenseInfo)) :
  members k (Some i :: infos)
  = if Key_eqb k (key_of i) then i :: members k infos else members k infos.
Proof. unfold members. simpl. now destruct (Key_eqb k (key_of i)). Qed.

Lemma group_keys_cons_Some (i : LicenseInfo)
    (infos : list (option LicenseInfo)) :
  group_keys (Some i :: infos)
  = key_of i
    :: filter (fun k' => negb (Key_eqb k' (key_of i))) (group_keys infos).
Proof. reflexivity. Qed.

(** The state of the dictionary after the loop of lines 222-225, started
    from any dictionary with distinct keys. *)
Lemma fold_groups (infos : list (option LicenseInfo))
    (d : list (Key * list LicenseInfo)) :
  NoDup (map fst d) ->
  fold_left (fun groups oi =>
               match oi with
               | Some info => dict_append (key_of info) info groups
               | None => groups
               end) infos d
  = map (fun g => (fst g, snd g ++ members (fst g) infos)) d
    ++ map (fun k => (k, members k infos))
           (filter (fun k => negb (key_mem k (map fst d))) (group_keys infos)).
Proof.
  revert d. induction infos as [| [i |] infos IH]; intros d Hnd.
  - simpl. rewrite app_nil_r. rewrite <- (map_id d) at 1.
    apply map_ext. intros [k items]. simpl. now rewrite app_nil_r.
  - cbn [fold_left].
    rewrite IH by now apply dict_append_keys_nodup.
    rewrite group_keys_cons_Some. set (k := key_of i).
    destruct (in_dec Key_eq_dec k (map fst d)) as [Hin | Hout].
    + rewrite dict_append_old by assumption.
      rewrite !map_map. cbn [fst snd]. f_equal.
      * apply map_ext. intros [k' items]. cbn [fst snd].
        rewrite members_cons_Some. fold k.
        destruct (Key_eqb k' k); [| reflexivity].
        now rewrite <- app_assoc.
      * cbn [filter]. apply key_mem_In in Hin. rewrite Hin. cbn [negb].
        rewrite filter_twice.
        assert (E : forall k', negb (key_mem k' (map fst d)) = true ->
                               Key_eqb k' k = false).
        { intros k' H. apply Key_eqb_neq. intros ->.
          rewrite Hin in H. discriminate. }
        rewrite (filter_ext
                   (fun x => negb (Key_eqb x k) && negb (key_mem x (map fst d)))
                   (fun k' => negb (key_mem k' (map fst d)))).
        -- apply map_ext_in. intros k' Hk'. apply filter_In in Hk'.
           rewrite members_cons_Some. fold k.
           now rewrite (E k' (proj2 Hk')).
        -- intros k'. destruct (negb (key_mem k' (map fst d))) eqn:F.
           ++ now rewrite (E k' F).
           ++ apply andb_false_r.
    + rewrite dict_append_new by assumption.
      rewrite !map_app. cbn [map fst snd]. rewrite <- app_assoc. f_equal.
      * apply map_ext_in. intros [k' items] Hg. cbn [fst snd].
        rewrite members_cons_Some. fold k.
        destruct (Key_eqb k' k) eqn:E; [| reflexivity].
        apply Key_eqb_eq in E. subst k'. exfalso. apply Hout.
        apply in_map_iff. now exists (k, items).
      * cbn [filter app]. apply key_mem_not_In in Hout. rewrite Hout.
        cbn [negb map]. rewrite members_cons_Some. fold k.
        rewrite Key_eqb_refl. f_equal.
        rewrite filter_twice.
        rewrite (filter_ext
                   (fun k' => negb (key_mem k' (map fst d ++ [k])))
                   (fun k' => negb (Key_eqb k' k)
                              && negb (key_mem k' (map fst d)))).
        -- apply map_ext_in. intros k' Hk'. apply filter_In in Hk'.
           destruct Hk' as [_ Hk']. apply andb_true_iff in Hk'.
           rewrite members_cons_Some. fold k.
           destruct (Key_eqb k' k); [now destruct Hk' | reflexivity].
        -- intro k'. unfold key_mem. rewrite existsb_app. cbn [existsb].
           rewrite orb_false_r, negb_orb. apply andb_comm.
  - cbn [fold_left]. rewrite IH by assumption. reflexivity.
Qed.

(** The dictionary built by [group_dependencies] holds the keys in the order
    of their first occurrence, each with the records of that key in input
    order. *)
Lemma build_groups_in_order (infos : list (option LicenseInfo)) :
  build_groups infos = groups_in_order infos.
Proof.
  unfold build_groups. rewrite fold_groups by constructor.
  cbn [map app]. unfold groups_in_order. f_equal.
  rewrite <- (filter_ext (fun _ => true)) by reflexivity.
  clear. induction (group_keys infos) as [| k l IH]; simpl; now rewrite ?IH.
Qed.

(** ** Order of the output *)

Lemma first_occurrences_In (k : Key) (keys : list Key) :
  In k (first_occurrences keys) -> In k keys.
Proof.
  induction keys as [| k' keys IH]; simpl; [trivial |].
  intros [-> | H]; [now left | right].
  apply filter_In in H. now apply IH.
Qed.

(** Every group holds at least one record, and all its records have the
    key of the group: [items[0]] is always there. *)
Lemma groups_nonempty (infos : list (option LicenseInfo)) (key : Key)
    (items : list LicenseInfo) :
  In (key, items) (build_groups infos) ->
  items <> [] /\ Forall (fun info => key_of info = key) items.
Proof.
  rewrite build_groups_in_order. unfold groups_in_order.
  intro H. apply in_map_iff in H. destruct H as [k [[= <- <-] Hk]].
  split.
  - apply first_occurrences_In, in_map_iff in Hk.
    destruct Hk as [info [Hkey Hin]].
    assert (Hm : In info (members k infos)).
    { apply filter_In. split; [exact Hin |]. apply Key_eqb_eq. now symmetry. }
    intro E. rewrite E in Hm. contradiction.
  - apply Forall_forall. intros info Hin. apply filter_In in Hin.
    symmetry. now apply Key_eqb_eq.
Qed.

Lemma emit_groups_flat (env : Env) (gs : list (Key * list LicenseInfo))
    (deps : list Dependency) :
  emit_groups env gs = Returned deps -> deps = flat_map (emitted env) gs.
Proof.
  revert deps. induction gs as [| [k items] gs IH]; intros deps; simpl.
  - now intros [= <-].
  - unfold emitted at 1. cbn [fst snd].
    destruct (emit_group env k items) as [d | e |]; cbn [bind];
      try discriminate.
    destruct (emit_groups env gs) as [ds | e |]; cbn [bind]; try discriminate.
    intros [= <-]. rewrite <- (IH ds eq_refl). now destruct d.
Qed.

(** C10: the dictionary of groups holds each key once, at the place of its
    first occurrence in the input list, with the records of that key in
    input order; the emitted array is what the surviving groups add, group
    after group in that order.  Reordering the input can reorder the output:
    two sources with unrelated notices come out in the order they were
    listed. *)
Theorem output_follows_first_occurrence :
  (forall infos, build_groups infos = groups_in_order infos)
  /\ (forall env infos deps,
         group_dependencies env infos = Returned deps ->
         deps = flat_map (emitted env) (groups_in_order infos))
  /\ collect_dependencies 10 two_notices e_LICENSE (text ["/x/a.c"; "/y/b.c"])
     = Returned [dep_a; dep_b]
  /\ collect_dependencies 10 two_notices e_LICENSE (text ["/y/b.c"; "/x/a.c"])
     = Returned [dep_b; dep_a].
Proof.
  split; [exact build_groups_in_order |].
  split; [| split; vm_compute; reflexivity].
  intros env infos deps H. unfold group_dependencies in H.
  rewrite build_groups_in_order in H. now apply emit_groups_flat.
Qed.

Lemma output_follows_first_occurrence_witness :
  [dep_x; dep_c]
  = flat_map (emitted llvm_world)
      (groups_in_order [Some llvm_a; Some llvm_b; Some info_c]).
Proof.
  apply (proj1 (proj2 output_follows_first_occurrence) llvm_world).
  vm_compute. reflexivity.
Defined.

(** ** Sorting *)

Lemma leb_trans (a b c : string) :
  String.leb a b = true -> String.leb b c = true -> String.leb a c = true.
Proof.
  unfold String.leb. revert b c.
  induction a as [| x a IH]; intros [| y b] [| z c]; simpl;
    try reflexivity; try discriminate.
  unfold Ascii.compare.
  destruct (N.compare_spec (N_of_ascii x) (N_of_ascii y)) as [E1 | L1 | G1];
    destruct (N.compare_spec (N_of_ascii y) (N_of_ascii z)) as [E2 | L2 | G2];
    destruct (N.compare_spec (N_of_ascii x) (N_of_ascii z)) as [E3 | L3 | G3];
    try discriminate; try reflexivity; try lia.
  apply IH.
Qed.

Lemma insert_sorted_perm (x : string) (l : list string) :
  Permutation (insert_sorted x l) (x :: l).
Proof.
  induction l as [| y l IH]; simpl; [reflexivity |].
  destruct (String.leb x y); [reflexivity |].
  rewrite IH. apply perm_swap.
Qed.

Lemma sorted_perm (l : list string) : Permutation (sorted l) l.
Proof.
  induction l as [| x l IH]; simpl; [reflexivity |].
  rewrite insert_sorted_perm. now constructor.
Qed.

Lemma insert_sorted_sorted (x : string) (l : list string) :
  StronglySorted le_str l -> StronglySorted le_str (insert_sorted x l).
Proof.
  induction 1 as [| y l Hs IH Hall]; simpl.
  - repeat constructor.
  - destruct (String.leb x y) eqn:E.
    + constructor; [now constructor |].
      constructor; [exact E |].
      eapply Forall_impl; [| exact Hall].
      intros z Hz. eapply leb_trans; eassumption.
    + constructor; [exact IH |].
      eapply Permutation_Forall; [symmetry; apply insert_sorted_perm |].
      constructor; [| exact Hall].
      destruct (String.leb_total x y) as [H | H]; [congruence | exact H].
Qed.

Lemma sorted_sorted (l : list string) : StronglySorted le_str (sorted l).
Proof.
  induction l as [| x l IH]; simpl; [constructor |].
  now apply insert_sorted_sorted.
Qed.

(** Two sorted lists with the same elements are the same list. *)
Lemma sorted_unique (l1 l2 : list string) :
  StronglySorted le_str l1 -> StronglySorted le_str l2 ->
  Permutation l1 l2 -> l1 = l2.
Proof.
  intro H1. revert l2.
  induction H1 as [| a l1 Hs1 IH Ha]; intros l2 H2 Hp.
  - apply Permutation_nil in Hp. now subst.
  - destruct H2 as [| b l2 Hs2 Hb].
    + symmetry in Hp. apply Permutation_nil in Hp. discriminate.
    + assert (a = b) as ->.
      { assert (Hab : In a (b :: l2))
          by (eapply Permutation_in; [exact Hp | now left]).
        assert (Hba : In b (a :: l1))
          by (eapply Permutation_in; [symmetry; exact Hp | now left]).
        destruct Hab as [-> | Hab]; [reflexivity |].
        destruct Hba as [-> | Hba]; [reflexivity |].
        apply String.leb_antisym.
        - rewrite Forall_forall in Ha. now apply Ha.
        - rewrite Forall_forall in Hb. now apply Hb. }
      f_equal. apply IH; [assumption |].
      eapply Permutation_cons_inv, Hp.
Qed.

(** [sorted] does not depend on the order of its argument. *)
Lemma sorted_of_perm (l1 l2 : list string) :
  Permutation l1 l2 -> sorted l1 = sorted l2.
Proof.
  intro Hp. apply sorted_unique; try apply sorted_sorted.
  now rewrite !sorted_perm.
Qed.

Lemma group_copyrights_spec (env : Env) (items : list LicenseInfo) :
  set_order_ok env ->
  group_copyrights env items = sorted_distinct (member_copyrights items).
Proof.
  intro H. unfold group_copyrights, sorted_distinct.
  apply sorted_of_perm, H.
Qed.

(** ** Copyright lines of a group *)

Lemma sorted_distinct_nil (l : list string) : sorted_distinct l = [] -> l = [].
Proof.
  unfold sorted_distinct. intro H.
  pose proof (sorted_perm (nodup string_dec l)) as Hp. rewrite H in Hp.
  apply Permutation_nil in Hp.
  destruct l as [| x l]; [reflexivity |].
  assert (Hin : In x (nodup string_dec (x :: l)))
    by (apply nodup_In; now left).
  rewrite Hp in Hin. contradiction.
Qed.

(** The run on [shared_notice]: one group of two members whose copyright
    strings are joined by a carriage return, not by a line feed. *)
Lemma copyrights_not_joined_by_newline :
  mapM (find_license_info 10 shared_notice) [x_a; x_b]
  = Returned [Some shared_a; Some shared_b]
  /\ build_groups [Some shared_a; Some shared_b]
     = [(KStr "Shared notice", [shared_a; shared_b])]
  /\ resolve_notice shared_notice shared_a = Returned "Shared notice"
  /\ member_copyrights [shared_a; shared_b]
     = ["Copyright 2021 Bar"; "Copyright 2020 Foo"]
  /\ emit_group shared_notice (KStr "Shared notice") [shared_a; shared_b]
     = Returned (Some dep_shared)
  /\ dep_notice dep_shared
     = ("Copyright 2020 Foo" ++ CR ++ "Copyright 2021 Bar"
        ++ LF ++ LF ++ "Shared notice")%string
  /\ notice_with_copyrights LF [shared_a; shared_b] "Shared notice"
     = ("Copyright 2020 Foo" ++ LF ++ "Copyright 2021 Bar"
        ++ LF ++ LF ++ "Shared notice")%string
  /\ dep_notice dep_shared
     <> notice_with_copyrights LF [shared_a; shared_b] "Shared notice".
Proof.
  repeat split; try (vm_compute; reflexivity).
  vm_compute. discriminate.
Qed.

(** C3 (amended): for every group that is emitted and has at least one
    non-empty member copyright string, the emitted notice is the sorted
    distinct non-empty copyright strings of the members joined by a carriage
    return, then two line feeds, then the resolved notice of the group. *)
Theorem copyrights_joined_by_carriage_return
    (env : Env) (key : Key) (item : LicenseInfo) (rest : list LicenseInfo)
    (d : Dependency) (body : string) :
  set_order_ok env ->
  resolve_notice env item = Returned body ->
  emit_group env key (item :: rest) = Returned (Some d) ->
  member_copyrights (item :: rest) <> [] ->
  dep_notice d = notice_with_copyrights CR (item :: rest) body.
Proof.
  intros Hset Hn He Hc. unfold emit_group in He. rewrite Hn in He.
  cbn [bind] in He.
  destruct (group_name key item (item :: rest)) as [name | e |];
    cbn [bind] in He; try discriminate.
  destruct (match resolve_license item body with
            | Some l => String.eqb l SPDX_IDENTIFIER_LLVM_EXCEPTION
            | None => false
            end); [discriminate |].
  injection He as <-. cbn [dep_notice].
  rewrite (group_copyrights_spec env _ Hset). unfold notice_with_copyrights.
  destruct (sorted_distinct (member_copyrights (item :: rest))) eqn:E;
    [| reflexivity].
  apply sorted_distinct_nil in E. contradiction.
Qed.

Lemma copyrights_joined_by_carriage_return_witness :
  dep_notice dep_shared
  = notice_with_copyrights CR [shared_a; shared_b] "Shared notice".
Proof.
  apply (copyrights_joined_by_carriage_return shared_notice
           (KStr "Shared notice") shared_a [shared_b]).
  - intro l. reflexivity.
  - reflexivity.
  - vm_compute. reflexivity.
  - vm_compute. discriminate.
Defined.

(** ** Groups under the LLVM exception *)

Lemma emit_groups_each (env : Env) (gs : list (Key * list LicenseInfo))
    (deps : list Dependency) :
  emit_groups env gs = Returned deps ->
  forall key items, In (key, items) gs ->
                    exists r, emit_group env key items = Returned r.
Proof.
  revert deps. induction gs as [| [k its] gs IH]; intros deps H key items Hin.
  - contradiction.
  - simpl in H.
    destruct (emit_group env k its) as [d | e |] eqn:E; cbn [bind] in H;
      try discriminate.
    destruct (emit_groups env gs) as [ds | e |]; cbn [bind] in H;
      try discriminate.
    destruct Hin as [[= <- <-] | Hin]; [eauto | eapply IH; eauto].
Qed.

(** An emitted record never carries the LLVM-exception identifier. *)
Lemma emit_group_license (env : Env) (key : Key) (items : list LicenseInfo)
    (d : Dependency) :
  emit_group env key items = Returned (Some d) ->
  dep_license d <> Some SPDX_IDENTIFIER_LLVM_EXCEPTION.
Proof.
  unfold emit_group. destruct items as [| item rest]; [discriminate |].
  destruct (resolve_notice env item) as [body | e |]; cbn [bind];
    try discriminate.
  destruct (group_name key item (item :: rest)) as [name | e |];
    cbn [bind]; try discriminate.
  destruct (resolve_license item body) as [l |] eqn:El.
  - destruct (String.eqb_spec l SPDX_IDENTIFIER_LLVM_EXCEPTION) as [| Hne];
      [discriminate |].
    intros [= <-]. cbn [dep_license]. congruence.
  - intros [= <-]. cbn [dep_license]. discriminate.
Qed.

(** A line with the explicit LLVM-exception marker ends the extraction with
    a record that resolves to that identifier and is keyed by its path. *)
Lemma explicit_llvm_marker (fuel : nat) (env : Env) (sp : Path)
    (line l : string) (f : list string) (tail : ending) :
  line <> "" ->
  search_spdx line = Some l ->
  strip l = SPDX_IDENTIFIER_LLVM_EXCEPTION ->
  let info := mkLicenseInfo sp (Some SPDX_IDENTIFIER_LLVM_EXCEPTION)
                None None None in
  extract_lines fuel sp (line :: f) tail = Returned (Some info)
  /\ key_of info = KPath sp
  /\ resolved_license_id env info
     = Returned (Some SPDX_IDENTIFIER_LLVM_EXCEPTION).
Proof.
  intros Hne Hs Hl. cbn zeta. split; [| split; reflexivity].
  cbn [extract_lines].
  destruct (String.eqb_spec line ""); [contradiction |].
  rewrite Hs, Hl, String.eqb_refl. reflexivity.
Qed.

(** The run on [llvm_world] in the order a, b, c: the second source
    resolves to the LLVM-exception identifier, inferred from its notice,
    yet its group is emitted, because the first source of the group carries
    the identifier MIT. *)
Lemma llvm_member_of_emitted_group :
  mapM (find_license_info 10 llvm_world) [x_a; x_b; y_c]
  = Returned [Some llvm_a; Some llvm_b; Some info_c]
  /\ resolved_license_id llvm_world llvm_b
     = Returned (Some SPDX_IDENTIFIER_LLVM_EXCEPTION)
  /\ build_groups [Some llvm_a; Some llvm_b; Some info_c]
     = [(KStr LLVM_NOTICE, [llvm_a; llvm_b]); (KStr "Notice C", [info_c])]
  /\ emit_group llvm_world (KStr LLVM_NOTICE) [llvm_a; llvm_b]
     = Returned (Some dep_x)
  /\ collect_dependencies 10 llvm_world e_LICENSE
       (text ["/x/a.c"; "/x/b.c"; "/y/c.c"])
     = Returned [dep_x; dep_c].
Proof. repeat split; vm_compute; reflexivity. Qed.

(** C1 (amended): whenever the grouping returns, a group whose
    representative -- the first input record with the group's key --
    resolves to the LLVM-exception identifier (explicitly or by inference
    from its notice) adds nothing to the emitted array, which is what the
    groups add in order, and no emitted record carries that identifier. *)
Theorem llvm_representative_drops_group
    (env : Env) (infos : list (option LicenseInfo)) (deps : list Dependency)
    (key : Key) (item : LicenseInfo) (rest : list LicenseInfo) :
  group_dependencies env infos = Returned deps ->
  In (key, item :: rest) (groups_in_order infos) ->
  resolved_license_id env item = Returned (Some SPDX_IDENTIFIER_LLVM_EXCEPTION) ->
  emit_group env key (item :: rest) = Returned None
  /\ deps = flat_map (emitted env) (groups_in_order infos)
  /\ Forall (fun d => dep_license d <> Some SPDX_IDENTIFIER_LLVM_EXCEPTION) deps.
Proof.
  intros Hg Hin Hl. unfold group_dependencies in Hg.
  rewrite build_groups_in_order in Hg.
  pose proof (emit_groups_flat _ _ _ Hg) as Hflat.
  split; [| split; [exact Hflat |]].
  - destruct (emit_groups_each _ _ _ Hg _ _ Hin) as [r Hr].
    rewrite Hr. f_equal. revert Hr. unfold emit_group.
    unfold resolved_license_id in Hl.
    destruct (resolve_notice env item) as [body | e |]; cbn [bind] in *;
      try discriminate.
    injection Hl as ->.
    destruct (group_name key item (item :: rest)) as [name | e |];
      cbn [bind]; try discriminate.
    rewrite String.eqb_refl. now intros [= <-].
  - subst deps. apply Forall_forall. intros d Hd.
    apply in_flat_map in Hd. destruct Hd as [[k its] [_ Hd]].
    unfold emitted in Hd. cbn [fst snd] in Hd.
    destruct (emit_group env k its) as [[d' |] | e |] eqn:E;
      try contradiction.
    destruct Hd as [<- | []]. eapply emit_group_license, E.
Qed.

Lemma llvm_representative_drops_group_witness :
  emit_group llvm_world (KStr LLVM_NOTICE) [llvm_b; llvm_a] = Returned None
  /\ [dep_c]
     = flat_map (emitted llvm_world)
         (groups_in_order [Some llvm_b; Some llvm_a; Some info_c])
  /\ Forall (fun d => dep_license d <> Some SPDX_IDENTIFIER_LLVM_EXCEPTION)
            [dep_c].
Proof.
  apply (llvm_representative_drops_group llvm_world
           [Some llvm_b; Some llvm_a; Some info_c] [dep_c]
           (KStr LLVM_NOTICE) llvm_b [llvm_a]).
  - vm_compute. reflexivity.
  - vm_compute. left. reflexivity.
  - vm_compute. reflexivity.
Defined.

(** ** Determinism *)

Lemma perm_short {A : Type} (l1 l2 : list A) :
  Permutation l1 l2 -> List.length l1 <= 1 -> l1 = l2.
Proof.
  intros Hp Hl. destruct l1 as [| a [| b l1]].
  - apply Permutation_nil in Hp. now subst.
  - apply Permutation_length_1_inv in Hp. now subst.
  - simpl in Hl. lia.
Qed.

Lemma filter_perm {A : Type} (f : A -> bool) (l1 l2 : list A) :
  Permutation l1 l2 -> Permutation (filter f l1) (filter f l2).
Proof.
  induction 1 as [| x l1 l2 _ IH | x y l | l1 l2 l3 _ IH1 _ IH2]; simpl.
  - constructor.
  - destruct (f x); [now constructor | assumption].
  - destruct (f x), (f y); try reflexivity. apply perm_swap.
  - now transitivity (filter f l2).
Qed.

Section TwoRuns.

Variables e1 e2 : Env.
Hypothesis Hsame : same_world e1 e2.
Hypothesis Hset1 : set_order_ok e1.
Hypothesis Hset2 : set_order_ok e2.
Hypothesis Hone : one_candidate e1.

Lemma extract_same (fuel : nat) (sp : Path) :
  extract_license_from_source fuel e1 sp
  = extract_license_from_source fuel e2 sp.
Proof.
  unfold extract_license_from_source.
  destruct Hsame as [_ [Hr _]]. now rewrite Hr.
Qed.

Lemma find_license_loop_same (fuel : nat) (sp directory : Path) :
  find_license_loop fuel e1 sp directory
  = find_license_loop fuel e2 sp directory.
Proof.
  revert directory. induction fuel as [| fuel IH]; intro directory;
    [reflexivity |].
  cbn [find_license_loop].
  destruct Hsame as [_ [_ [Hl _]]]. specialize (Hl directory).
  pose proof (Hone directory) as H1.
  destruct (iterdir e1 directory) as [n1 |], (iterdir e2 directory) as [n2 |];
    simpl in Hl; try contradiction; [| reflexivity].
  specialize (H1 n1 eq_refl).
  rewrite <- (perm_short _ _ (filter_perm re_licence_filename_match _ _ Hl) H1).
  destruct (1 <? _)%nat; [reflexivity |].
  destruct (map _ _); [apply IH | reflexivity].
Qed.

Lemma find_license_info_same (fuel : nat) (sp : Path) :
  find_license_info fuel e1 sp = find_license_info fuel e2 sp.
Proof.
  unfold find_license_info, find_license_file.
  destruct Hsame as [Hf _]. rewrite Hf, extract_same.
  destruct (is_file e2 sp) as [[|] |]; cbn [negb]; try reflexivity.
  destruct (extract_license_from_source fuel e2 sp) as [[info |] | e |];
    cbn [bind]; try reflexivity.
  apply find_license_loop_same.
Qed.

Lemma read_license_file_same (lp : Path) :
  read_license_file e1 lp = read_license_file e2 lp.
Proof.
  unfold read_license_file. destruct Hsame as [_ [Hr _]]. now rewrite Hr.
Qed.

Lemma group_copyrights_same (items : list LicenseInfo) :
  group_copyrights e1 items = group_copyrights e2 items.
Proof.
  now rewrite !group_copyrights_spec.
Qed.

Lemma emit_group_same (key : Key) (items : list LicenseInfo) :
  emit_group e1 key items = emit_group e2 key items.
Proof.
  unfold emit_group. destruct items as [| item rest]; [reflexivity |].
  unfold resolve_notice.
  destruct (notice item); [now rewrite group_copyrights_same |].
  destruct (license_path item) as [lp |];
    [rewrite read_license_file_same |]; now rewrite group_copyrights_same.
Qed.

Lemma group_dependencies_same (infos : list (option LicenseInfo)) :
  group_dependencies e1 infos = group_dependencies e2 infos.
Proof.
  unfold group_dependencies.
  induction (build_groups infos) as [| [k items] gs IH]; [reflexivity |].
  cbn [emit_groups]. now rewrite emit_group_same, IH.
Qed.

Lemma collect_dependencies_same (fuel : nat) (lp : Path) (sources : string) :
  collect_dependencies fuel e1 lp sources
  = collect_dependencies fuel e2 lp sources.
Proof.
  unfold collect_dependencies.
  assert (E : forall ps, mapM (find_license_info fuel e1) ps
                         = mapM (find_license_info fuel e2) ps).
  { induction ps as [| p ps IH]; [reflexivity |].
    cbn [mapM]. now rewrite find_license_info_same, IH. }
  rewrite E.
  destruct (mapM _ _) as [infos | e |]; cbn [bind]; try reflexivity.
  now rewrite group_dependencies_same.
Qed.

Lemma main_same (fuel : nat) (args : Namespace) :
  main fuel e1 args = main fuel e2 args.
Proof.
  unfold main, find_emscripten_dir.
  destruct Hsame as [Hf [_ [_ Hw]]]. rewrite Hw.
  destruct (match emscripten_dir args with
            | Some dir => _
            | None => _
            end) as [dir |]; [| reflexivity].
  rewrite Hf.
  destruct (is_file e2 _) as [[|] |]; cbn [negb]; try reflexivity.
  destruct (readlines (sources args)) as [text | e |]; cbn [bind];
    try reflexivity.
  now rewrite collect_dependencies_same.
Qed.

End TwoRuns.

(** ** More fuel changes nothing once a run has ended *)

Lemma bind_settled {A B : Type} (m : outcome A) (k : A -> outcome B) :
  bind m k <> OutOfFuel -> m <> OutOfFuel.
Proof. destruct m; simpl; congruence. Qed.

Lemma notice_loop_mono (fuel fuel' : nat) (leader comment prefix : string)
    (f : list string) (tail : ending) (notice : string) :
  fuel <= fuel' ->
  notice_loop fuel leader comment prefix f tail notice <> OutOfFuel ->
  notice_loop fuel' leader comment prefix f tail notice
  = notice_loop fuel leader comment prefix f tail notice.
Proof.
  revert fuel' f notice.
  induction fuel as [| fuel IH]; intros fuel' f notice Hle H;
    [simpl in H; congruence |].
  destruct fuel' as [| fuel']; [lia |].
  cbn [notice_loop] in *.
  destruct (readline f tail) as [[line f'] | e |]; cbn [bind] in *;
    [| reflexivity | reflexivity].
  destruct (negb (startswith line prefix)); [reflexivity |].
  destruct (_ && _); [reflexivity |].
  destruct (_ && _); [reflexivity |].
  apply IH; [lia | exact H].
Qed.

Lemma extract_lines_mono (fuel fuel' : nat) (sp : Path) (f : list string)
    (tail : ending) :
  fuel <= fuel' ->
  extract_lines fuel sp f tail <> OutOfFuel ->
  extract_lines fuel' sp f tail = extract_lines fuel sp f tail.
Proof.
  intro Hle. induction f as [| line f IH]; intro H; [reflexivity |].
  cbn [extract_lines] in *.
  destruct (String.eqb line ""); [reflexivity |].
  destruct (match search_spdx line with Some l => Some (strip l) | None => None end)
    as [l |].
  - destruct (String.eqb l SPDX_IDENTIFIER_LLVM_EXCEPTION); [reflexivity |].
    destruct (match_copyright_line line) as [[[leader c] cp] |]; [| now apply IH].
    apply bind_settled in H.
    now rewrite (notice_loop_mono _ _ _ _ _ _ _ _ Hle H).
  - destruct (match_copyright_line line) as [[[leader c] cp] |]; [| now apply IH].
    apply bind_settled in H.
    now rewrite (notice_loop_mono _ _ _ _ _ _ _ _ Hle H).
Qed.

Lemma find_license_loop_mono (fuel fuel' : nat) (env : Env)
    (sp directory : Path) :
  fuel <= fuel' ->
  find_license_loop fuel env sp directory <> OutOfFuel ->
  find_license_loop fuel' env sp directory
  = find_license_loop fuel env sp directory.
Proof.
  revert fuel' directory.
  induction fuel as [| fuel IH]; intros fuel' directory Hle H;
    [simpl in H; congruence |].
  destruct fuel' as [| fuel']; [lia |].
  cbn [find_license_loop] in *.
  destruct (Path_truthy directory); [| reflexivity].
  destruct (iterdir env directory) as [names |]; [| reflexivity].
  destruct (1 <? _)%nat; [reflexivity |].
  destruct (map _ _); [| reflexivity].
  apply IH; [lia | exact H].
Qed.

Lemma find_license_info_mono (fuel fuel' : nat) (env : Env) (sp : Path) :
  fuel <= fuel' ->
  find_license_info fuel env sp <> OutOfFuel ->
  find_license_info fuel' env sp = find_license_info fuel env sp.
Proof.
  intros Hle H. unfold find_license_info in *.
  destruct (is_file env sp) as [[|] |]; cbn [negb] in *; try reflexivity.
  pose proof (bind_settled _ _ H) as H1.
  assert (E : extract_license_from_source fuel' env sp
              = extract_license_from_source fuel env sp).
  { unfold extract_license_from_source in *.
    destruct (read_text env sp) as [[t | t] |]; [| | reflexivity];
      now apply extract_lines_mono. }
  rewrite E.
  destruct (extract_license_from_source fuel env sp) as [[info |] | e |];
    cbn [bind] in *; try reflexivity.
  now apply find_license_loop_mono.
Qed.

Lemma mapM_mono (fuel fuel' : nat) (env : Env) (ps : list Path) :
  fuel <= fuel' ->
  mapM (find_license_info fuel env) ps <> OutOfFuel ->
  mapM (find_license_info fuel' env) ps = mapM (find_license_info fuel env) ps.
Proof.
  intro Hle. induction ps as [| p ps IH]; intro H; [reflexivity |].
  cbn [mapM] in *. pose proof (bind_settled _ _ H) as H1.
  rewrite (find_license_info_mono _ _ _ _ Hle H1).
  destruct (find_license_info fuel env p) as [oi | e |]; cbn [bind] in *;
    try reflexivity.
  pose proof (bind_settled _ _ H) as H2. now rewrite (IH H2).
Qed.

Lemma collect_dependencies_mono (fuel fuel' : nat) (env : Env) (lp : Path)
    (sources : string) :
  fuel <= fuel' ->
  collect_dependencies fuel env lp sources <> OutOfFuel ->
  collect_dependencies fuel' env lp sources
  = collect_dependencies fuel env lp sources.
Proof.
  intros Hle H. unfold collect_dependencies in *.
  pose proof (bind_settled _ _ H) as H1.
  now rewrite (mapM_mono _ _ _ _ Hle H1).
Qed.

Lemma finally_settled {A : Type} (body : outcome A) (cleanup : outcome unit) :
  finally body cleanup <> OutOfFuel -> body <> OutOfFuel.
Proof. destruct body; simpl; congruence. Qed.

Lemma main_mono (fuel fuel' : nat) (env : Env) (args : Namespace) :
  fuel <= fuel' ->
  main fuel env args <> OutOfFuel ->
  main fuel' env args = main fuel env args.
Proof.
  intros Hle H. unfold main in *.
  destruct (find_emscripten_dir env args) as [dir |]; [| reflexivity].
  destruct (is_file env _) as [[|] |]; cbn [negb] in *; try reflexivity.
  apply finally_settled in H.
  destruct (readlines (sources args)) as [text | e |]; cbn [bind] in *;
    try reflexivity.
  apply bind_settled in H.
  now rewrite (collect_dependencies_mono _ _ _ _ _ Hle H).
Qed.

(** C9: two runs on the same source list and the same toolchain and
    filesystem contents -- the directories possibly listed in another order,
    with at most one license-file candidate in each, and sets possibly
    iterated in another order -- end in the same way at every amount of
    fuel, and when both write an output, the two outputs are the same
    text. *)
Theorem runs_are_deterministic (e1 e2 : Env) (args : Namespace) :
  same_world e1 e2 ->
  set_order_ok e1 -> set_order_ok e2 ->
  one_candidate e1 ->
  (forall fuel, main fuel e1 args = main fuel e2 args)
  /\ (forall fuel1 fuel2 out1 out2,
         main fuel1 e1 args = Returned out1 ->
         main fuel2 e2 args = Returned out2 ->
         out1 = out2).
Proof.
  intros Hsame H1 H2 Hone.
  assert (E : forall fuel, main fuel e1 args = main fuel e2 args)
    by (intro; now apply main_same).
  split; [exact E |].
  intros fuel1 fuel2 out1 out2 R1 R2.
  assert (M1 : main (Nat.max fuel1 fuel2) e1 args = Returned out1).
  { rewrite (main_mono fuel1); [exact R1 | lia | congruence]. }
  assert (M2 : main (Nat.max fuel1 fuel2) e2 args = Returned out2).
  { rewrite (main_mono fuel2); [exact R2 | lia | congruence]. }
  rewrite E in M1. congruence.
Qed.

Lemma backwards_same_world (env : Env) : same_world env (backwards env).
Proof.
  repeat split. intro p. unfold backwards. cbn [iterdir].
  destruct (iterdir env p); simpl; [apply Permutation_rev | exact I].
Qed.

Lemma backwards_set_order_ok (env : Env) :
  set_order_ok env -> set_order_ok (backwards env).
Proof.
  intros H l. unfold backwards. cbn [set_iter].
  rewrite <- Permutation_rev. apply H.
Qed.

Lemma licensed_world_one_candidate : one_candidate licensed_world.
Proof.
  intros p names. unfold licensed_world, world. cbn [iterdir map lookup].
  repeat (match goal with
          | |- context [Path_eqb ?q p] => destruct (Path_eqb q p)
          end; [intros [= <-]; vm_compute; lia |]).
  discriminate.
Qed.

Lemma runs_are_deterministic_witness :
  (forall fuel,
      main fuel licensed_world
        (arguments e_dir (text ["/p/q/m.c"; "/x/a.c"; "/x/b.c"]))
      = main fuel (backwards licensed_world)
          (arguments e_dir (text ["/p/q/m.c"; "/x/a.c"; "/x/b.c"])))
  /\ (forall fuel1 fuel2 out1 out2,
         main fuel1 licensed_world
           (arguments e_dir (text ["/p/q/m.c"; "/x/a.c"; "/x/b.c"]))
         = Returned out1 ->
         main fuel2 (backwards licensed_world)
           (arguments e_dir (text ["/p/q/m.c"; "/x/a.c"; "/x/b.c"]))
         = Returned out2 ->
         out1 = out2).
Proof.
  apply (runs_are_deterministic licensed_world (backwards licensed_world)).
  - apply backwards_same_world.
  - intro l. reflexivity.
  - apply backwards_set_order_ok. intro l. reflexivity.
  - exact licensed_world_one_candidate.
Defined.

(** Both runs of the example write the same text, with different amounts of
    fuel. *)
Lemma two_runs_output :
  main 10 licensed_world
    (arguments e_dir (text ["/p/q/m.c"; "/x/a.c"; "/x/b.c"]))
  = Returned (json_dump [dep_m; dep_shared] ++ LF)%string
  /\ main 3 (backwards licensed_world)
       (arguments e_dir (text ["/p/q/m.c"; "/x/a.c"; "/x/b.c"]))
     = Returned (json_dump [dep_m; dep_shared] ++ LF)%string.
Proof. split; vm_compute; reflexivity. Qed.

(** * Further properties of the script *)

(** ** Pieces of a text *)

Lemma take_drop (k : nat) (s : string) : (take k s ++ drop k s)%string = s.
Proof.
  revert s. induction k as [| k IH]; intros [| a s]; simpl;
    try reflexivity. now rewrite IH.
Qed.

Lemma all_space_take (k : nat) (s : string) :
  k <= spaces s -> all_space (take k s) = true.
Proof.
  revert s. induction k as [| k IH]; intros [| a s]; simpl;
    try reflexivity.
  destruct (isspace a) eqn:E; [| lia].
  intro H. apply IH. lia.
Qed.

Lemma dotstar_split (s : string) :
  s = (fst (dotstar s) ++ snd (dotstar s))%string
  /\ no_lf (fst (dotstar s)) = true.
Proof.
  induction s as [| a s [IH1 IH2]]; simpl; [now split |].
  destruct (Ascii.eqb a "010") eqn:E; simpl; [now split |].
  destruct (dotstar s) as [m r]. simpl in *. rewrite E. simpl.
  split; [now f_equal | assumption].
Qed.

Lemma lower_lf (a b : ascii) :
  eqb_ci a b = true -> Ascii.eqb b "010" = false -> Ascii.eqb a "010" = false.
Proof.
  unfold eqb_ci. intros H Hb. destruct (Ascii.eqb_spec a "010") as [-> |];
    [| reflexivity].
  apply Ascii.eqb_eq in H. exfalso.
  destruct b as [[] [] [] [] [] [] [] []]; vm_compute in H, Hb; congruence.
Qed.

Lemma startswith_ci_dotstar (s m : string) :
  no_lf m = true -> startswith_ci s m = true ->
  startswith_ci (fst (dotstar s)) m = true.
Proof.
  revert s. induction m as [| b m IH]; intros s Hm H;
    [destruct (fst (dotstar s)); reflexivity |].
  destruct s as [| a s]; [discriminate |].
  simpl in Hm, H. apply andb_true_iff in Hm. destruct Hm as [Hb Hm].
  apply andb_true_iff in H. destruct H as [E H].
  apply negb_true_iff in Hb. simpl. rewrite (lower_lf a b E Hb).
  specialize (IH s Hm H). destruct (dotstar s) as [m' r]. simpl in *.
  now rewrite E, IH.
Qed.

(** ** The groups of a copyright marker line *)

Lemma match_marks_sound (s cp : string) :
  match_marks s = Some cp ->
  exists tail,
    s = (cp ++ tail)%string /\ (tail = "" \/ tail = LF)
    /\ no_lf cp = true /\ existsb (startswith_ci cp) re_copyright = true.
Proof.
  unfold match_marks. destruct (existsb (startswith_ci s) re_copyright) eqn:E;
    [| discriminate].
  pose proof (dotstar_split s) as [Hs Hn].
  destruct (dotstar s) as [m r] eqn:D. simpl in Hs, Hn.
  destruct (String.eqb r "" || String.eqb r LF) eqn:R; [| discriminate].
  intros [= <-]. exists r. repeat split; try assumption.
  - apply orb_true_iff in R. destruct R as [R | R]; apply String.eqb_eq in R;
      auto.
  - apply existsb_exists in E. destruct E as [mk [Hin Hmk]].
    apply existsb_exists. exists mk. split; [assumption |].
    replace m with (fst (dotstar s)) by now rewrite D.
    apply startswith_ci_dotstar; [| assumption].
    simpl in Hin. destruct Hin as [<- | [<- | [<- | []]]]; reflexivity.
Qed.

Lemma match_ws_marks_sound (j : nat) (s cp : string) :
  j <= spaces s ->
  match_ws_marks j s = Some cp ->
  exists ws tail,
    s = (ws ++ cp ++ tail)%string /\ all_space ws = true
    /\ (tail = "" \/ tail = LF)
    /\ no_lf cp = true /\ existsb (startswith_ci cp) re_copyright = true.
Proof.
  induction j as [| j IH]; intro Hj; cbn [match_ws_marks].
  - destruct (match_marks (drop 0 s)) as [c |] eqn:E; [| discriminate].
    intros [= ->]. apply match_marks_sound in E.
    destruct E as [tail [Hs H]]. exists "", tail. simpl in *. now split.
  - destruct (match_marks (drop (S j) s)) as [c |] eqn:E.
    + intros [= ->]. apply match_marks_sound in E.
      destruct E as [tail [Hs H]]. exists (take (S j) s), tail.
      split; [| split; [now apply all_space_take | exact H]].
      rewrite <- Hs. symmetry. apply take_drop.
    + apply IH. lia.
Qed.

Lemma match_comment_sound (alts : list string) (s c cp : string) :
  match_comment alts s = Some (c, cp) ->
  In c alts
  /\ exists ws tail,
       s = (c ++ ws ++ cp ++ tail)%string /\ all_space ws = true
       /\ (tail = "" \/ tail = LF)
       /\ no_lf cp = true /\ existsb (startswith_ci cp) re_copyright = true.
Proof.
  induction alts as [| a alts IH]; cbn [match_comment]; [discriminate |].
  destruct (startswith s a) eqn:Es.
  - destruct (match_ws_marks _ _) as [c' |] eqn:E.
    + intros [= <- <-]. split; [now left |].
      apply match_ws_marks_sound in E; [| lia].
      destruct E as [ws [tail [Hs H]]]. exists ws, tail.
      split; [| exact H]. rewrite <- Hs. now apply startswith_split.
    + intro H. destruct (IH H) as [Hin Hr]. split; [now right | exact Hr].
  - intro H. destruct (IH H) as [Hin Hr]. split; [now right | exact Hr].
Qed.

Lemma match_leader_sound (k : nat) (line leader c cp : string) :
  k <= spaces line ->
  match_leader k line = Some (leader, c, cp) ->
  In c re_comment
  /\ all_space leader = true
  /\ exists ws tail,
       line = (leader ++ c ++ ws ++ cp ++ tail)%string /\ all_space ws = true
       /\ (tail = "" \/ tail = LF)
       /\ no_lf cp = true /\ existsb (startswith_ci cp) re_copyright = true.
Proof.
  revert leader. induction k as [| k IH]; intros leader Hk;
    cbn [match_leader].
  - destruct (match_comment re_comment (drop 0 line)) as [[c' cp'] |] eqn:E;
      [| discriminate].
    intros [= <- <- <-]. apply match_comment_sound in E.
    destruct E as [Hin [ws [tail [Hs H]]]].
    split; [exact Hin | split; [reflexivity |]].
    exists ws, tail. split; [exact Hs | exact H].
  - destruct (match_comment re_comment (drop (S k) line)) as [[c' cp'] |] eqn:E.
    + intro R. assert (leader = take (S k) line /\ c = c' /\ cp = cp')
        as [-> [-> ->]] by (injection R; auto).
      clear R. apply match_comment_sound in E.
      destruct E as [Hin [ws [tail [Hs H]]]].
      split; [exact Hin | split; [now apply all_space_take |]].
      exists ws, tail. split; [| exact H].
      rewrite <- Hs. symmetry. apply take_drop.
    + apply IH. lia.
Qed.

(** X1: when a line is a copyright marker line, its three groups account
    for the whole line: the line is the leader, the comment literal, some
    white space, the copyright text and at most a final line feed, in this
    order; leader and white space hold white space only, the comment is one
    of the four literals, and the copyright text has no line feed and begins,
    without regard to case, with one of the three copyright literals. *)
Theorem marker_line_is_its_groups (line leader c cp : string) :
  match_copyright_line line = Some (leader, c, cp) ->
  In c re_comment
  /\ all_space leader = true
  /\ exists ws tail,
       line = (leader ++ c ++ ws ++ cp ++ tail)%string /\ all_space ws = true
       /\ (tail = "" \/ tail = LF)
       /\ no_lf cp = true /\ existsb (startswith_ci cp) re_copyright = true.
Proof. apply match_leader_sound. constructor. Qed.

Lemma marker_line_is_its_groups_witness :
  In " *" re_comment
  /\ all_space "  " = true
  /\ exists ws tail,
       ln "   *  (C) 2020 Foo"
       = ("  " ++ " *" ++ ws ++ "(C) 2020 Foo" ++ tail)%string
       /\ all_space ws = true
       /\ (tail = "" \/ tail = LF)
       /\ no_lf "(C) 2020 Foo" = true
       /\ existsb (startswith_ci "(C) 2020 Foo") re_copyright = true.
Proof.
  apply (marker_line_is_its_groups (ln "   *  (C) 2020 Foo")).
  reflexivity.
Defined.

(** ** Records of the in-source extraction *)

Lemma lstrip_fixed (a : ascii) (s : string) :
  isspace a = false -> lstrip (String a s) = String a s.
Proof. intro E. simpl. now rewrite E. Qed.

Lemma strip_idem (s : string) : strip (strip s) = strip s.
Proof.
  unfold strip. pose proof (lstrip_head s) as Hh.
  destruct (lstrip s) as [| a u] eqn:E; [reflexivity |].
  destruct (rstrip_head a u Hh) as [r Hr]. rewrite Hr.
  rewrite (lstrip_fixed a r Hh), <- Hr. apply rstrip_idem.
Qed.

Lemma or_None_strip (n : string) :
  match or_None (strip n) with
  | None => True
  | Some m => m <> "" /\ strip m = m
  end.
Proof.
  unfold or_None. destruct (String.eqb_spec (strip n) "") as [| Hne];
    [exact I |]. split; [exact Hne | apply strip_idem].
Qed.

Lemma marker_line_copyright (line leader c cp : string) :
  match_copyright_line line = Some (leader, c, cp) ->
  no_lf cp = true /\ existsb (startswith_ci cp) re_copyright = true.
Proof.
  intro H. apply match_leader_sound in H; [| constructor].
  destruct H as [_ [_ [ws [tail [_ [_ [_ H]]]]]]]. exact H.
Qed.

(** X2: a record returned by the in-source extraction is for the path that
    was asked, names no license file, and has one of two shapes: the
    LLVM-exception identifier alone, or a copyright string that is not
    empty, holds no line feed and begins with a copyright literal, with a
    license identifier that is not the LLVM-exception one, and with a notice
    that is absent or a non-empty text without white space at its ends. *)
Theorem extracted_record_shape (fuel : nat) (sp : Path) (f : list string)
    (tail : ending) (info : LicenseInfo) :
  extract_lines fuel sp f tail = Returned (Some info) ->
  source_path info = sp
  /\ license_path info = None
  /\ (info = llvm_only sp
      \/ (license info <> Some SPDX_IDENTIFIER_LLVM_EXCEPTION
          /\ (exists cp, copyright info = Some cp /\ cp <> ""
                         /\ no_lf cp = true
                         /\ existsb (startswith_ci cp) re_copyright = true)
          /\ match notice info with
             | None => True
             | Some n => n <> "" /\ strip n = n
             end)).
Proof.
  induction f as [| line f IH]; cbn [extract_lines];
    [destruct tail; discriminate |].
  destruct (String.eqb line ""); [discriminate |].
  set (lic := match search_spdx line with
              | Some l => Some (strip l)
              | None => None
              end).
  destruct (match lic with
            | Some l => String.eqb l SPDX_IDENTIFIER_LLVM_EXCEPTION
            | None => false
            end) eqn:El.
  - destruct lic as [l |]; [| discriminate].
    apply String.eqb_eq in El. subst l.
    intros [= <-]. repeat split. now left.
  - destruct (match_copyright_line line) as [[[leader c] cp] |] eqn:Em;
      [| exact IH].
    destruct (notice_loop _ _ _ _ _ _ _) as [n | e |]; cbn [bind];
      try discriminate.
    intros [= <-]. cbn [source_path license_path license copyright notice].
    repeat split. right. split; [| split].
    + destruct lic as [l |]; [| discriminate].
      apply String.eqb_neq in El. congruence.
    + apply marker_line_copyright in Em.
      destruct Em as [Hcp1 Hcp2]. exists cp. repeat split; try assumption.
      intros ->. discriminate.
    + apply or_None_strip.
Qed.

Lemma extracted_record_shape_witness :
  source_path shared_a = x_a
  /\ license_path shared_a = None
  /\ (shared_a = llvm_only x_a
      \/ (license shared_a <> Some SPDX_IDENTIFIER_LLVM_EXCEPTION
          /\ (exists cp, copyright shared_a = Some cp /\ cp <> ""
                         /\ no_lf cp = true
                         /\ existsb (startswith_ci cp) re_copyright = true)
          /\ match notice shared_a with
             | None => True
             | Some n => n <> "" /\ strip n = n
             end)).
Proof.
  apply (extracted_record_shape 10 x_a
           [ln "// Copyright 2021 Bar"; ln "// Shared notice"; ln "int a;"]
           EndOfFile).
  reflexivity.
Defined.

(** ** When the extraction ends *)

Lemma startswith_nil_l (p : string) : p <> "" -> startswith "" p = false.
Proof. destruct p; [congruence | reflexivity]. Qed.

Lemma notice_loop_ends (fuel : nat) (leader comment prefix : string)
    (f : list string) (notice : string) :
  prefix <> "" -> List.length f < fuel ->
  exists n,
    notice_loop fuel leader comment prefix f EndOfFile notice = Returned n.
Proof.
  intro Hp. revert fuel notice.
  induction f as [| line f IH]; intros fuel notice Hl;
    (destruct fuel as [| fuel]; [simpl in Hl; lia |]);
    cbn [notice_loop readline bind].
  - rewrite (startswith_nil_l prefix Hp). simpl. eauto.
  - destruct (negb (startswith line prefix)); [eauto |].
    destruct (_ && _); [eauto |].
    destruct (_ && _); [eauto |].
    apply IH. simpl in Hl. lia.
Qed.

(** X3: the in-source extraction returns, without raising, on every file
    that decodes and whose copyright marker lines all have a leader or a
    comment opener, as soon as the fuel exceeds the number of lines. *)
Theorem extraction_ends_on_commented_markers (fuel : nat) (sp : Path)
    (f : list string) :
  List.length f < fuel ->
  (forall line leader c cp,
      In line f -> match_copyright_line line = Some (leader, c, cp) ->
      leader <> "" \/ c <> "") ->
  exists r, extract_lines fuel sp f EndOfFile = Returned r.
Proof.
  induction f as [| line f IH]; intros Hl Hm; cbn [extract_lines]; [eauto |].
  destruct (String.eqb line ""); [eauto |].
  destruct (match match search_spdx line with
                  | Some l => Some (strip l)
                  | None => None
                  end with
            | Some l => String.eqb l SPDX_IDENTIFIER_LLVM_EXCEPTION
            | None => false
            end); [eauto |].
  destruct (match_copyright_line line) as [[[leader c] cp] |] eqn:Em.
  - destruct (notice_loop_ends fuel leader
                (if String.eqb c "/*" then " *" else c)
                (leader ++ (if String.eqb c "/*" then " *" else c))%string
                f "") as [n Hn].
    + intro E. apply append_nil_inv in E. destruct E as [E1 E2].
      destruct (Hm line leader c cp (or_introl eq_refl) Em) as [H | H];
        [contradiction |].
      destruct (String.eqb c "/*"); [discriminate | contradiction].
    + simpl in Hl. lia.
    + rewrite Hn. cbn [bind]. eauto.
  - apply IH; [simpl in Hl; lia |].
    intros l0 ld c0 cp0 Hin. apply Hm. now right.
Qed.

Lemma extraction_ends_on_commented_markers_witness :
  exists r,
    extract_lines 4 x_a
      [ln "// Copyright 2021 Bar"; ln "// Shared notice"; ln "int a;"]
      EndOfFile
    = Returned r.
Proof.
  apply extraction_ends_on_commented_markers.
  - simpl. lia.
  - intros line leader c cp [<- | [<- | [<- | []]]]; vm_compute;
      intros [= <- <- <-] || discriminate.
    right. discriminate.
Defined.

Lemma notice_loop_without_prefix (fuel : nat) (f : list string)
    (notice : string) :
  Forall (fun line => re_separator_match line = false) f ->
  notice_loop fuel "" "" "" f EndOfFile notice = OutOfFuel.
Proof.
  revert f notice. induction fuel as [| fuel IH]; intros f notice Hf;
    [reflexivity |].
  cbn [notice_loop]. destruct f as [| line f]; cbn [readline bind].
  - cbn [startswith negb String.eqb andb].
    change (drop (String.length "") "") with "".
    change (re_separator_match "") with false.
    rewrite andb_false_r. now apply IH.
  - inversion Hf as [| ? ? Hline Hrest]; subst.
    replace (startswith line "") with true by now destruct line.
    cbn [negb String.eqb andb].
    change (drop (String.length "") line) with line.
    rewrite Hline, andb_false_r. now apply IH.
Qed.

Lemma extract_lines_pass (fuel : nat) (sp : Path) (pre f : list string)
    (tail : ending) :
  Forall passed_over pre ->
  extract_lines fuel sp (pre ++ f) tail = extract_lines fuel sp f tail.
Proof.
  induction 1 as [| line pre [Hne [Hm Hs]] _ IH]; [reflexivity |].
  cbn [app]. rewrite extract_lines_skip by assumption. exact IH.
Qed.

(** X4: when the first copyright marker line of a file that decodes has
    neither leader nor comment opener, and no later line is a horizontal
    rule, the extraction does not end: every line, and the end of the file
    itself, passes the empty prefix test, so the inner loop runs on for any
    amount of fuel. *)
Theorem extraction_runs_on_after_bare_marker (sp : Path)
    (pre : list string) (line cp : string) (rest : list string) :
  Forall passed_over pre ->
  line <> "" ->
  (forall l, search_spdx line = Some l ->
             strip l <> SPDX_IDENTIFIER_LLVM_EXCEPTION) ->
  match_copyright_line line = Some ("", "", cp) ->
  Forall (fun x => re_separator_match x = false) rest ->
  forall fuel,
    extract_lines fuel sp (pre ++ line :: rest) EndOfFile = OutOfFuel.
Proof.
  intros Hpre Hne Hs Hm Hrest fuel. rewrite extract_lines_pass by assumption.
  cbn [extract_lines]. destruct (String.eqb_spec line ""); [contradiction |].
  rewrite Hm.
  assert (E : match match search_spdx line with
                    | Some l => Some (strip l)
                    | None => None
                    end with
              | Some l => String.eqb l SPDX_IDENTIFIER_LLVM_EXCEPTION
              | None => false
              end = false).
  { destruct (search_spdx line) as [l |]; [| reflexivity].
    apply String.eqb_neq. now apply Hs. }
  rewrite E. cbn [String.eqb append].
  now rewrite notice_loop_without_prefix.
Qed.

Lemma extraction_runs_on_after_bare_marker_witness :
  extract_lines 1000 b_c
    ([ln "LICENSE"; ln "======="]
       ++ ln "Copyright 2020 Foo"
       :: [ln "Permission is granted."; ln "---------"])
    EndOfFile
  = OutOfFuel.
Proof.
  refine (extraction_runs_on_after_bare_marker b_c
            [ln "LICENSE"; ln "======="] (ln "Copyright 2020 Foo")
            "Copyright 2020 Foo" [ln "Permission is granted."; ln "---------"]
            _ _ _ _ _ 1000).
  - repeat constructor; try discriminate.
  - discriminate.
  - discriminate.
  - reflexivity.
  - repeat constructor.
Defined.



(** ** Where a license file is found *)

(** X6: the discovery returns the candidate of the nearest directory that
    has one.  When the directories from the start up to level [n] can be
    listed, the first [n] of them list no candidate and the one at level [n]
    lists exactly the candidate [c], then with more than [n] units of fuel
    the walk returns the record for the asked path whose license file is
    [c] in that directory, and nothing else of the record is set. *)
Theorem nearest_license_file_is_found (env : Env) (sp directory : Path)
    (n fuel : nat) (names : list string) (c : string) :
  (forall i, i < n ->
             exists ns, iterdir env (Nat.iter i Path_parent directory) = Some ns
                        /\ filter re_licence_filename_match ns = []) ->
  iterdir env (Nat.iter n Path_parent directory) = Some names ->
  filter re_licence_filename_match names = [c] ->
  n < fuel ->
  find_license_loop fuel env sp directory
  = Returned (Some (mkLicenseInfo sp None None None
                      (Some (Path_child (Nat.iter n Path_parent directory) c)))).
Proof.
  revert directory fuel.
  induction n as [| n IH]; intros directory fuel Hnone Hdir Hc Hfuel;
    (destruct fuel as [| fuel]; [lia |]);
    cbn [find_license_loop Path_truthy].
  - cbn [Nat.iter nat_rect] in *. now rewrite Hdir, Hc.
  - destruct (Hnone 0) as [ns [Hd Hf]]; [lia |].
    cbn [Nat.iter nat_rect] in Hd. rewrite Hd, Hf.
    cbn [map List.length Nat.ltb Nat.leb].
    rewrite Nat.iter_succ_r in Hdir |- *.
    apply IH; try assumption; [| lia].
    intros i Hi. destruct (Hnone (S i)) as [ns' H']; [lia |].
    rewrite Nat.iter_succ_r in H'. eauto.
Qed.

Lemma nearest_license_file_is_found_witness :
  find_license_loop 2 licensed_world p_q_m (Path_parent p_q_m)
  = Returned (Some (mkLicenseInfo p_q_m None None None
                      (Some (Path_child
                               (Nat.iter 1 Path_parent (Path_parent p_q_m))
                               "LICENSE")))).
Proof.
  apply (nearest_license_file_is_found licensed_world p_q_m
           (Path_parent p_q_m) 1 2 ["q"; "README"; "LICENSE"; "src"]).
  - intros i Hi. assert (i = 0) as -> by lia.
    exists ["m.c"; "n.c"; "o.h"]. split; reflexivity.
  - reflexivity.
  - reflexivity.
  - lia.
Defined.

(** ** Trimming a license file *)

Lemma cut_at_line_prefix (marker : string) (b : bool) (t : string) :
  exists rest,
    t = (cut_at_line marker b t ++ rest)%string
    /\ (rest = "" \/ startswith rest marker = true).
Proof.
  revert b. induction t as [| a t IH]; intro b.
  - cbn [cut_at_line]. destruct (b && startswith "" marker) eqn:E.
    + exists "". split; [reflexivity | now left].
    + exists "". split; [reflexivity | now left].
  - cbn [cut_at_line]. destruct (b && startswith (String a t) marker) eqn:E.
    + exists (String a t). apply andb_true_iff in E. destruct E as [_ E].
      split; [reflexivity | right; exact E].
    + destruct (IH (Ascii.eqb a "010")) as [rest [H1 H2]].
      exists rest. split; [simpl; now f_equal | exact H2].
Qed.

Lemma startswith_app (u rest m : string) :
  startswith u m = true -> startswith (u ++ rest) m = true.
Proof.
  revert u. induction m as [| x m IH]; intros [| y u] H; simpl in *;
    try reflexivity; try discriminate.
  - destruct rest; reflexivity.
  - apply andb_true_iff in H. destruct H as [E H].
    rewrite E. simpl. now apply IH.
Qed.

Lemma cut_at_line_idem (marker : string) (b : bool) (t : string) :
  cut_at_line marker b (cut_at_line marker b t) = cut_at_line marker b t.
Proof.
  revert b. induction t as [| a t IH]; intro b.
  - cbn [cut_at_line]. destruct (b && startswith "" marker) eqn:E;
      cbn [cut_at_line]; now rewrite E.
  - cbn [cut_at_line]. destruct (b && startswith (String a t) marker) eqn:E.
    + cbn [cut_at_line]. destruct (b && startswith "" marker); reflexivity.
    + cbn [cut_at_line].
      assert (E' : b && startswith
                         (String a (cut_at_line marker (Ascii.eqb a "010") t))
                         marker = false).
      { destruct b; [| reflexivity]. cbn [andb] in *.
        destruct (cut_at_line_prefix marker (Ascii.eqb a "010") t)
          as [rest [H1 _]].
        destruct (startswith (String a (cut_at_line marker
                                          (Ascii.eqb a "010") t)) marker)
          eqn:F; [| reflexivity].
        apply (startswith_app _ rest) in F. cbn [append] in F.
        rewrite <- H1 in F. congruence. }
      rewrite E'. now rewrite IH.
Qed.

Lemma cut_at_line_start (marker : string) (b : bool) (t : string) :
  exists rest,
    t = (cut_at_line marker b t ++ rest)%string
    /\ (rest = ""
        \/ (startswith rest marker = true
            /\ match cut_at_line marker b t with
               | EmptyString => b = true
               | u => ends_lf u = true
               end)).
Proof.
  revert b. induction t as [| a t IH]; intro b.
  - cbn [cut_at_line]. exists "".
    destruct (b && startswith "" marker); split; auto.
  - cbn [cut_at_line]. destruct (b && startswith (String a t) marker) eqn:E.
    + exists (String a t). apply andb_true_iff in E. destruct E as [Eb E].
      split; [reflexivity | right; split; assumption].
    + destruct (IH (Ascii.eqb a "010")) as [rest [H1 H2]].
      exists rest. split; [simpl; now f_equal |].
      destruct H2 as [H2 | [H2 H3]]; [now left | right].
      split; [exact H2 |].
      destruct (cut_at_line marker (Ascii.eqb a "010") t); exact H3.
Qed.

(** In the text that is kept, the marker stands at the start of no line;
    [b] tells whether the text itself starts a line. *)
Lemma cut_at_line_no_marker (marker : string) (b : bool) (t pre rest : string) :
  marker <> "" ->
  cut_at_line marker b t = (pre ++ marker ++ rest)%string ->
  match pre with
  | EmptyString => b = false
  | _ => ends_lf pre = false
  end.
Proof.
  intro Hm. revert b pre. induction t as [| a t IH]; intros b pre H.
  - exfalso. cbn [cut_at_line] in H.
    assert (E : (pre ++ marker ++ rest)%string = "")
      by (destruct (b && startswith "" marker); congruence).
    apply append_nil_inv in E. destruct E as [_ E].
    apply append_nil_inv in E. now destruct E.
  - cbn [cut_at_line] in H.
    destruct (b && startswith (String a t) marker) eqn:E.
    + exfalso. symmetry in H. apply append_nil_inv in H.
      destruct H as [_ H]. apply append_nil_inv in H. now destruct H.
    + destruct pre as [| x pre].
      * destruct b; [exfalso | reflexivity]. cbn [andb append] in *.
        destruct (cut_at_line_prefix marker (Ascii.eqb a "010") t)
          as [more [H1 _]].
        assert (F : String a t = (marker ++ (rest ++ more))%string).
        { rewrite <- append_assoc, <- H. simpl. now f_equal. }
        rewrite F, startswith_append in E. discriminate.
      * cbn [append] in H. injection H as <- H.
        specialize (IH _ _ H).
        destruct pre as [| y pre]; cbn [ends_lf]; [| exact IH].
        rewrite IH. reflexivity.
Qed.

(** X7: the text [read_license_file] returns for a license file of the
    directory [emscripten] or [musl] is the text of the file cut before the
    first line that begins with the marker of the package.  No line of the
    returned text begins with the marker; and either the text is the whole
    file, or the file goes on, at the start of a line, with the marker.
    Under a directory of another name the text is returned whole. *)
Theorem license_text_is_cut_at_marker_line (env : Env) (lp : Path)
    (t : string) :
  read_license_file env lp = Returned t ->
  exists full,
    read_text env lp = Some (Text full)
    /\ match cut_marker lp with
       | None => t = full
       | Some marker =>
           ~ begins_line marker t
           /\ (t = full
               \/ exists rest,
                    full = (t ++ marker ++ rest)%string
                    /\ (t = "" \/ ends_lf t = true))
       end.
Proof.
  unfold read_license_file, cut_marker.
  destruct (read_text env lp) as [[full | head] |]; try discriminate.
  intro H. exists full. split; [reflexivity |].
  assert (G : forall marker,
             marker <> "" ->
             t = cut_at_line marker true full ->
             ~ begins_line marker t
             /\ (t = full
                 \/ exists rest,
                      full = (t ++ marker ++ rest)%string
                      /\ (t = "" \/ ends_lf t = true))).
  { intros marker Hm ->. split.
    - intros [pre [rest [E Hpre]]].
      apply cut_at_line_no_marker in E; [| exact Hm].
      destruct pre; destruct Hpre; congruence.
    - destruct (cut_at_line_start marker true full) as [rest [H1 H2]].
      destruct H2 as [-> | [H2 H3]].
      + left. now rewrite append_nil_r in H1.
      + right. apply startswith_split in H2. rewrite H2 in H1.
        exists (drop (String.length marker) rest). split; [exact H1 |].
        destruct (cut_at_line marker true full); [now left | now right]. }
  destruct (String.eqb (Path_name (Path_parent lp)) "emscripten").
  - injection H as <-. now apply G.
  - destruct (String.eqb (Path_name (Path_parent lp)) "musl").
    + injection H as <-. now apply G.
    + now injection H as <-.
Qed.

Lemma license_text_is_cut_at_marker_line_witness :
  exists full,
    read_text node_world emscripten_LICENSE = Some (Text full)
    /\ match cut_marker emscripten_LICENSE with
       | None => text ["MIT license text"; ""] = full
       | Some marker =>
           ~ begins_line marker (text ["MIT license text"; ""])
           /\ (text ["MIT license text"; ""] = full
               \/ exists rest,
                    full = (text ["MIT license text"; ""] ++ marker ++ rest)%string
                    /\ (text ["MIT license text"; ""] = ""
                        \/ ends_lf (text ["MIT license text"; ""]) = true))
       end.
Proof.
  apply (license_text_is_cut_at_marker_line node_world emscripten_LICENSE).
  reflexivity.
Defined.

(** The file of the example holds a line that begins with the marker: the
    returned text is shorter than the file. *)
Lemma node_appendix_is_cut :
  read_license_file node_world emscripten_LICENSE
  = Returned (text ["MIT license text"; ""])
  /\ begins_line "This program uses portions of Node"
       (text ["MIT license text"; "";
              "This program uses portions of Node modules."; "Node license"]).
Proof.
  split; [reflexivity |].
  exists (text ["MIT license text"; ""]), (text [" modules."; "Node license"]).
  split; [reflexivity | now right].
Qed.

(** ** Groups as a partition *)

Lemma first_occurrences_complete (k : Key) (keys : list Key) :
  In k keys -> In k (first_occurrences keys).
Proof.
  induction keys as [| k' keys IH]; simpl; [trivial |].
  destruct (Key_eq_dec k' k) as [-> | Hne]; [now left |].
  intros [-> | H]; [now left | right].
  apply filter_In. split; [now apply IH |].
  apply negb_true_iff, Key_eqb_neq. congruence.
Qed.

Lemma first_occurrences_nodup (keys : list Key) :
  NoDup (first_occurrences keys).
Proof.
  induction keys as [| k keys IH]; simpl; constructor.
  - intro H. apply filter_In in H. destruct H as [_ H].
    now rewrite Key_eqb_refl in H.
  - now apply NoDup_filter.
Qed.

Lemma filter_disjoint_perm {A : Type} (f g : A -> bool) (l : list A) :
  (forall x, f x = true -> g x = false) ->
  Permutation (filter f l ++ filter g l) (filter (fun x => f x || g x) l).
Proof.
  intro H. induction l as [| a l IH]; simpl; [constructor |].
  destruct (f a) eqn:Ef; simpl.
  - rewrite (H a Ef). now constructor.
  - destruct (g a); simpl; [| exact IH].
    rewrite <- IH. symmetry. apply Permutation_middle.
Qed.

Lemma members_of_keys (q : list LicenseInfo) (keys : list Key) :
  NoDup keys ->
  Permutation
    (flat_map (fun k => filter (fun i => Key_eqb k (key_of i)) q) keys)
    (filter (fun i => key_mem (key_of i) keys) q).
Proof.
  induction 1 as [| k keys Hk _ IH]; simpl.
  - induction q as [| i q IHq]; simpl; [constructor | exact IHq].
  - rewrite IH.
    rewrite filter_disjoint_perm.
    + erewrite filter_ext; [reflexivity |].
      intro i. simpl. now rewrite (Key_eqb_sym (key_of i) k).
    + intros i E. apply Key_eqb_eq in E. subst k.
      now apply key_mem_not_In.
Qed.

(** X8: the groups partition the records that were found: the keys of the
    dictionary are pairwise different, every group is the non-empty list of
    the records with its key, in input order, and the groups taken together
    hold every found record exactly once. *)
Theorem groups_partition_the_records (infos : list (option LicenseInfo)) :
  NoDup (map fst (build_groups infos))
  /\ Permutation (flat_map snd (build_groups infos)) (present infos)
  /\ (forall key items,
         In (key, items) (build_groups infos) ->
         items <> []
         /\ items = filter (fun i => Key_eqb key (key_of i)) (present infos)).
Proof.
  split; [| split].
  - rewrite build_groups_in_order. unfold groups_in_order.
    rewrite map_map. cbn [fst]. rewrite map_id.
    apply first_occurrences_nodup.
  - rewrite build_groups_in_order. unfold groups_in_order.
    rewrite flat_map_concat_map, map_map. cbn [snd].
    rewrite <- flat_map_concat_map. unfold members, group_keys.
    rewrite members_of_keys by apply first_occurrences_nodup.
    erewrite filter_ext_in; [| intros i Hi; apply key_mem_In,
      first_occurrences_complete, in_map, Hi].
    clear. induction (present infos) as [| i q IH]; simpl; now rewrite ?IH.
  - intros key items H.
    split.
    + now apply groups_nonempty in H.
    + rewrite build_groups_in_order in H. unfold groups_in_order in H.
      apply in_map_iff in H. now destruct H as [k [[= <- <-] _]].
Qed.

(** ** What does not count *)

Lemma emitted_length (env : Env) (g : Key * list LicenseInfo) :
  List.length (emitted env g) <= 1.
Proof.
  unfold emitted. destruct (emit_group env (fst g) (snd g)) as [[d |] | e |];
    simpl; lia.
Qed.

Lemma flat_map_length_le {A B : Type} (f : A -> list B) (l : list A) :
  (forall a, List.length (f a) <= 1) ->
  List.length (flat_map f l) <= List.length l.
Proof.
  intro H. induction l as [| a l IH]; simpl; [lia |].
  rewrite length_app. specialize (H a). lia.
Qed.

Lemma first_occurrences_length (keys : list Key) :
  List.length (first_occurrences keys) <= List.length keys.
Proof.
  induction keys as [| k keys IH]; simpl; [lia |].
  pose proof (filter_length_le (fun k' => negb (Key_eqb k' k))
                (first_occurrences keys)). lia.
Qed.

(** X9: the output has at most one entry for each group and there are at
    most as many groups as there are records, so the emitted array is never
    longer than the list of found records. *)
Theorem output_is_no_longer_than_input (env : Env)
    (infos : list (option LicenseInfo)) (deps : list Dependency) :
  group_dependencies env infos = Returned deps ->
  List.length deps <= List.length (build_groups infos)
  /\ List.length (build_groups infos) <= List.length (present infos)
  /\ List.length (present infos) <= List.length infos.
Proof.
  intro H. unfold group_dependencies in H.
  apply emit_groups_flat in H. subst deps. split; [| split].
  - apply flat_map_length_le, emitted_length.
  - rewrite build_groups_in_order. unfold groups_in_order, group_keys.
    rewrite length_map. etransitivity; [apply first_occurrences_length |].
    now rewrite length_map.
  - unfold present. apply flat_map_length_le. intros [i |]; simpl; lia.
Qed.

Lemma output_is_no_longer_than_input_witness :
  List.length [dep_x; dep_c]
  <= List.length (build_groups [Some llvm_a; Some llvm_b; None; Some info_c])
  /\ List.length (build_groups [Some llvm_a; Some llvm_b; None; Some info_c])
     <= List.length (present [Some llvm_a; Some llvm_b; None; Some info_c])
  /\ List.length (present [Some llvm_a; Some llvm_b; None; Some info_c])
     <= List.length [Some llvm_a; Some llvm_b; None; Some info_c].
Proof.
  apply (output_is_no_longer_than_input llvm_world).
  vm_compute. reflexivity.
Defined.

Lemma mapM_app {A B : Type} (f : A -> outcome B) (l1 l2 : list A) :
  mapM f (l1 ++ l2)
  = (a <- mapM f l1 ;; b <- mapM f l2 ;; Returned (a ++ b)).
Proof.
  induction l1 as [| x l1 IH]; cbn [mapM app bind].
  - destruct (mapM f l2); reflexivity.
  - destruct (f x) as [y | e |]; cbn [bind]; try reflexivity.
    rewrite IH. destruct (mapM f l1) as [a | e |]; cbn [bind];
      try reflexivity.
    destruct (mapM f l2); reflexivity.
Qed.

Lemma present_substitute_skip (lp : Path) (a b : list (option LicenseInfo)) :
  present (map (substitute_emscripten lp) (a ++ None :: b))
  = present (map (substitute_emscripten lp) (a ++ b)).
Proof.
  unfold present. rewrite !map_app, !flat_map_app. reflexivity.
Qed.

Lemma group_dependencies_present (env : Env)
    (l1 l2 : list (option LicenseInfo)) :
  present l1 = present l2 ->
  group_dependencies env l1 = group_dependencies env l2.
Proof.
  intro H. unfold group_dependencies. rewrite !build_groups_in_order.
  unfold groups_in_order, group_keys, members. now rewrite H.
Qed.

(** [find_license_info] answers [None] for a path of which [is_file] says
    that it is no file, and for no other path. *)
Lemma find_license_info_None (fuel : nat) (env : Env) (sp : Path) :
  find_license_info fuel env sp = Returned None <-> is_file env sp = Some false.
Proof.
  unfold find_license_info. destruct (is_file env sp) as [[|] |]; cbn [negb].
  - split; [| discriminate].
    destruct (extract_license_from_source fuel env sp) as [[i |] | e |];
      cbn [bind]; try discriminate.
    destruct (find_license_loop_outcomes fuel env sp (Path_parent sp))
      as [H | [[e H] | [lp H]]]; unfold find_license_file; rewrite H;
      discriminate.
  - split; reflexivity.
  - split; discriminate.
Qed.

(** X10: a listed path of which [is_file] answers that it is no file adds
    nothing and disturbs nothing: the dependencies of a list of paths that
    holds it are the dependencies of the list without it, whatever the other
    paths are and also when the run raises or runs on.  (A path for which
    [is_file] itself raises is another matter: there the run stops.) *)
Theorem path_that_is_no_file_is_skipped (fuel : nat) (env : Env)
    (lp p : Path) (ps1 ps2 : list Path) :
  is_file env p = Some false ->
  find_license_info fuel env p = Returned None
  /\ dependencies_of_paths fuel env lp (ps1 ++ p :: ps2)
     = dependencies_of_paths fuel env lp (ps1 ++ ps2).
Proof.
  intro H. apply find_license_info_None with (fuel := fuel) in H.
  split; [exact H |].
  unfold dependencies_of_paths. rewrite !mapM_app. cbn [mapM]. rewrite H.
  cbn [bind].
  destruct (mapM (find_license_info fuel env) ps1) as [a | e |]; cbn [bind];
    try reflexivity.
  destruct (mapM (find_license_info fuel env) ps2) as [b | e |]; cbn [bind];
    try reflexivity.
  apply group_dependencies_present, present_substitute_skip.
Qed.

Lemma path_that_is_no_file_is_skipped_witness :
  find_license_info 10 llvm_world (Path_of_string "/x/gone.c") = Returned None
  /\ dependencies_of_paths 10 llvm_world e_LICENSE
       ([x_a] ++ Path_of_string "/x/gone.c" :: [x_b; y_c])
     = dependencies_of_paths 10 llvm_world e_LICENSE ([x_a] ++ [x_b; y_c]).
Proof.
  apply (path_that_is_no_file_is_skipped 10 llvm_world e_LICENSE).
  reflexivity.
Defined.

Lemma collect_dependencies_paths (fuel : nat) (env : Env) (lp : Path)
    (sources : string) :
  collect_dependencies fuel env lp sources
  = dependencies_of_paths fuel env lp
      (map (fun source => Path_of_string (strip source)) (split_lines sources)).
Proof. reflexivity. Qed.

(** X11: [find_license_info] answers [None] exactly for the paths of which
    [is_file] answers that they are no files.  When [is_file] raises, the
    exception is passed on; for a path that is a file the function returns a
    record, raises or runs on, so the branch that reports that no license
    information was located is taken for no path. *)
Theorem no_record_only_for_paths_that_are_no_files :
  forall fuel env sp,
    (find_license_info fuel env sp = Returned None
     <-> is_file env sp = Some false)
    /\ (is_file env sp = None ->
        find_license_info fuel env sp = Raised OSError)
    /\ (is_file env sp = Some true ->
        (exists info, find_license_info fuel env sp = Returned (Some info))
        \/ (exists e, find_license_info fuel env sp = Raised e)
        \/ find_license_info fuel env sp = OutOfFuel).
Proof.
  intros fuel env sp. split; [apply find_license_info_None | split].
  - intro Hf. unfold find_license_info. now rewrite Hf.
  - intro Hf. pose proof (find_license_info_None fuel env sp) as H.
    destruct (find_license_info fuel env sp) as [[info |] | e |]; eauto.
    destruct H as [H _]. rewrite H in Hf; [discriminate | reflexivity].
Qed.

(** ** Sources under Emscripten's notice *)

Lemma substitute_key (lp : Path) (info : LicenseInfo) :
  has_emscripten_notice info = true \/ license_path info = Some lp ->
  exists info',
    substitute_emscripten lp (Some info) = Some info'
    /\ key_of info' = KPath lp
    /\ source_path info' = source_path info
    /\ license info' = license info
    /\ copyright info' = copyright info.
Proof.
  unfold has_emscripten_notice, substitute_emscripten.
  intros [H | H].
  - destruct (notice info) as [n |]; [| discriminate]. rewrite H.
    eexists. split; [reflexivity |]. now repeat split.
  - destruct (notice info) as [n |] eqn:En.
    + destruct (startswith (strip n) EMSCRIPTEN_NOTICE).
      * eexists. split; [reflexivity |]. now repeat split.
      * exists info. unfold key_of. rewrite H. now repeat split.
    + exists info. unfold key_of. rewrite H. now repeat split.
Qed.

Lemma first_occurrences_one (k : Key) (keys : list Key) :
  Forall (fun k' => k' = k) keys -> keys <> [] -> first_occurrences keys = [k].
Proof.
  induction 1 as [| k' keys -> _ IH]; [congruence |]. intros _.
  cbn [first_occurrences]. f_equal.
  destruct keys as [| k2 keys]; [reflexivity |].
  rewrite IH by discriminate. cbn [filter]. now rewrite Key_eqb_refl.
Qed.

Lemma groups_of_one_key (k : Key) (infos : list LicenseInfo) :
  Forall (fun i => key_of i = k) infos -> infos <> [] ->
  build_groups (map Some infos) = [(k, infos)].
Proof.
  intros Hall Hne. rewrite build_groups_in_order.
  unfold groups_in_order, group_keys, members.
  assert (Hp : present (map Some infos) = infos).
  { clear. induction infos as [| i l IH]; simpl; [reflexivity |].
    f_equal. exact IH. }
  rewrite Hp, (first_occurrences_one k).
  - cbn [map]. do 2 f_equal.
    clear Hne Hp. induction Hall as [| i l Hi _ IH]; [reflexivity |].
    cbn [filter]. rewrite Hi, Key_eqb_refl. f_equal. exact IH.
  - apply Forall_map. exact Hall.
  - destruct infos; [congruence | discriminate].
Qed.

(** X12: after the substitution of [main], all sources whose notice begins
    with Emscripten's preamble, together with all sources whose discovered
    license file is Emscripten's LICENSE, make one single group keyed by
    that file, whatever their notices and directories; the group lists them
    in input order, with their paths, licenses and copyright strings
    unchanged. *)
Theorem emscripten_sources_make_one_group (lp : Path)
    (infos : list LicenseInfo) :
  infos <> [] ->
  Forall (fun i => has_emscripten_notice i = true \/ license_path i = Some lp)
         infos ->
  exists items,
    build_groups (map (substitute_emscripten lp) (map Some infos))
    = [(KPath lp, items)]
    /\ map source_path items = map source_path infos
    /\ map license items = map license infos
    /\ map copyright items = map copyright infos.
Proof.
  intros Hne Hall.
  assert (G : exists items,
             map (substitute_emscripten lp) (map Some infos) = map Some items
             /\ Forall (fun i => key_of i = KPath lp) items
             /\ map source_path items = map source_path infos
             /\ map license items = map license infos
             /\ map copyright items = map copyright infos).
  { clear Hne. induction Hall as [| i l Hi _ [items [E [Hk [H1 [H2 H3]]]]]].
    - exists []. repeat split. constructor.
    - destruct (substitute_key lp i Hi) as [i' [Ei [Ki [S1 [S2 S3]]]]].
      exists (i' :: items). cbn [map]. rewrite Ei, E, S1, S2, S3, H1, H2, H3.
      repeat split. now constructor. }
  destruct G as [items [E [Hk [H1 [H2 H3]]]]].
  exists items. rewrite E. split; [| now repeat split].
  apply groups_of_one_key; [exact Hk |].
  intros ->. destruct infos; [congruence | discriminate].
Qed.

Lemma emscripten_sources_make_one_group_witness :
  exists items,
    build_groups
      (map (substitute_emscripten e_LICENSE)
           (map Some
                [mkLicenseInfo x_a None (Some "Copyright 2011 The Emscripten Authors")
                   (Some (EMSCRIPTEN_NOTICE ++ ": MIT and NCSA")%string)
                   None;
                 mkLicenseInfo y_c None None None (Some e_LICENSE);
                 mkLicenseInfo x_b (Some "MIT") (Some "(c) 2020 Foo")
                   (Some (ln "  " ++ EMSCRIPTEN_NOTICE ++ ".")%string) None]))
    = [(KPath e_LICENSE, items)]
    /\ map source_path items = [x_a; y_c; x_b]
    /\ map license items = [None; None; Some "MIT"]
    /\ map copyright items
       = [Some "Copyright 2011 The Emscripten Authors"; None;
          Some "(c) 2020 Foo"].
Proof.
  apply (emscripten_sources_make_one_group e_LICENSE).
  - discriminate.
  - repeat constructor; (now left) || (now right).
Defined.

(** ** Names of groups *)

Lemma list_leb_refl (l : list string) : list_leb l l = true.
Proof.
  induction l as [| a l IH]; simpl; [reflexivity |].
  now rewrite String.eqb_refl.
Qed.

Lemma min_below_max (ls : list (list string)) (m M : list string) :
  list_leb m M = true ->
  list_leb (list_min m ls) (list_max M ls) = true.
Proof.
  unfold list_min, list_max. revert m M.
  induction ls as [| l ls IH]; intros m M H; [exact H |].
  cbn [fold_left]. apply IH.
  destruct (list_leb m l) eqn:E1, (list_leb l M) eqn:E2; auto.
  apply list_leb_refl.
Qed.

Lemma common_prefix_returns (s1 s2 : list string) :
  list_leb s1 s2 = true -> exists r, common_prefix s1 s2 = Returned r.
Proof.
  revert s2. induction s1 as [| a s1 IH]; intros s2 H; [simpl; eauto |].
  destruct s2 as [| b s2]; [discriminate |]. simpl in *.
  destruct (String.eqb a b); [| eauto].
  destruct (IH s2 H) as [r Hr]. rewrite Hr. simpl. eauto.
Qed.

Lemma forallb_map_eq {A B : Type} (f : B -> bool) (g : A -> B) (l : list A) :
  forallb f (map g l) = forallb (fun x => f (g x)) l.
Proof.
  induction l as [| a l IH]; simpl; [reflexivity | now rewrite IH].
Qed.

Lemma commonpath_outcomes (paths : list string) :
  match commonpath paths with
  | Returned _ =>
      paths <> []
      /\ forallb (fun p => Bool.eqb (startswith p "/")
                            (startswith (hd "" paths) "/")) paths = true
  | Raised e =>
      e = ValueError
      /\ (paths = []
          \/ forallb (fun p => Bool.eqb (startswith p "/")
                               (startswith (hd "" paths) "/")) paths = false)
  | OutOfFuel => False
  end.
Proof.
  unfold commonpath. destruct paths as [| p0 rest]; [split; auto |].
  cbn [hd].
  destruct (forallb _ (p0 :: rest)) eqn:E; [| split; auto].
  set (sp := map (fun p => filter keep_part (split_on "/" p)) (p0 :: rest)).
  destruct (common_prefix_returns (list_min (hd [] sp) sp)
              (list_max (hd [] sp) sp)) as [r Hr].
  { apply min_below_max, list_leb_refl. }
  rewrite Hr. cbn [bind]. split; [discriminate | reflexivity].
Qed.

Lemma same_kind_of_paths_spec (items : list LicenseInfo) :
  items <> [] ->
  forallb (fun p => Bool.eqb (startswith p "/")
                      (startswith
                         (hd "" (map (fun it => Path_str (source_path it)) items))
                         "/"))
          (map (fun it => Path_str (source_path it)) items)
  = same_kind_of_paths items.
Proof.
  destruct items as [| i0 rest]; [congruence |]. intros _.
  unfold same_kind_of_paths, is_absolute.
  rewrite forallb_map_eq. reflexivity.
Qed.

(** X13: computing the name of a group never runs on and fails in two ways
    only.  It raises [AttributeError] exactly when the group has not one
    member, is keyed by a path and its representative names no license file
    (a group of records keyed by one source path); it raises [ValueError]
    exactly when the group has not one member, is keyed by a notice text and
    its source paths are not all absolute or all relative.  No other
    exception comes out of it. *)
Theorem group_name_failures :
  forall key item items,
    ((exists name, group_name key item items = Returned name)
     \/ (exists e, group_name key item items = Raised e))
    /\ (forall e,
           group_name key item items = Raised e <->
           List.length items <> 1
           /\ ((e = AttributeError
                /\ (exists p, key = KPath p) /\ license_path item = None)
               \/ (e = ValueError
                   /\ (exists s, key = KStr s)
                   /\ same_kind_of_paths items = false))).
Proof.
  intros key item items. unfold group_name.
  destruct (Nat.eqb_spec (List.length items) 1) as [E1 | E1].
  - split; [eauto |]. intro e. split; [discriminate |].
    intros [H _]. contradiction.
  - destruct key as [p | s].
    + destruct (license_path item) as [lp |] eqn:El.
      * split; [eauto |]. intro e. split; [discriminate |].
        intros [_ [[_ [_ H]] | [_ [[s Hs] _]]]]; discriminate.
      * split; [eauto |]. intro e. split.
        -- intros [= <-]. split; [exact E1 | left]. eauto.
        -- intros [_ [[-> _] | [_ [[s Hs] _]]]]; [reflexivity | discriminate].
    + pose proof (commonpath_outcomes
                    (map (fun it => Path_str (source_path it)) items)) as Hc.
      pose proof (same_kind_of_paths_spec items) as Hk.
      destruct (commonpath _) as [cp | e0 |]; cbn [bind].
      * destruct Hc as [Hne Hf].
        assert (Hi : items <> []) by (intros ->; now apply Hne).
        rewrite (Hk Hi) in Hf.
        split; [destruct (negb (String.eqb cp "")); eauto |].
        intro e. split; [destruct (negb (String.eqb cp "")); discriminate |].
        intros [_ [[_ [[p Hp] _]] | [_ [_ Hm]]]]; [discriminate | congruence].
      * destruct Hc as [-> Hc]. split; [eauto |]. intro e. split.
        -- intros [= <-]. split; [exact E1 | right].
           split; [reflexivity | split; [eauto |]].
           destruct items as [| i0 its]; [reflexivity |].
           destruct Hc as [Hc | Hc]; [discriminate |].
           now rewrite <- Hk.
        -- intros [_ [[_ [[p Hp] _]] | [-> _]]]; [discriminate | reflexivity].
      * contradiction.
Qed.

(** ** The entry of a group that shares a license file *)

Lemma group_copyrights_none (env : Env) (items : list LicenseInfo) :
  set_order_ok env -> member_copyrights items = [] ->
  group_copyrights env items = [].
Proof.
  intros Hs Hm. rewrite group_copyrights_spec by assumption.
  now rewrite Hm.
Qed.

(** X14: sources that were given the same license file by the discovery end
    in one entry whose notice is the trimmed text of that file, unchanged,
    and whose license is inferred from that text; the entry is named after
    the directory of the license file when the group has several members
    and after the source file when it has one, and it is left out when the
    text is under the LLVM exception. *)
Theorem license_file_group_entry (env : Env) (lp sp : Path)
    (rest : list LicenseInfo) (license_text : string) :
  set_order_ok env ->
  read_license_file env lp = Returned license_text ->
  member_copyrights rest = [] ->
  emit_group env (KPath lp) (mkLicenseInfo sp None None None (Some lp) :: rest)
  = Returned
      (if match infer_license_identifier license_text with
          | Some l => String.eqb l SPDX_IDENTIFIER_LLVM_EXCEPTION
          | None => false
          end
       then None
       else Some (mkDependency
                    (match rest with
                     | [] => Path_name sp
                     | _ => Path_name (Path_parent lp)
                     end)
                    (infer_license_identifier license_text)
                    license_text)).
Proof.
  intros Hs Hr Hm. unfold emit_group, resolve_notice, resolve_license.
  cbn [notice license_path license]. rewrite Hr. cbn [bind].
  assert (Hn : group_name (KPath lp) (mkLicenseInfo sp None None None (Some lp))
                 (mkLicenseInfo sp None None None (Some lp) :: rest)
               = Returned (match rest with
                           | [] => Path_name sp
                           | _ => Path_name (Path_parent lp)
                           end)).
  { unfold group_name. destruct rest; reflexivity. }
  rewrite Hn. cbn [bind].
  rewrite group_copyrights_none; [| assumption | exact Hm].
  destruct (match infer_license_identifier license_text with
            | Some l => String.eqb l SPDX_IDENTIFIER_LLVM_EXCEPTION
            | None => false
            end); reflexivity.
Qed.

Lemma license_file_group_entry_witness :
  emit_group licensed_world (KPath p_LICENSE)
    [mkLicenseInfo p_q_m None None None (Some p_LICENSE);
     mkLicenseInfo x_a None None None (Some p_LICENSE)]
  = Returned (Some (mkDependency "p" (Some "MIT")
                      (ln "Released under the MIT license."))).
Proof.
  exact (license_file_group_entry licensed_world p_LICENSE p_q_m
           [mkLicenseInfo x_a None None None (Some p_LICENSE)]
           (ln "Released under the MIT license.")
           (fun l => Permutation_refl _) eq_refl eq_refl).
Defined.

(** ** Inference and the layout of a notice *)

Lemma collapse_single_spaced (t : string) :
  (forall st, single_spaced_aux st false t = true ->
              collapse_ws_aux false t = t)
  /\ (forall st, single_spaced_aux st true t = true ->
                 collapse_ws_aux true t = t).
Proof.
  induction t as [| a t [IH1 IH2]]; [split; reflexivity |].
  split; intros st H; cbn [single_spaced_aux collapse_ws_aux] in *;
    destruct (isspace a) eqn:E.
  - apply andb_true_iff in H. destruct H as [H H4].
    apply andb_true_iff in H. destruct H as [H _].
    apply andb_true_iff in H. destruct H as [H _].
    apply Ascii.eqb_eq in H. subst a. f_equal. now apply (IH2 false).
  - f_equal. now apply (IH1 false).
  - apply andb_true_iff in H. destruct H as [H _].
    apply andb_true_iff in H. destruct H as [_ H]. discriminate.
  - f_equal. now apply (IH1 false).
Qed.

Lemma rstrip_single_spaced (t : string) (st sp : bool) :
  single_spaced_aux st sp t = true -> rstrip t = t.
Proof.
  revert st sp. induction t as [| a t IH]; intros st sp H; [reflexivity |].
  cbn [single_spaced_aux] in H. cbn [rstrip].
  destruct (isspace a) eqn:E.
  - apply andb_true_iff in H. destruct H as [_ H].
    rewrite (IH _ _ H). destruct t; [discriminate | reflexivity].
  - rewrite (IH _ _ H). now destruct t.
Qed.

Lemma strip_single_spaced (t : string) :
  single_spaced t = true -> strip t = t.
Proof.
  unfold single_spaced, strip. intro H.
  assert (E : lstrip t = t).
  { destruct t as [| a t]; [reflexivity |].
    cbn [single_spaced_aux] in H. cbn [lstrip].
    destruct (isspace a); [| reflexivity].
    apply andb_true_iff in H. destruct H as [H _].
    apply andb_true_iff in H. destruct H as [H _].
    apply andb_true_iff in H. destruct H as [_ H]. discriminate. }
  rewrite E. eapply rstrip_single_spaced, H.
Qed.

Lemma normalize_idem (n : string) : normalize (normalize n) = normalize n.
Proof.
  pose proof (single_spaced_normalize n) as H.
  unfold normalize at 1. rewrite (strip_single_spaced _ H).
  unfold collapse_ws. now apply (proj1 (collapse_single_spaced _) true).
Qed.

(** X15: the comparison text of the inference is a normal form: building it
    again changes nothing, and stripping the notice first changes nothing.
    So the inferred identifier is the same for a notice, for its stripped
    form and for its comparison text, and the same for any two notices that
    differ only in how their words are separated by white space. *)
Theorem inference_ignores_layout :
  forall n,
    normalize (normalize n) = normalize n
    /\ normalize (strip n) = normalize n
    /\ infer_license_identifier (normalize n) = infer_license_identifier n
    /\ infer_license_identifier (strip n) = infer_license_identifier n
    /\ (forall n', normalize n' = normalize n ->
                   infer_license_identifier n' = infer_license_identifier n).
Proof.
  intro n.
  assert (Hs : normalize (strip n) = normalize n)
    by (unfold normalize; now rewrite strip_idem).
  assert (G : forall a b, normalize a = normalize b ->
                          infer_license_identifier a
                          = infer_license_identifier b).
  { intros a b H. unfold infer_license_identifier. now rewrite H. }
  repeat split.
  - apply normalize_idem.
  - exact Hs.
  - apply G, normalize_idem.
  - apply G, Hs.
  - intros n' H. now apply G.
Qed.

Lemma inference_ignores_layout_witness :
  infer_license_identifier
    (text ["  Released   under"; "  the MIT"; "  license. "])
  = infer_license_identifier "Released under the MIT license.".
Proof.
  apply (proj2 (proj2 (proj2 (proj2
           (inference_ignores_layout "Released under the MIT license."))))).
  vm_compute. reflexivity.
Defined.

(** ** Records that reach the grouping *)

Lemma extract_lines_fields (fuel : nat) (sp : Path) (f : list string)
    (tail : ending) (info : LicenseInfo) :
  extract_lines fuel sp f tail = Returned (Some info) ->
  source_path info = sp /\ license_path info = None.
Proof.
  induction f as [| line f IH]; cbn [extract_lines];
    [destruct tail; discriminate |].
  destruct (String.eqb line ""); [discriminate |].
  destruct (match match search_spdx line with
                  | Some l => Some (strip l)
                  | None => None
                  end with
            | Some l => String.eqb l SPDX_IDENTIFIER_LLVM_EXCEPTION
            | None => false
            end); [now intros [= <-] |].
  destruct (match_copyright_line line) as [[[leader c] cp] |]; [| exact IH].
  destruct (notice_loop _ _ _ _ _ _ _) as [n | e |]; cbn [bind];
    try discriminate.
  now intros [= <-].
Qed.

Lemma extract_fields (fuel : nat) (env : Env) (sp : Path) (info : LicenseInfo) :
  extract_license_from_source fuel env sp = Returned (Some info) ->
  source_path info = sp /\ license_path info = None.
Proof.
  unfold extract_license_from_source.
  destruct (read_text env sp) as [[t | t] |]; [| | discriminate];
    apply extract_lines_fields.
Qed.

Lemma find_license_loop_found (fuel : nat) (env : Env) (sp directory : Path)
    (info : LicenseInfo) :
  find_license_loop fuel env sp directory = Returned (Some info) ->
  exists n names name,
    n < fuel
    /\ (forall i, i < n ->
                  exists ns,
                    iterdir env (Nat.iter i Path_parent directory) = Some ns
                    /\ filter re_licence_filename_match ns = [])
    /\ iterdir env (Nat.iter n Path_parent directory) = Some names
    /\ filter re_licence_filename_match names = [name]
    /\ info = mkLicenseInfo sp None None None
                (Some (Path_child (Nat.iter n Path_parent directory) name)).
Proof.
  revert directory. induction fuel as [| fuel IH]; intro directory;
    [discriminate |].
  cbn [find_license_loop Path_truthy].
  destruct (iterdir env directory) as [names |] eqn:Ed; [| discriminate].
  rewrite length_map.
  destruct (filter re_licence_filename_match names) as [| name rest] eqn:Ef.
  - cbn [List.length map]. change (1 <? 0)%nat with false. cbv iota.
    intro H. destruct (IH _ H) as [n [ns [nm [Hn [Hnone [Hd [Hf Hi]]]]]]].
    exists (S n), ns, nm. rewrite Nat.iter_succ_r.
    split; [lia |]. split; [| now repeat split].
    intros [| i] Hi'.
    + exists names. now split.
    + rewrite Nat.iter_succ_r. apply Hnone. lia.
  - destruct rest as [| name2 rest]; [| discriminate].
    cbn [List.length map]. change (1 <? 1)%nat with false. cbv iota.
    intros [= <-]. exists 0, names, name.
    split; [lia |]. split; [intros i Hi; lia |]. now repeat split.
Qed.

(** X16: a record that [find_license_info] returns, once the substitution of
    [main] has been applied to it, still belongs to the path that was asked
    and never has both a notice of its own and a license file.  When it
    names a license file, that file is Emscripten's LICENSE or the single
    candidate listed by the nearest directory above the source that lists
    any, and in the latter case the record holds nothing else. *)
Theorem record_has_one_source_of_text (fuel : nat) (env : Env) (lp sp : Path)
    (info : LicenseInfo) :
  find_license_info fuel env sp = Returned (Some info) ->
  exists info',
    substitute_emscripten lp (Some info) = Some info'
    /\ source_path info' = sp
    /\ (notice info' = None \/ license_path info' = None)
    /\ (forall lp',
           license_path info' = Some lp' ->
           lp' = lp
           \/ exists n names name,
                (forall i, i < n ->
                   exists ns,
                     iterdir env (Nat.iter i Path_parent (Path_parent sp))
                     = Some ns
                     /\ filter re_licence_filename_match ns = [])
                /\ iterdir env (Nat.iter n Path_parent (Path_parent sp))
                   = Some names
                /\ filter re_licence_filename_match names = [name]
                /\ lp' = Path_child (Nat.iter n Path_parent (Path_parent sp))
                           name
                /\ info' = mkLicenseInfo sp None None None (Some lp')).
Proof.
  unfold find_license_info.
  destruct (is_file env sp) as [[|] |]; cbn [negb]; try discriminate.
  destruct (extract_license_from_source fuel env sp) as [[i |] | e |] eqn:Ex;
    cbn [bind]; try discriminate.
  - intros [= <-]. apply extract_fields in Ex. destruct Ex as [Hs Hl].
    unfold substitute_emscripten.
    destruct (notice i) as [n |] eqn:En.
    + destruct (startswith (strip n) EMSCRIPTEN_NOTICE).
      * eexists. split; [reflexivity |].
        cbn [source_path notice license_path].
        split; [exact Hs |]. split; [now left |].
        intros lp' [= <-]. now left.
      * exists i. split; [reflexivity |]. split; [exact Hs |].
        split; [now right |]. intros lp' H. congruence.
    + exists i. split; [reflexivity |]. split; [exact Hs |].
      split; [now left |]. intros lp' H. congruence.
  - intro H. apply find_license_loop_found in H.
    destruct H as [n [names [name [_ [Hnone [Hd [Hf ->]]]]]]].
    eexists. split; [reflexivity |].
    cbn [source_path notice license_path].
    split; [reflexivity |]. split; [now left |].
    intros lp' [= <-]. right. exists n, names, name. now repeat split.
Qed.

Lemma record_has_one_source_of_text_witness :
  exists info',
    substitute_emscripten e_LICENSE
      (Some (mkLicenseInfo p_q_m None None None (Some p_LICENSE)))
    = Some info'
    /\ source_path info' = p_q_m
    /\ (notice info' = None \/ license_path info' = None)
    /\ (forall lp',
           license_path info' = Some lp' ->
           lp' = e_LICENSE
           \/ exists n names name,
                (forall i, i < n ->
                   exists ns,
                     iterdir licensed_world
                       (Nat.iter i Path_parent (Path_parent p_q_m))
                     = Some ns
                     /\ filter re_licence_filename_match ns = [])
                /\ iterdir licensed_world
                     (Nat.iter n Path_parent (Path_parent p_q_m))
                   = Some names
                /\ filter re_licence_filename_match names = [name]
                /\ lp' = Path_child
                           (Nat.iter n Path_parent (Path_parent p_q_m)) name
                /\ info' = mkLicenseInfo p_q_m None None None (Some lp')).
Proof.
  apply (record_has_one_source_of_text 5 licensed_world e_LICENSE p_q_m).
  reflexivity.
Defined.

(** ** How a run can fail *)

Lemma notice_loop_raises (fuel : nat) (leader comment prefix : string)
    (f : list string) (tail : ending) (notice : string) (e : exn) :
  notice_loop fuel leader comment prefix f tail notice = Raised e ->
  e = UnicodeDecodeError /\ tail = DecodeError.
Proof.
  revert f notice. induction fuel as [| fuel IH]; intros f notice;
    [discriminate |].
  cbn [notice_loop]. destruct f as [| line f]; cbn [readline].
  - destruct tail; cbn [bind]; [| now intros [= <-]].
    destruct (negb (startswith "" prefix)); [discriminate |].
    destruct (_ && _); [discriminate |].
    destruct (_ && _); [discriminate | apply IH].
  - cbn [bind]. destruct (negb (startswith line prefix)); [discriminate |].
    destruct (_ && _); [discriminate |].
    destruct (_ && _); [discriminate | apply IH].
Qed.

Lemma extract_lines_raises (fuel : nat) (sp : Path) (f : list string)
    (tail : ending) (e : exn) :
  extract_lines fuel sp f tail = Raised e ->
  e = UnicodeDecodeError /\ tail = DecodeError.
Proof.
  induction f as [| line f IH]; cbn [extract_lines].
  - destruct tail; [discriminate | now intros [= <-]].
  - destruct (String.eqb line ""); [discriminate |].
    destruct (match match search_spdx line with
                    | Some l => Some (strip l)
                    | None => None
                    end with
              | Some l => String.eqb l SPDX_IDENTIFIER_LLVM_EXCEPTION
              | None => false
              end); [discriminate |].
    destruct (match_copyright_line line) as [[[leader c] cp] |]; [| exact IH].
    destruct (notice_loop _ _ _ _ _ _ _) as [n | e' |] eqn:En; cbn [bind];
      try discriminate.
    intros [= <-]. eapply notice_loop_raises, En.
Qed.

(** The in-source extraction passes on the [OSError] of [open()], and fails
    to decode only a file that does not decode. *)
Lemma extract_raises (fuel : nat) (env : Env) (sp : Path) (e : exn) :
  extract_license_from_source fuel env sp = Raised e ->
  (e = OSError /\ read_text env sp = None)
  \/ (e = UnicodeDecodeError
      /\ exists head, read_text env sp = Some (Undecodable head)).
Proof.
  unfold extract_license_from_source.
  destruct (read_text env sp) as [[t | t] |].
  - intro H. apply extract_lines_raises in H. now destruct H.
  - intro H. apply extract_lines_raises in H. destruct H as [-> _].
    right. eauto.
  - intros [= <-]. now left.
Qed.

Lemma find_license_loop_raises (fuel : nat) (env : Env) (sp directory : Path)
    (e : exn) :
  find_license_loop fuel env sp directory = Raised e ->
  e = OSError \/ e = TypeError.
Proof.
  revert directory. induction fuel as [| fuel IH]; intro directory;
    [discriminate |].
  cbn [find_license_loop Path_truthy].
  destruct (iterdir env directory) as [names |]; [| intros [= <-]; now left].
  destruct (1 <? _)%nat; [intros [= <-]; now right |].
  destruct (map _ _); [apply IH | discriminate].
Qed.

Lemma find_license_info_raises (fuel : nat) (env : Env) (sp : Path)
    (e : exn) :
  find_license_info fuel env sp = Raised e ->
  e = OSError \/ e = UnicodeDecodeError \/ e = TypeError.
Proof.
  unfold find_license_info.
  destruct (is_file env sp) as [[|] |]; cbn [negb];
    [| discriminate | intros [= <-]; now left].
  destruct (extract_license_from_source fuel env sp) as [[i |] | e' |] eqn:Ex;
    cbn [bind]; try discriminate.
  - intro H. apply find_license_loop_raises in H. tauto.
  - intros [= <-]. apply extract_raises in Ex.
    destruct Ex as [[-> _] | [-> _]]; tauto.
Qed.

Lemma mapM_raises {A B : Type} (f : A -> outcome B) (P : exn -> Prop)
    (l : list A) (e : exn) :
  (forall a e', f a = Raised e' -> P e') ->
  mapM f l = Raised e -> P e.
Proof.
  intro Hf. induction l as [| a l IH]; cbn [mapM]; [discriminate |].
  destruct (f a) as [b | e' |] eqn:Ea; cbn [bind]; try discriminate.
  - destruct (mapM f l) as [bs | e' |]; cbn [bind]; try discriminate.
    intros [= <-]. now apply IH.
  - intros [= <-]. eapply Hf, Ea.
Qed.

Lemma read_license_file_raises (env : Env) (lp : Path) (e : exn) :
  read_license_file env lp = Raised e ->
  e = OSError \/ e = UnicodeDecodeError.
Proof.
  unfold read_license_file.
  destruct (read_text env lp) as [[t | t] |];
    [| intros [= <-]; now right | intros [= <-]; now left].
  destruct (String.eqb _ _); [discriminate |].
  destruct (String.eqb _ _); discriminate.
Qed.

Lemma group_name_raises (key : Key) (item : LicenseInfo)
    (items : list LicenseInfo) (e : exn) :
  group_name key item items = Raised e ->
  e = AttributeError \/ e = ValueError.
Proof.
  unfold group_name. destruct (_ =? 1)%nat; [discriminate |].
  destruct key as [p | s].
  - destruct (license_path item); [discriminate | intros [= <-]; now left].
  - pose proof (commonpath_outcomes
                  (map (fun it => Path_str (source_path it)) items)) as Hc.
    destruct (commonpath _) as [cp | e' |]; cbn [bind].
    + destruct (negb _); discriminate.
    + destruct Hc as [-> _]. intros [= <-]. now right.
    + contradiction.
Qed.

Lemma emit_group_raises (env : Env) (key : Key) (items : list LicenseInfo)
    (e : exn) :
  items <> [] ->
  emit_group env key items = Raised e ->
  raised_while_collecting e.
Proof.
  intro Hne. unfold emit_group, raised_while_collecting.
  destruct items as [| item rest]; [congruence |].
  destruct (resolve_notice env item) as [n | e' |] eqn:Er; cbn [bind].
  - destruct (group_name key item (item :: rest)) as [nm | e' |] eqn:En;
      cbn [bind].
    + destruct (match resolve_license item n with
                | Some l => String.eqb l SPDX_IDENTIFIER_LLVM_EXCEPTION
                | None => false
                end); discriminate.
    + intros [= <-]. apply group_name_raises in En. tauto.
    + discriminate.
  - intros [= <-]. unfold resolve_notice in Er.
    destruct (notice item); [discriminate |].
    destruct (license_path item) as [lp |]; [| discriminate].
    apply read_license_file_raises in Er. tauto.
  - discriminate.
Qed.

Lemma emit_groups_raises (env : Env) (gs : list (Key * list LicenseInfo))
    (e : exn) :
  Forall (fun g => snd g <> []) gs ->
  emit_groups env gs = Raised e ->
  raised_while_collecting e.
Proof.
  induction 1 as [| [k items] gs Hg _ IH]; cbn [emit_groups];
    [discriminate |].
  destruct (emit_group env k items) as [d | e' |] eqn:Ee; cbn [bind].
  - destruct (emit_groups env gs) as [ds | e' |]; cbn [bind];
      try discriminate.
    intros [= <-]. now apply IH.
  - intros [= <-]. eapply emit_group_raises; [exact Hg | exact Ee].
  - discriminate.
Qed.

Lemma group_dependencies_raises (env : Env)
    (infos : list (option LicenseInfo)) (e : exn) :
  group_dependencies env infos = Raised e ->
  raised_while_collecting e.
Proof.
  unfold group_dependencies. apply emit_groups_raises.
  apply Forall_forall. intros [k items] Hin. cbn [snd].
  now apply groups_nonempty in Hin.
Qed.

Lemma collect_dependencies_raises (fuel : nat) (env : Env) (lp : Path)
    (sources : string) (e : exn) :
  collect_dependencies fuel env lp sources = Raised e ->
  raised_while_collecting e.
Proof.
  unfold collect_dependencies.
  destruct (mapM _ _) as [infos | e' |] eqn:Em; cbn [bind];
    try discriminate.
  - apply group_dependencies_raises.
  - intros [= <-].
    eapply (mapM_raises _ raised_while_collecting); [| exact Em].
    intros a e0 H. apply find_license_info_raises in H.
    unfold raised_while_collecting. tauto.
Qed.

(** The body of the [try] statement of [main] *)
Lemma try_body_raises (fuel : nat) (env : Env) (lp : Path) (args : Namespace)
    (e : exn) :
  (text <- readlines (sources args) ;;
   dependencies <- collect_dependencies fuel env lp text ;;
   write (output args) (json_dump dependencies ++ LF)%string) = Raised e ->
  raised_while_collecting e.
Proof.
  unfold raised_while_collecting.
  destruct (sources args) as [[text | head] |]; cbn [readlines bind];
    [| intros [= <-]; tauto | intros [= <-]; tauto].
  destruct (collect_dependencies fuel env lp text) as [deps | e' |] eqn:Ec;
    cbn [bind]; [| | discriminate].
  - destruct (output args); cbn [write]; [discriminate |].
    intros [= <-]. tauto.
  - intros [= <-]. eapply collect_dependencies_raises, Ec.
Qed.

Lemma try_body_returns (fuel : nat) (env : Env) (lp : Path) (args : Namespace)
    (out : string) :
  (text <- readlines (sources args) ;;
   dependencies <- collect_dependencies fuel env lp text ;;
   write (output args) (json_dump dependencies ++ LF)%string) = Returned out ->
  (exists text, sources args = Some (Text text)) /\ output args = true.
Proof.
  destruct (sources args) as [[text | head] |]; cbn [readlines bind];
    try discriminate.
  destruct (collect_dependencies fuel env lp text) as [deps | e' |];
    cbn [bind]; try discriminate.
  destruct (output args); cbn [write]; [eauto | discriminate].
Qed.

(** Closing the two files succeeds when both were opened, and raises
    [AttributeError] when one of them is absent. *)
Lemma cleanup_outcomes (args : Namespace) :
  (sources args <> None /\ output args = true
   /\ (_ <- close (is_Some (sources args)) ;; close (output args))
      = Returned tt)
  \/ ((sources args = None \/ output args = false)
      /\ (_ <- close (is_Some (sources args)) ;; close (output args))
         = Raised AttributeError).
Proof.
  destruct (sources args), (output args); cbn [is_Some close bind];
    [left; repeat split; discriminate | right | right | right];
    split; auto.
Qed.

(** X17: the ways in which a run of [main] fails.  Without an Emscripten
    directory (no flag, and no [emcc] on the search path) it raises
    [TypeError] before anything is read.  It exits with status 1 exactly
    when a directory is known and [is_file] answers that its LICENSE is no
    file.  No other exit status and no [IndexError] ever comes out: what is
    raised is the exit with status 1, [OSError] (a call into the filesystem
    fails), [UnicodeDecodeError] (a file does not decode), [TypeError] (no
    directory, or several license-file candidates in one directory),
    [AttributeError] or [ValueError] (the name of a group cannot be
    computed, or a flag is absent).  A run that writes its output had a
    directory with a LICENSE file, a source list and an output file; and
    when the source list or the output file is absent, a run that gets past
    the LICENSE test and ends, ends with [AttributeError], whatever else was
    raised before. *)
Theorem failures_of_a_run (fuel : nat) (env : Env) (args : Namespace) :
  (find_emscripten_dir env args = None -> main fuel env args = Raised TypeError)
  /\ (main fuel env args = Raised (SystemExit 1)
      <-> exists dir,
            find_emscripten_dir env args = Some dir
            /\ is_file env (Path_child dir "LICENSE") = Some false)
  /\ (forall e,
         main fuel env args = Raised e ->
         e = SystemExit 1 \/ e = OSError \/ e = UnicodeDecodeError
         \/ e = TypeError \/ e = AttributeError \/ e = ValueError)
  /\ (forall out,
         main fuel env args = Returned out ->
         (exists dir,
             find_emscripten_dir env args = Some dir
             /\ is_file env (Path_child dir "LICENSE") = Some true)
         /\ (exists text, sources args = Some (Text text))
         /\ output args = true)
  /\ (forall dir,
         find_emscripten_dir env args = Some dir ->
         is_file env (Path_child dir "LICENSE") = Some true ->
         sources args = None \/ output args = false ->
         main fuel env args = Raised AttributeError
         \/ main fuel env args = OutOfFuel).
Proof.
  unfold main.
  destruct (find_emscripten_dir env args) as [dir |];
    [| repeat split; try discriminate;
       [intros [dir [H _]]; discriminate | intros e [= <-]; tauto]].
  split; [discriminate |].
  destruct (is_file env (Path_child dir "LICENSE")) as [[|] |] eqn:Ef;
    cbn [negb].
  - pose proof (try_body_raises fuel env (Path_child dir "LICENSE") args)
      as Hb.
    unfold raised_while_collecting in Hb.
    pose proof (try_body_returns fuel env (Path_child dir "LICENSE") args)
      as Hr.
    destruct (cleanup_outcomes args) as [[Hs [Ho ->]] | [Hm ->]];
      destruct (text <- readlines (sources args) ;; _) as [out | e |];
      cbn [finally].
    + split; [| split; [| split]].
      * split; [discriminate |]. intros [d [[= <-] H]]. congruence.
      * discriminate.
      * intros o _. split; [eauto |]. now apply (Hr out).
      * intros d _ _ [H | H]; congruence.
    + specialize (Hb e eq_refl). split; [| split; [| split]].
      * split; [| intros [d [[= <-] H]]; congruence].
        intros [= ->].
        destruct Hb as [H | [H | [H | [H | H]]]]; discriminate.
      * intros e' [= <-]. tauto.
      * discriminate.
      * intros d _ _ [H | H]; congruence.
    + split; [| split; [| split]].
      * split; [discriminate |]. intros [d [[= <-] H]]. congruence.
      * discriminate.
      * discriminate.
      * intros d _ _ _. now right.
    + exfalso. destruct (Hr out eq_refl) as [[text Hs] Ho].
      destruct Hm; congruence.
    + split; [| split; [| split]].
      * split; [discriminate |]. intros [d [[= <-] H]]. congruence.
      * intros e' [= <-]. tauto.
      * discriminate.
      * intros d _ _ _. now left.
    + split; [| split; [| split]].
      * split; [discriminate |]. intros [d [[= <-] H]]. congruence.
      * discriminate.
      * discriminate.
      * intros d _ _ _. now right.
  - split; [| split; [| split]].
    + split; [eauto | reflexivity].
    + intros e [= <-]. tauto.
    + discriminate.
    + intros d [= <-] H. congruence.
  - split; [| split; [| split]].
    + split; [discriminate |]. intros [d [[= <-] H]]. congruence.
    + intros e [= <-]. tauto.
    + discriminate.
    + intros d [= <-] H. congruence.
Qed.

(** A run without [--emscripten-dir] where [emcc] is not found and where it
    is found, a run on a directory without LICENSE, a run on a source that
    cannot be opened with and without [--output], and runs on a source that
    does not decode, before and after its notice has been read. *)
Lemma failures_of_a_run_examples :
  main 7 two_notices (mkNamespace (Some (Text (text ["/x/a.c"]))) true None)
  = Raised TypeError
  /\ main 7 (with_emcc two_notices "/e/emcc")
          (mkNamespace (Some (Text (text ["/x/a.c"]))) true None)
     = Returned (json_dump [dep_a] ++ LF)%string
  /\ main 7 bare_world (arguments e_dir (text ["/a/b.c"]))
     = Raised (SystemExit 1)
  /\ main 7 (with_contents two_notices x_a None)
          (arguments e_dir (text ["/x/a.c"]))
     = Raised OSError
  /\ main 7 (with_contents two_notices x_a None)
          (mkNamespace (Some (Text (text ["/x/a.c"]))) false (Some e_dir))
     = Raised AttributeError
  /\ main 7 (with_contents two_notices x_a
               (Some (Undecodable (text ["int a;"]))))
          (arguments e_dir (text ["/x/a.c"]))
     = Raised UnicodeDecodeError
  /\ main 7 (with_contents two_notices x_a
               (Some (Undecodable
                        (text ["// Copyright 2020 Foo"; "// Notice A";
                               "int a;"]))))
          (arguments e_dir (text ["/x/a.c"]))
     = Returned (json_dump [dep_a] ++ LF)%string.
Proof. repeat split; vm_compute; reflexivity. Qed.

(** ** The text that is written *)

Lemma plain_app (a b : string) : plain (a ++ b) = plain a && plain b.
Proof.
  induction a as [| x a IH]; simpl; [reflexivity |].
  now rewrite IH, andb_assoc.
Qed.

Lemma json_escape_char_plain (c : ascii) :
  plain (json_escape_char c) = true /\ no_lf (json_escape_char c) = true.
Proof.
  destruct c as [[] [] [] [] [] [] [] []]; split; vm_compute; reflexivity.
Qed.

Lemma no_lf_app (a b : string) : no_lf (a ++ b) = no_lf a && no_lf b.
Proof.
  induction a as [| x a IH]; simpl; [reflexivity |].
  now rewrite IH, andb_assoc.
Qed.

Lemma json_escape_plain (s : string) :
  plain (json_escape s) = true /\ no_lf (json_escape s) = true.
Proof.
  induction s as [| c s [IH1 IH2]]; simpl; [now split |].
  destruct (json_escape_char_plain c) as [H1 H2].
  now rewrite plain_app, no_lf_app, H1, H2, IH1, IH2.
Qed.

Lemma json_string_plain (s : string) :
  plain (json_string s) = true /\ no_lf (json_string s) = true.
Proof.
  unfold json_string. destruct (json_escape_plain s) as [H1 H2].
  rewrite !plain_app, !no_lf_app, H1, H2. now split.
Qed.

Lemma json_dependency_plain (d : Dependency) : plain (json_dependency d) = true.
Proof.
  unfold json_dependency, json_key.
  repeat rewrite plain_app.
  rewrite (proj1 (json_string_plain (dep_name d))).
  rewrite (proj1 (json_string_plain (dep_notice d))).
  destruct (dep_license d) as [l |];
    [rewrite (proj1 (json_string_plain l)) |]; reflexivity.
Qed.

Lemma join_plain (sep : string) (l : list string) :
  plain sep = true -> Forall (fun s => plain s = true) l ->
  plain (join sep l) = true.
Proof.
  intros Hs. induction 1 as [| x l Hx Hl IH]; [reflexivity |].
  destruct l as [| y l]; [exact Hx |].
  change (join sep (x :: y :: l)) with (x ++ sep ++ join sep (y :: l))%string.
  now rewrite !plain_app, Hx, Hs, IH.
Qed.

Lemma json_dump_plain (deps : list Dependency) : plain (json_dump deps) = true.
Proof.
  unfold json_dump, json_key. repeat rewrite plain_app.
  destruct deps as [| d deps]; [reflexivity |].
  repeat rewrite plain_app. rewrite join_plain; [reflexivity | reflexivity |].
  apply Forall_forall. intros s Hs. apply in_map_iff in Hs.
  destruct Hs as [x [<- _]]. apply json_dependency_plain.
Qed.

Lemma ends_lf_app_LF (s : string) : ends_lf (s ++ LF) = true.
Proof.
  induction s as [| a s IH]; [reflexivity |].
  simpl. destruct (s ++ LF)%string eqn:E; [| exact IH].
  destruct s; discriminate.
Qed.

(** X18: whatever a run writes is plain ASCII: every character of the
    output is printable ASCII or a line feed, and the output ends with a
    line feed.  Inside the strings of the output no line feed and no other
    control or non-ASCII character of a name, license or notice appears as
    itself; they are written as escapes. *)
Theorem output_is_plain_ascii (fuel : nat) (env : Env) (args : Namespace)
    (out : string) :
  main fuel env args = Returned out ->
  plain out = true /\ ends_lf out = true
  /\ exists dir lines deps,
       find_emscripten_dir env args = Some dir
       /\ sources args = Some (Text lines)
       /\ collect_dependencies fuel env (Path_child dir "LICENSE") lines
          = Returned deps
       /\ out = (json_dump deps ++ LF)%string
       /\ Forall (fun d => no_lf (json_string (dep_name d)) = true
                           /\ no_lf (json_string (dep_notice d)) = true)
                 deps.
Proof.
  unfold main.
  destruct (find_emscripten_dir env args) as [dir |]; [| discriminate].
  destruct (is_file env _) as [[|] |]; cbn [negb]; try discriminate.
  destruct (sources args) as [[text | head] |] eqn:Es; cbn [readlines bind];
    [| destruct (output args); discriminate
     | destruct (output args); discriminate].
  destruct (collect_dependencies _ _ _ _) as [deps | e |] eqn:Ec; cbn [bind];
    [| destruct (output args); discriminate | discriminate].
  destruct (output args); cbn [write finally is_Some close bind];
    [| discriminate].
  intro H. assert (out = (json_dump deps ++ LF)%string) as -> by congruence.
  clear H. split; [| split].
  - now rewrite plain_app, json_dump_plain.
  - apply ends_lf_app_LF.
  - exists dir, text, deps.
    split; [reflexivity |]. split; [try exact Es; reflexivity |].
    split; [exact Ec |]. split; [reflexivity |].
    apply Forall_forall. intros d _. split; apply json_string_plain.
Qed.

Lemma output_is_plain_ascii_witness :
  plain (json_dump [dep_m; dep_shared] ++ LF) = true
  /\ ends_lf (json_dump [dep_m; dep_shared] ++ LF) = true
  /\ exists dir lines deps,
       find_emscripten_dir licensed_world
         (arguments e_dir (text ["/p/q/m.c"; "/x/a.c"; "/x/b.c"])) = Some dir
       /\ sources (arguments e_dir (text ["/p/q/m.c"; "/x/a.c"; "/x/b.c"]))
          = Some (Text lines)
       /\ collect_dependencies 10 licensed_world (Path_child dir "LICENSE")
            lines = Returned deps
       /\ (json_dump [dep_m; dep_shared] ++ LF)%string
          = (json_dump deps ++ LF)%string
       /\ Forall (fun d => no_lf (json_string (dep_name d)) = true
                           /\ no_lf (json_string (dep_notice d)) = true)
                 deps.
Proof.
  apply (output_is_plain_ascii 10 licensed_world
           (arguments e_dir (text ["/p/q/m.c"; "/x/a.c"; "/x/b.c"]))).
  vm_compute. reflexivity.
Defined.
